(** * File sorter: a shallow embedding of [main.py]

    The program walks a source folder and copies every regular file into
    [output/<extension>/<name>], one coroutine per file, all of them awaited
    through [asyncio.gather].

    What is embedded. [copy_file], [read_folder] and [main] are the
    functions of [main.py]; the arguments parsed by [parse_arguments] are
    the record [args]. The library calls they make are modelled after the
    libraries:
    - a Python [str] is a [string], a sequence of 8-bit characters: the
      text in an encoding that extends ASCII. [Str.lower] lower-cases the
      letters [A]-[Z] and leaves every other character as it is, which is
      what [str.lower] does to a text with no capital letter outside
      ASCII. What a statement says of the lower case of an extension is
      said of ASCII extensions ([Str.isascii]) only;
    - an [AsyncPath] is the list of its components below the working
      directory, which is the root of the file-system map; its [name],
      [suffix], [parent] and [/] are those of [pathlib.PurePath] ([suffix]
      with [rfind] and the test [0 < i < len(name) - 1]). The paths of
      the model are relative and free of [..]: [PurePath.plain] tells
      which command-line arguments denote such a path, and what a
      statement says of the place an argument points to is said of plain
      arguments only;
    - the file system is a finite map from paths to nodes, read through
      [Fs.resolve], the component-by-component lookup of the kernel; it has
      regular files and directories, no symbolic links, no [..], no
      permissions, and only this program changes it;
    - [mkdir] is the algorithm of [pathlib.Path.mkdir], which [aiopath]
      repeats with an await at each system call: [os.mkdir], and on an
      [OSError] the [is_dir] test of [exist_ok];
    - [aioshutil.copy] is [shutil.copy], taken as one step. The library
      runs it in a thread, which opens the target, truncating it, and then
      writes: one step stands for this as long as no two coroutines copy
      to the same target path and no coroutine copies from a path that
      another one writes. What a statement says of the content of a
      target under [gather] is therefore said of files of distinct names
      only; of two files of one name it is only said that a regular file
      is there.

    Concurrency. A coroutine is a tree of atomic operations, each with a
    continuation on its answer. Calling [copy_file] only builds such a
    tree; nothing of it runs before [gather], which lets its coroutines
    take their steps in any order: the order is a schedule, a list of
    indices, and the statements hold for every schedule. The walk of
    [rglob] is read as one listing: until [gather] no other coroutine runs,
    so nothing changes between two of its items. *)

From Stdlib Require Import ZArith Ascii String Lia.
From stdpp Require Import base option list strings gmap.

Local Open Scope string_scope.
Local Open Scope list_scope.
Local Open Scope Z_scope.

(** ** Python strings *)

Module Str.

(** [len(s)] *)
Definition len (s : string) : Z := Z.of_nat (String.length s).

(** [bool(s)]: a string is true when it is not empty. *)
Definition truthy (s : string) : bool :=
  match s with EmptyString => false | String _ _ => true end.

(** [s.isascii()]: every character is below 128. *)
Fixpoint isascii (s : string) : bool :=
  match s with
  | EmptyString => true
  | String c s' => (N_of_ascii c <? 128)%N && isascii s'
  end.

Definition lower_char (c : ascii) : ascii :=
  let n := N_of_ascii c in
  if ((65 <=? n) && (n <=? 90))%N then ascii_of_N (n + 32) else c.

(** [s.lower()], on the letters of ASCII: on a string that [isascii] it is
    Python's [str.lower]. *)
Fixpoint lower (s : string) : string :=
  match s with
  | EmptyString => EmptyString
  | String c s' => String (lower_char c) (lower s')
  end.

(** [c in chars] *)
Fixpoint mem (c : ascii) (chars : string) : bool :=
  match chars with
  | EmptyString => false
  | String d chars' => Ascii.eqb c d || mem c chars'
  end.

(** [s.lstrip(chars)]: drops the leading characters that are in [chars]. *)
Fixpoint lstrip (chars : string) (s : string) : string :=
  match s with
  | EmptyString => EmptyString
  | String c s' => if mem c chars then lstrip chars s' else s
  end.

(** [s.rfind(c)]: the highest index of [c] in [s], or [-1]. *)
Fixpoint rfind (c : ascii) (s : string) : Z :=
  match s with
  | EmptyString => -1
  | String a s' =>
      let i := rfind c s' in
      if 0 <=? i then i + 1 else if Ascii.eqb a c then 0 else -1
  end.

Fixpoint drop (n : nat) (s : string) : string :=
  match n, s with
  | O, _ => s
  | S n', String _ s' => drop n' s'
  | S _, EmptyString => EmptyString
  end.

(** [s[i:]], a negative [i] counting from the end. *)
Definition slice_from (i : Z) (s : string) : string :=
  if i <? 0 then drop (Z.to_nat (Z.max 0 (len s + i))) s
  else drop (Z.to_nat i) s.

(** [s.startswith(c)] for a one-character [c]. *)
Definition starts_with (c : ascii) (s : string) : bool :=
  match s with
  | EmptyString => false
  | String a _ => Ascii.eqb a c
  end.

(** [s.split(c)] for a one-character separator. *)
Fixpoint split (c : ascii) (s : string) : list string :=
  match s with
  | EmptyString => [EmptyString]
  | String a s' =>
      if Ascii.eqb a c then EmptyString :: split c s'
      else match split c s' with
           | [] => [String a EmptyString]
           | h :: t => String a h :: t
           end
  end.

End Str.

(** ** Pure paths *)

Abbreviation AsyncPath := (list string).

Module PurePath.

(** A component that the parser keeps: not empty, not [.]. *)
Definition kept (s : string) : bool :=
  negb (String.eqb s "") && negb (String.eqb s ".").

Definition parse_parts (s : string) : AsyncPath :=
  List.filter kept (Str.split "/" s).

(** The arguments that denote a path of the model: relative, and with
    no [..] among the components. *)
Definition plain (s : string) : bool :=
  negb (Str.starts_with "/" s) &&
  forallb (fun c => negb (String.eqb c "..")) (Str.split "/" s).

(** [AsyncPath(s)] for a plain [s]: the components below the working
    directory, as the parser of [pathlib] keeps them. An absolute [s], or
    one with [..], denotes a place that these components do not name. *)
Definition of_string (s : string) : AsyncPath := parse_parts s.

(** [p / s]: an absolute segment replaces [p]. *)
Definition truediv (p : AsyncPath) (s : string) : AsyncPath :=
  if Str.starts_with "/" s then parse_parts s else p ++ parse_parts s.

(** A single component: kept by the parser and free of separators. *)
Definition component (s : string) : bool :=
  kept s && negb (Str.mem "/" s).

(** [p.name]: the final component, [''] when there is none. *)
Definition name (p : AsyncPath) : string := List.last p "".

(** [p.parent]: the base directory is its own parent. *)
Definition parent (p : AsyncPath) : AsyncPath := List.removelast p.

(** [p.suffix] *)
Definition suffix (p : AsyncPath) : string :=
  let name := name p in
  let i := Str.rfind "." name in
  if (0 <? i) && (i <? Str.len name - 1) then Str.slice_from i name
  else "".

End PurePath.

Infix "/:" := PurePath.truediv (at level 40, left associativity).

(** The values of the local variables of [copy_file]. *)
Definition extension_of (path : AsyncPath) : string :=
  Str.lower (PurePath.suffix path).

Definition bucket_of (path : AsyncPath) : string :=
  if Str.truthy (extension_of path) then Str.lstrip "." (extension_of path)
  else "no_extension".

Definition target_folder_of (path output_folder : AsyncPath) : AsyncPath :=
  output_folder /: bucket_of path.

Definition target_path_of (path output_folder : AsyncPath) : AsyncPath :=
  target_folder_of path output_folder /: PurePath.name path.

(** ** The file system *)

Inductive node : Type :=
| Dir
| File (data : string).

(** The [OSError] subclasses that the operations below raise. *)
Inductive oserror : Type :=
| FileNotFoundError
| FileExistsError
| NotADirectoryError
| IsADirectoryError
| SameFileError.

(** [CancelledError] derives from [BaseException] only. *)
Inductive exn : Type :=
| OSError (e : oserror)
| CancelledError.

Definition is_Exception (x : exn) : bool :=
  match x with
  | OSError _ => true
  | CancelledError => false
  end.

Module Fs.

Abbreviation t := (gmap AsyncPath node).

(** Path resolution, on the reversed path: every proper prefix has to be
    a directory, and the shortest prefix that fails decides the error. *)
Fixpoint resolve_rev (fs : t) (rp : list string) : oserror + node :=
  match rp with
  | [] => inr Dir
  | _ :: rparent =>
      match resolve_rev fs rparent with
      | inl e => inl e
      | inr (File _) => inl NotADirectoryError
      | inr Dir =>
          match fs !! rev rp with
          | Some n => inr n
          | None => inl FileNotFoundError
          end
      end
  end.

Definition resolve (fs : t) (p : AsyncPath) : oserror + node :=
  resolve_rev fs (rev p).

(** [p.exists()], [p.is_dir()], [p.is_file()]: a failed [stat] is [False]. *)
Definition exists_ (fs : t) (p : AsyncPath) : bool :=
  match resolve fs p with inr _ => true | inl _ => false end.

Definition is_dir (fs : t) (p : AsyncPath) : bool :=
  match resolve fs p with inr Dir => true | _ => false end.

Definition is_file (fs : t) (p : AsyncPath) : bool :=
  match resolve fs p with inr (File _) => true | _ => false end.

(** [os.mkdir(p)] *)
Definition os_mkdir (p : AsyncPath) (fs : t) : option oserror * t :=
  match resolve fs p with
  | inr _ => (Some FileExistsError, fs)
  | inl NotADirectoryError => (Some NotADirectoryError, fs)
  | inl _ =>
      match resolve fs (PurePath.parent p) with
      | inr Dir => (None, <[p := Dir]> fs)
      | _ => (Some FileNotFoundError, fs)
      end
  end.

(** [p.rglob("*")]: everything reachable strictly below a directory [p];
    nothing when [p] is not a directory. *)
Definition below (p q : AsyncPath) : bool :=
  bool_decide (p `prefix_of` q) && negb (bool_decide (p = q)).

Definition rglob (fs : t) (p : AsyncPath) : list AsyncPath :=
  if is_dir fs p
  then List.filter (fun q => below p q && exists_ fs q) (map fst (map_to_list fs))
  else [].

(** [open(dst, 'wb')] followed by the write of [data]. *)
Definition write (dst : AsyncPath) (data : string) (fs : t) : option oserror * t :=
  match resolve fs dst with
  | inr Dir => (Some IsADirectoryError, fs)
  | inr (File _) => (None, <[dst := File data]> fs)
  | inl NotADirectoryError => (Some NotADirectoryError, fs)
  | inl _ =>
      match resolve fs (PurePath.parent dst) with
      | inr Dir => (None, <[dst := File data]> fs)
      | _ => (Some FileNotFoundError, fs)
      end
  end.

(** [shutil.copyfile(src, dst)] *)
Definition copyfile (src dst : AsyncPath) (fs : t) : option oserror * t :=
  if bool_decide (src = dst) && exists_ fs src then (Some SameFileError, fs)
  else
    match resolve fs src with
    | inl e => (Some e, fs)
    | inr Dir => (Some IsADirectoryError, fs)
    | inr (File data) => write dst data fs
    end.

(** [shutil.copy(src, dst)]: a directory [dst] receives the file under
    the base name of [src]. *)
Definition copy (src dst : AsyncPath) (fs : t) : option oserror * t :=
  let dst := if is_dir fs dst then dst /: PurePath.name src else dst in
  copyfile src dst fs.

End Fs.

(** ** Logging *)

Inductive level : Type := INFO | WARNING | ERROR.

Inductive message : Type :=
| SourceMissing (source : AsyncPath)
| NoFilesFound (source : AsyncPath)
| Copied (path target_path : AsyncPath)
| ErrorCopying (path : AsyncPath) (e : exn).

Record world : Type := World {
  files : gmap AsyncPath node;
  log : list (level * message)
}.

(** ** Atomic operations *)

Inductive op : Type :=
| Exists (p : AsyncPath)
| IsFile (p : AsyncPath)
| IsDir (p : AsyncPath)
| OsMkdir (p : AsyncPath)
| Rglob (p : AsyncPath)
| Copy (src dst : AsyncPath)
| Logging (l : level) (m : message).

Definition reply (o : op) : Type :=
  match o with
  | Exists _ | IsFile _ | IsDir _ => bool
  | OsMkdir _ | Copy _ _ => option oserror
  | Rglob _ => list AsyncPath
  | Logging _ _ => unit
  end.

(** What an operation answers and does. [Copy] is [shutil.copy] as one
    step, which stands for the threaded copy of the library as long as
    the coroutines copy to distinct target paths. *)
Definition exec (o : op) (w : world) : reply o * world :=
  match o as o0 return reply o0 * world with
  | Exists p => (Fs.exists_ (files w) p, w)
  | IsFile p => (Fs.is_file (files w) p, w)
  | IsDir p => (Fs.is_dir (files w) p, w)
  | OsMkdir p =>
      let '(r, fs) := Fs.os_mkdir p (files w) in (r, World fs (log w))
  | Rglob p => (Fs.rglob (files w) p, w)
  | Copy src dst =>
      let '(r, fs) := Fs.copy src dst (files w) in (r, World fs (log w))
  | Logging l m => (tt, World (files w) (log w ++ [(l, m)]))
  end.

(** ** Coroutines *)

Inductive prog (E : Type) (R : E -> Type) (A : Type) : Type :=
| Ret (a : A)
| Raise (x : exn)
| Vis (e : E) (k : R e -> prog E R A).

Arguments Ret {E R A} a.
Arguments Raise {E R A} x.
Arguments Vis {E R A} e k.

Fixpoint bind {E R A B} (m : prog E R A) (f : A -> prog E R B) : prog E R B :=
  match m with
  | Ret a => f a
  | Raise x => Raise x
  | Vis e k => Vis e (fun r => bind (k r) f)
  end.

(** [try: m  except Exception as e: h e] *)
Fixpoint try_except {E R A} (m : prog E R A) (h : exn -> prog E R A) : prog E R A :=
  match m with
  | Ret a => Ret a
  | Raise x => if is_Exception x then h x else Raise x
  | Vis e k => Vis e (fun r => try_except (k r) h)
  end.

Notation "x <- m ;; f" := (bind m (fun x => f))
  (at level 20, m at level 99, f at level 200, only parsing).
Notation "m ;; f" := (bind m (fun _ => f))
  (at level 100, f at level 200, right associativity, only parsing).

(** A coroutine of file operations. *)
Abbreviation coro := (prog op reply).

Definition await (o : op) : coro (reply o) := Vis o Ret.

(** An operation that reports failure through an [OSError]. *)
Definition checked (o : op) (k : reply o -> option oserror) : coro unit :=
  r <- await o ;;
  match k r with
  | None => Ret tt
  | Some e => Raise (OSError e)
  end.

Definition aioshutil_copy (src dst : AsyncPath) : coro unit :=
  checked (Copy src dst) (fun r => r).

Definition logging (l : level) (m : message) : coro unit :=
  await (Logging l m).

(** [AsyncPath.mkdir(parents=False, exist_ok=exist_ok)] *)
Definition mkdir_once (p : AsyncPath) (exist_ok : bool) : coro unit :=
  r <- await (OsMkdir p) ;;
  match r with
  | None => Ret tt
  | Some FileNotFoundError => Raise (OSError FileNotFoundError)
  | Some e =>
      if negb exist_ok then Raise (OSError e)
      else d <- await (IsDir p) ;;
           if negb d then Raise (OSError e) else Ret tt
  end.

(** [AsyncPath.mkdir(parents=True, exist_ok=exist_ok)] on the path whose
    reversal is [rp], so that the call on the parent is structural. *)
Fixpoint mkdir_parents (rp : list string) (exist_ok : bool) : coro unit :=
  r <- await (OsMkdir (rev rp)) ;;
  match r with
  | None => Ret tt
  | Some FileNotFoundError =>
      match rp with
      | [] => Raise (OSError FileNotFoundError)
      | _ :: rparent =>
          mkdir_parents rparent true ;;
          mkdir_once (rev rp) exist_ok
      end
  | Some e =>
      if negb exist_ok then Raise (OSError e)
      else d <- await (IsDir (rev rp)) ;;
           if negb d then Raise (OSError e) else Ret tt
  end.

Definition mkdir (p : AsyncPath) (parents exist_ok : bool) : coro unit :=
  if parents then mkdir_parents (rev p) exist_ok else mkdir_once p exist_ok.

Definition copy_file (path output_folder : AsyncPath) : coro unit :=
  let extension := Str.lower (PurePath.suffix path) in
  let target_folder :=
    output_folder /:
      (if Str.truthy extension then Str.lstrip "." extension
       else "no_extension") in
  try_except
    (mkdir target_folder true true ;;
     let target_path := target_folder /: PurePath.name path in
     aioshutil_copy path target_path ;;
     logging INFO (Copied path target_path))
    (fun e => logging ERROR (ErrorCopying path e)).

(** ** The main coroutine *)

Inductive mop : Type :=
| Io (o : op)
| Gather (tasks : list (coro unit)).

Definition mreply (o : mop) : Type :=
  match o with
  | Io o => reply o
  | Gather _ => (exn + unit)%type
  end.

Abbreviation mprog := (prog mop mreply).

Definition io (o : op) : mprog (reply o) := Vis (Io o) Ret.

Fixpoint lift {A} (c : coro A) : mprog A :=
  match c with
  | Ret a => Ret a
  | Raise x => Raise x
  | Vis o k => Vis (Io o) (fun r => lift (k r))
  end.

(** [await asyncio.gather] over the tasks: the first exception of a task is
    raised in the awaiting coroutine. *)
Definition gather (tasks : list (coro unit)) : mprog unit :=
  r <- Vis (Gather tasks) Ret ;;
  match r with
  | inl x => Raise x
  | inr _ => Ret tt
  end.

(** The body of the [async for] loop of [read_folder]. *)
Fixpoint collect (items : list AsyncPath) (output : AsyncPath)
    (tasks : list (coro unit)) : mprog (list (coro unit)) :=
  match items with
  | [] => Ret tasks
  | item :: items' =>
      f <- io (IsFile item) ;;
      collect items' output
        (if f then tasks ++ [copy_file item output] else tasks)
  end.

(** [read_folder]: [tasks] holds coroutines that have not started; they
    run under [gather], after the loop. *)
Definition read_folder (source output : AsyncPath) : mprog unit :=
  e <- io (Exists source) ;;
  if negb e then io (Logging ERROR (SourceMissing source))
  else
    items <- io (Rglob source) ;;
    tasks <- collect items output [] ;;
    match tasks with
    | _ :: _ => gather tasks
    | [] => io (Logging WARNING (NoFilesFound source))
    end.

Record args : Type := Args { source : string; output : string }.

Definition main (a : args) : mprog unit :=
  let source_folder := PurePath.of_string (source a) in
  let output_folder := PurePath.of_string (output a) in
  lift (mkdir output_folder true true) ;;
  read_folder source_folder output_folder.

(** ** Running coroutines *)

Inductive outcome (A : Type) : Type :=
| Returned (a : A)
| Raised (x : exn).

Arguments Returned {A} a.
Arguments Raised {A} x.

(** The thread of an event: [None] is the main coroutine, [Some i] the
    [i]-th coroutine handed to [gather]. *)
Abbreviation event := (option nat * op)%type.

Definition tag (i : option nat) (tr : list op) : list event :=
  map (fun o => (i, o)) tr.

(** A coroutine run alone to its end. *)
Fixpoint run_coro {A} (c : coro A) (w : world) : list op * world * outcome A :=
  match c with
  | Ret a => ([], w, Returned a)
  | Raise x => ([], w, Raised x)
  | Vis o k =>
      let '(r, w1) := exec o w in
      let '(tr, w2, res) := run_coro (k r) w1 in
      (o :: tr, w2, res)
  end.

(** When the schedule is used up the coroutines finish one after the
    other; a coroutine that ends with an exception ends the [gather], and
    those after it are left as they are. *)
Fixpoint drain (i : nat) (todo : list (coro unit)) (w : world)
    : list event * world * list (coro unit) * option exn :=
  match todo with
  | [] => ([], w, [], None)
  | c :: todo' =>
      let '(tr, w1, res) := run_coro c w in
      match res with
      | Raised x => (tag (Some i) tr, w1, Raise x :: todo', Some x)
      | Returned a =>
          let '(tr', w2, done, st) := drain (S i) todo' w1 in
          (tag (Some i) tr ++ tr', w2, Ret a :: done, st)
      end
  end.

(** [gather]: each entry of the schedule lets one coroutine take one
    step; an entry that names no pending coroutine is skipped, and one that
    names a coroutine ended by an exception ends the [gather] with it (the
    other coroutines are then cancelled, as when [asyncio.run] returns).
    Every interleaving of the steps is the run of some schedule. The
    result is the trace, the final world, the final state of every
    coroutine and the exception that ended the [gather], if any. *)
Fixpoint run_pool (sched : list nat) (w : world) (pool : list (coro unit))
    : list event * world * list (coro unit) * option exn :=
  match sched with
  | [] => drain 0 pool w
  | i :: sched' =>
      match pool !! i with
      | Some (Vis o k) =>
          let '(r, w1) := exec o w in
          let '(tr, w2, pool', st) := run_pool sched' w1 (<[i := k r]> pool) in
          ((Some i, o) :: tr, w2, pool', st)
      | Some (Raise x) => ([], w, pool, Some x)
      | _ => run_pool sched' w pool
      end
  end.

(** The main coroutine: it steps alone, and waits at [gather]. *)
Fixpoint run_main {A} (sched : list nat) (m : mprog A) (w : world)
    : list event * world * outcome A :=
  match m with
  | Ret a => ([], w, Returned a)
  | Raise x => ([], w, Raised x)
  | Vis e k =>
      match e as e0 return (mreply e0 -> mprog A) -> _ with
      | Io o => fun k =>
          let '(r, w1) := exec o w in
          let '(tr, w2, res) := run_main sched (k r) w1 in
          ((None, o) :: tr, w2, res)
      | Gather tasks => fun k =>
          let '(tr, w1, _, st) := run_pool sched w tasks in
          let r := match st with Some x => inl x | None => inr tt end in
          let '(tr', w2, res) := run_main sched (k r) w1 in
          (tr ++ tr', w2, res)
      end k
  end.

(** ** Vocabulary of the statements *)

Definition same_kind (n m : node) : Prop :=
  match n, m with
  | Dir, Dir => True
  | File _, File _ => True
  | _, _ => False
  end.

(** Nothing is ever removed, and a node never changes its kind. *)
Definition fs_grows (fs fs' : gmap AsyncPath node) : Prop :=
  forall p n, Fs.resolve fs p = inr n ->
    exists n', Fs.resolve fs' p = inr n' /\ same_kind n n'.

(** Every entry of the map is reachable from the root. *)
Definition fs_wf (fs : gmap AsyncPath node) : Prop :=
  forall p n, fs !! p = Some n -> Fs.resolve fs p = inr n.

(** The world only grows: what the other coroutines may do between two
    steps of a coroutine. *)
Definition grows (w w' : world) : Prop :=
  fs_grows (files w) (files w') /\ log w ⊆ log w'.

(** [wp c w Q]: whatever the other coroutines do between two steps of [c],
    as long as the world only grows, [c] ends in [Q]. *)
Fixpoint wp {A} (c : coro A) (w : world) (Q : outcome A -> world -> Prop) : Prop :=
  match c with
  | Ret a => Q (Returned a) w
  | Raise x => Q (Raised x) w
  | Vis o k => forall w1, grows w w1 -> wp (k (exec o w1).1) (exec o w1).2 Q
  end.

Definition stable {A} (Q : outcome A -> world -> Prop) : Prop :=
  forall r w w', grows w w' -> Q r w -> Q r w'.

(** [c] never ends with an exception, whatever its operations answer. *)
Fixpoint no_raise {A} (c : coro A) : Prop :=
  match c with
  | Ret _ => True
  | Raise _ => False
  | Vis o k => forall r, no_raise (k r)
  end.

(** Every operation that [c] can ever issue satisfies [P]. *)
Fixpoint ops_all {A} (P : op -> Prop) (c : coro A) : Prop :=
  match c with
  | Ret _ | Raise _ => True
  | Vis o k => P o /\ forall r, ops_all P (k r)
  end.

Definition is_ret {A} (c : coro A) : Prop :=
  match c with Ret _ => True | _ => False end.

(** An event of a coroutine under [gather], whose operation satisfies [P]. *)
Definition task_event (P : op -> Prop) (ev : event) : Prop :=
  is_Some ev.1 /\ P ev.2.

(** The call returns with the directory in place; it raises only with a
    regular file on the way. *)
Definition mkdir_post (p : AsyncPath) (r : outcome unit) (w : world) : Prop :=
  match r with
  | Returned _ => Fs.resolve (files w) p = inr Dir
  | Raised x =>
      is_Exception x = true /\
      exists q d, q `prefix_of` p /\ Fs.resolve (files w) q = inr (File d)
  end.

(** Every exception that [c] can end with satisfies [P]. *)
Fixpoint raises_all {A} (P : exn -> Prop) (c : coro A) : Prop :=
  match c with
  | Ret _ => True
  | Raise x => P x
  | Vis o k => forall r, raises_all P (k r)
  end.

Definition caught (x : exn) : Prop := is_Exception x = true.

(** The operations of [mkdir] on [p]: directory creations and tests, on
    prefixes of [p]. *)
Definition mkdir_op (p : AsyncPath) (o : op) : Prop :=
  match o with
  | OsMkdir q | IsDir q => q `prefix_of` p
  | _ => False
  end.

(** What [copy_file] asks of the file system: directories on the way to
    its target folder, and one copy, to its target path. *)
Definition copy_file_op (path output_folder : AsyncPath) (o : op) : Prop :=
  match o with
  | OsMkdir q | IsDir q => q `prefix_of` target_folder_of path output_folder
  | Copy src dst => src = path /\ dst = target_path_of path output_folder
  | Logging _ _ => True
  | _ => False
  end.

(** At the end of [copy_file] the log tells what became of the file. *)
Definition reported (path output_folder : AsyncPath)
    (r : outcome unit) (w : world) : Prop :=
  r = Returned tt /\
  ((INFO, Copied path (target_path_of path output_folder)) ∈ log w \/
   exists x, (ERROR, ErrorCopying path x) ∈ log w).

(** The regular files that the walk of [read_folder] finds, the
    coroutines made for them and the operations of the walk itself. *)
Definition discovered (fs : gmap AsyncPath node) (source : AsyncPath)
    : list AsyncPath :=
  List.filter (Fs.is_file fs) (Fs.rglob fs source).

Definition tasks_of (fs : gmap AsyncPath node) (source output : AsyncPath)
    : list (coro unit) :=
  (fun path => copy_file path output) <$> discovered fs source.

Definition walk_ops (fs : gmap AsyncPath node) (source : AsyncPath) : list op :=
  Exists source :: Rglob source :: map IsFile (Fs.rglob fs source).

Arguments discovered : simpl never.
Arguments tasks_of : simpl never.
Arguments walk_ops : simpl never.

(** No regular file sits on the way to [p]. *)
Definition clear_way (fs : gmap AsyncPath node) (p : AsyncPath) : Prop :=
  forall q d, q `prefix_of` p -> Fs.resolve fs q <> inr (File d).

(** [c], [n] times in a row. *)
Fixpoint times (n : nat) (c : coro unit) : coro unit :=
  match n with
  | O => Ret tt
  | S n' => c ;; times n' c
  end.

(** An event of the walk: the main coroutine lists the source or tests
    one of the items. *)
Definition walk_event (ev : event) : Prop :=
  ev.1 = None /\ exists p, ev.2 = Rglob p \/ ev.2 = IsFile p.

(** A coroutine under [gather] takes a step before an event of the walk. *)
Definition overlaps (tr : list event) : Prop :=
  exists (i j : nat) (ev1 ev2 : event),
    (i < j)%nat /\ tr !! i = Some ev1 /\ tr !! j = Some ev2 /\
    is_Some ev1.1 /\ walk_event ev2.

(** Scenario A of the specification: [src/a.TXT], [src/sub/b.txt] and
    [src/c]. *)
Definition scenario_a : gmap AsyncPath node :=
  list_to_map
    [ (["src"], Dir); (["src"; "a.TXT"], File "A"); (["src"; "sub"], Dir);
      (["src"; "sub"; "b.txt"], File "B"); (["src"; "c"], File "C") ].

(** Scenario A with an output folder in which a regular file named [txt]
    is in the way of the folder of the same name. *)
Definition scenario_blocked : gmap AsyncPath node :=
  <[ ["out"] := Dir ]> (<[ ["out"; "txt"] := File "in the way" ]> scenario_a).

(** The body of the [try] block of [copy_file]. *)
Definition pipeline (path output_folder : AsyncPath) : coro unit :=
  mkdir (target_folder_of path output_folder) true true ;;
  aioshutil_copy path (target_path_of path output_folder) ;;
  logging INFO (Copied path (target_path_of path output_folder)).

(** The operations that stay on the way to [out] or inside it: directory
    creations on a path comparable with [out], and copies of a named file
    to a named place inside [out]. *)
Definition footprint_op (out : AsyncPath) (o : op) : Prop :=
  match o with
  | OsMkdir q => q `prefix_of` out \/ out `prefix_of` q
  | Copy src dst =>
      PurePath.component (PurePath.name src) = true /\
      PurePath.component (PurePath.name dst) = true /\ out `prefix_of` dst
  | _ => True
  end.

(** Outside [out] the file system is as in [fs0], up to new directories
    on the way to [out]; the regular files have proper names. *)
Definition footprint (fs0 : gmap AsyncPath node) (out : AsyncPath)
    (w : world) : Prop :=
  fs_wf (files w) /\
  (forall p d, files w !! p = Some (File d) ->
     PurePath.component (PurePath.name p) = true) /\
  (forall p, ~ out `prefix_of` p ->
     files w !! p = fs0 !! p \/
     (fs0 !! p = None /\ p `prefix_of` out /\ files w !! p = Some Dir)).

Definition is_logging (o : op) : bool :=
  match o with Logging _ _ => true | _ => false end.

(** On every path to its end [c] writes [n] more lines to the log; it
    ends by returning with [onret] lines still to come, or by raising an
    exception that an [except Exception] catches, with [onraise] lines to
    come ([None]: it does not raise). *)
Fixpoint logs_left {A} (onret : nat) (onraise : option nat) (n : nat)
    (c : coro A) : Prop :=
  match c with
  | Ret _ => n = onret
  | Raise x => caught x /\ onraise = Some n
  | Vis o k =>
      if is_logging o
      then exists n', n = S n' /\ forall r, logs_left onret onraise n' (k r)
      else forall r, logs_left onret onraise n (k r)
  end.

(** [wpg I c w Q]: [c] among coroutines that keep the invariant [I].
    Whatever they do between two steps of [c], as long as the world only
    grows and [I] holds, every step of [c] keeps [I], and [c] ends in
    [Q]. *)
Fixpoint wpg {A} (I : world -> Prop) (c : coro A) (w : world)
    (Q : outcome A -> world -> Prop) : Prop :=
  match c with
  | Ret a => Q (Returned a) w
  | Raise x => Q (Raised x) w
  | Vis o k =>
      forall w1, grows w w1 -> I w1 ->
        I (exec o w1).2 /\ wpg I (k (exec o w1).1) (exec o w1).2 Q
  end.

(** The end of a [copy_file] that went well. *)
Definition copied (path output_folder : AsyncPath)
    (r : outcome unit) (w : world) : Prop :=
  r = Returned tt /\
  (INFO, Copied path (target_path_of path output_folder)) ∈ log w /\
  exists d, Fs.resolve (files w) (target_path_of path output_folder)
              = inr (File d).

Definition copied_at (paths : list AsyncPath) (output_folder : AsyncPath)
    (j : nat) : outcome unit -> world -> Prop :=
  match paths !! j with
  | Some path => copied path output_folder
  | None => fun _ _ => True
  end.

(** While the files [paths] of [fs0] are copied: the sources are as in
    [fs0], the way to every target folder is clear, a target path holds
    nothing but what a source of the same name holds in [fs0], and the
    log has gained nothing but lines for copied files. *)
Definition batch_inv (fs0 : gmap AsyncPath node) (l0 : list (level * message))
    (paths : list AsyncPath) (output_folder : AsyncPath) (w : world) : Prop :=
  fs_wf (files w) /\
  (forall path, path ∈ paths ->
     Fs.resolve (files w) path = Fs.resolve fs0 path /\
     clear_way (files w) (target_folder_of path output_folder) /\
     forall n, Fs.resolve (files w) (target_path_of path output_folder) = inr n ->
       exists path', path' ∈ paths /\
         PurePath.name path' = PurePath.name path /\
         Fs.resolve fs0 path' = inr n) /\
  exists l, log w = l0 ++ l /\
    Forall (fun e => exists path, path ∈ paths /\
              e = (INFO, Copied path (target_path_of path output_folder))) l.

(** While the output folder is made: the regular files are those of
    [fs0], with their content, nothing is logged, and what has appeared
    is on the way to [out]. *)
Definition same_files (fs0 : gmap AsyncPath node) (out : AsyncPath)
    (l0 : list (level * message)) (w : world) : Prop :=
  fs_wf (files w) /\ log w = l0 /\
  (forall p d, Fs.resolve (files w) p = inr (File d) <->
               Fs.resolve fs0 p = inr (File d)) /\
  (forall p, Fs.exists_ (files w) p = true ->
             Fs.exists_ fs0 p = true \/ p `prefix_of` out).

(** A log line of [copy_file] for [path]. *)
Definition about (path output_folder : AsyncPath) (e : level * message) : Prop :=
  e = (INFO, Copied path (target_path_of path output_folder)) \/
  exists x, e = (ERROR, ErrorCopying path x).

(** The end of [copy_file], as the log [l] and the files tell it: the
    file failed, or it is reported copied and a regular file is at its
    target path, or inside it under the same name. *)
Definition landed (path output_folder : AsyncPath)
    (fs : gmap AsyncPath node) (l : list (level * message)) : Prop :=
  (exists x, (ERROR, ErrorCopying path x) ∈ l) \/
  ((INFO, Copied path (target_path_of path output_folder)) ∈ l /\
   (Fs.is_file fs (target_path_of path output_folder) = true \/
    Fs.is_file fs (target_path_of path output_folder /: PurePath.name path)
      = true)).

Definition landed_at (path output_folder : AsyncPath)
    (r : outcome unit) (w : world) : Prop :=
  r = Returned tt /\ landed path output_folder (files w) (log w).

(** The world [w] with the lines [l0] before those of its log. *)
Definition with_log (l0 : list (level * message)) (w : world) : world :=
  World (files w) (l0 ++ log w).

(** A source file whose target path is already a directory. *)
Definition scenario_occupied : gmap AsyncPath node :=
  list_to_map
    [ (["src"], Dir); (["src"; "a.txt"], File "A"); (["out"], Dir);
      (["out"; "txt"], Dir); (["out"; "txt"; "a.txt"], Dir) ].

(** * Properties *)

(** ** Strings *)

Section StrFacts.

Local Open Scope string_scope.

Lemma lower_char_eq (c d : ascii) :
  Str.mem d "./" = true -> (Ascii.eqb (Str.lower_char c) d = Ascii.eqb c d).
Proof.
  intros Hd. assert (d = "."%char \/ d = "/"%char) as [-> | ->].
  { simpl in Hd. rewrite orb_false_r in Hd.
    apply orb_true_iff in Hd as [H|H]; apply Ascii.eqb_eq in H; auto. }
  all: by destruct c as [[] [] [] [] [] [] [] []].
Qed.

Lemma mem_lower (d : ascii) (s : string) :
  Str.mem d "./" = true -> Str.mem d (Str.lower s) = Str.mem d s.
Proof.
  intros Hd. induction s as [|c s IH]; simpl; [done|].
  rewrite IH. f_equal.
  rewrite !(Ascii.eqb_sym d). by apply lower_char_eq.
Qed.

Lemma lower_nonempty (s : string) : s <> "" -> Str.lower s <> "".
Proof. by destruct s. Qed.

Lemma len_nonneg (s : string) : 0 <= Str.len s.
Proof. unfold Str.len. lia. Qed.

Lemma len_String (c : ascii) (s : string) :
  Str.len (String c s) = Str.len s + 1.
Proof. unfold Str.len. simpl. lia. Qed.

Lemma len_app (a b : string) : Str.len (a ++ b) = Str.len a + Str.len b.
Proof.
  induction a as [|c a IH]; [done|].
  change (String c a ++ b) with (String c (a ++ b)).
  rewrite !len_String, IH. lia.
Qed.

Lemma len_pos (s : string) : s <> "" -> 0 < Str.len s.
Proof. destruct s; [done|]. rewrite len_String. pose proof (len_nonneg s). lia. Qed.

Lemma rfind_absent (c : ascii) (s : string) :
  Str.mem c s = false -> Str.rfind c s = -1.
Proof.
  induction s as [|a s IH]; simpl; [done|].
  intros [Hca Hs]%orb_false_elim. rewrite (IH Hs). simpl.
  by rewrite Ascii.eqb_sym, Hca.
Qed.

(** The last occurrence: after it, no further [c]. *)
Lemma rfind_last (c : ascii) (a b : string) :
  Str.mem c b = false -> Str.rfind c (a ++ String c b) = Str.len a.
Proof.
  intros Hb. induction a as [|x a IH]; simpl.
  - rewrite (rfind_absent _ _ Hb). simpl. by rewrite Ascii.eqb_refl.
  - rewrite IH, len_String.
    destruct (Z.leb_spec 0 (Str.len a)); [done|].
    pose proof (len_nonneg a). lia.
Qed.

Lemma rfind_spec (c : ascii) (s : string) :
  (Str.mem c s = false /\ Str.rfind c s = -1) \/
  (exists a b, s = a ++ String c b /\ Str.mem c b = false /\
               Str.rfind c s = Str.len a).
Proof.
  induction s as [|x s IH]; simpl; [by left|].
  destruct IH as [[Hm Hr]|(a & b & -> & Hb & Hr)].
  - rewrite Hr, Hm. simpl. rewrite orb_false_r, (Ascii.eqb_sym c x).
    destruct (Ascii.eqb_spec x c) as [->|]; [|by left].
    right. exists "", s. by rewrite Hm.
  - right. exists (String x a), b. split; [done|]. split; [done|].
    rewrite Hr, len_String.
    destruct (Z.leb_spec 0 (Str.len a)); [done|].
    pose proof (len_nonneg a). lia.
Qed.

Lemma drop_app (a b : string) :
  Str.drop (String.length a) (a ++ b) = b.
Proof. induction a as [|c a IH]; simpl; [by destruct b|done]. Qed.

Lemma slice_from_app (a b : string) : Str.slice_from (Str.len a) (a ++ b) = b.
Proof.
  unfold Str.slice_from.
  destruct (Z.ltb_spec (Str.len a) 0); [pose proof (len_nonneg a); lia|].
  unfold Str.len. rewrite Nat2Z.id. apply drop_app.
Qed.

Lemma lstrip_absent (c : ascii) (s : string) :
  Str.mem c s = false -> Str.lstrip (String c "") s = s.
Proof.
  destruct s as [|x s]; simpl; [done|].
  intros [Hcx _]%orb_false_elim.
  by rewrite orb_false_r, Ascii.eqb_sym, Hcx.
Qed.

Lemma lstrip_starts (c : ascii) (s : string) :
  Str.starts_with c (Str.lstrip (String c "") s) = false.
Proof.
  induction s as [|x s IH]; simpl; [done|].
  rewrite orb_false_r. destruct (Ascii.eqb x c) eqn:E; [done|]. simpl. done.
Qed.

End StrFacts.

(** ** Paths and buckets *)

Section PathFacts.

Lemma mem_app (c : ascii) (a b : string) :
  Str.mem c (a +:+ b) = Str.mem c a || Str.mem c b.
Proof. induction a as [|x a IH]; simpl; [done|]. by rewrite IH, orb_assoc. Qed.

Lemma split_absent (c : ascii) (s : string) :
  Str.mem c s = false -> Str.split c s = [s].
Proof.
  induction s as [|x s IH]; simpl; [done|].
  intros [Hcx Hs]%orb_false_elim.
  by rewrite Ascii.eqb_sym, Hcx, (IH Hs).
Qed.

Lemma starts_with_absent (c : ascii) (s : string) :
  Str.mem c s = false -> Str.starts_with c s = false.
Proof.
  destruct s as [|x s]; simpl; [done|].
  intros [Hcx _]%orb_false_elim. by rewrite Ascii.eqb_sym.
Qed.

Lemma component_inv (s : string) :
  PurePath.component s = true ->
  s <> "" /\ s <> "." /\ Str.mem "/" s = false.
Proof.
  unfold PurePath.component, PurePath.kept.
  intros [[H1 H2]%andb_prop H3]%andb_prop.
  apply negb_true_iff in H1, H2, H3.
  apply String.eqb_neq in H1, H2. done.
Qed.

Lemma truediv_component (p : AsyncPath) (s : string) :
  PurePath.component s = true -> p /: s = p ++ [s].
Proof.
  intros H. pose proof (component_inv _ H) as (_ & _ & Hs).
  apply andb_prop in H as [Hk _].
  unfold PurePath.truediv, PurePath.parse_parts.
  by rewrite (starts_with_absent _ _ Hs), (split_absent _ _ Hs); simpl; rewrite Hk.
Qed.

Lemma name_snoc (p : AsyncPath) (s : string) : PurePath.name (p ++ [s]) = s.
Proof. unfold PurePath.name. apply last_last. Qed.

Lemma parent_snoc (p : AsyncPath) (s : string) : PurePath.parent (p ++ [s]) = p.
Proof. unfold PurePath.parent. apply removelast_last. Qed.

(** [suffix] on a name with a stem and an extension. *)
Lemma suffix_ext (p : AsyncPath) (stem E : string) :
  PurePath.name p = stem +:+ String "." E ->
  stem <> "" -> E <> "" -> Str.mem "." E = false ->
  PurePath.suffix p = String "." E.
Proof.
  intros Hn Hstem HE Hdot. unfold PurePath.suffix. rewrite Hn.
  rewrite (rfind_last _ _ _ Hdot), len_app, len_String, slice_from_app.
  pose proof (len_pos _ Hstem). pose proof (len_pos _ HE).
  destruct (Z.ltb_spec 0 (Str.len stem)); [|lia].
  destruct (Z.ltb_spec (Str.len stem) (Str.len stem + (Str.len E + 1) - 1)); [done|lia].
Qed.

(** [suffix] is empty, or a dot followed by a non-empty dot-free tail of
    the name, with something before the dot. *)
Lemma suffix_cases (p : AsyncPath) :
  PurePath.suffix p = "" \/
  exists stem E,
    PurePath.name p = stem +:+ String "." E /\ stem <> "" /\ E <> "" /\
    Str.mem "." E = false /\ PurePath.suffix p = String "." E.
Proof.
  unfold PurePath.suffix.
  destruct (rfind_spec "." (PurePath.name p)) as [[_ ->]|(a & b & Hn & Hb & Hr)];
    [by left|].
  rewrite Hr, Hn, len_app, len_String, slice_from_app.
  destruct (Z.ltb_spec 0 (Str.len a)); [|by left].
  destruct (Z.ltb_spec (Str.len a) (Str.len a + (Str.len b + 1) - 1)); [|by left].
  right. exists a, b. repeat split; try done.
  - intros ->. by vm_compute in H.
  - intros ->. change (Str.len "") with 0 in H0. lia.
Qed.

Lemma suffix_empty (p : AsyncPath) :
  Str.rfind "." (PurePath.name p) <= 0 \/
  Str.rfind "." (PurePath.name p) = Str.len (PurePath.name p) - 1 ->
  PurePath.suffix p = "".
Proof.
  intros H. unfold PurePath.suffix.
  destruct (Z.ltb_spec 0 (Str.rfind "." (PurePath.name p))); [|done].
  destruct (Z.ltb_spec (Str.rfind "." (PurePath.name p))
              (Str.len (PurePath.name p) - 1)); [lia|done].
Qed.

Lemma bucket_ext (p : AsyncPath) (E : string) :
  PurePath.suffix p = String "." E -> Str.mem "." E = false ->
  bucket_of p = Str.lower E.
Proof.
  intros Hs Hdot. unfold bucket_of, extension_of. rewrite Hs. simpl.
  apply lstrip_absent. by rewrite (mem_lower "." E).
Qed.

Lemma bucket_no_ext (p : AsyncPath) :
  PurePath.suffix p = "" -> bucket_of p = "no_extension".
Proof. intros Hs. unfold bucket_of, extension_of. by rewrite Hs. Qed.

(** The bucket of a path is "no_extension" or the lower-cased tail. *)
Lemma bucket_cases (p : AsyncPath) :
  bucket_of p = "no_extension" \/
  exists stem E,
    PurePath.name p = stem +:+ String "." E /\ E <> "" /\
    Str.mem "." E = false /\ bucket_of p = Str.lower E.
Proof.
  destruct (suffix_cases p) as [H|(stem & E & Hn & _ & HE & Hdot & Hs)].
  - left. by apply bucket_no_ext.
  - right. exists stem, E. eauto using bucket_ext.
Qed.

Lemma dot_free_not_dot (s : string) : Str.mem "." s = false -> s <> ".".
Proof. by intros H ->. Qed.

(** The bucket is always one directory name. *)
Lemma bucket_component (p : AsyncPath) :
  Str.mem "/" (PurePath.name p) = false ->
  PurePath.component (bucket_of p) = true.
Proof.
  intros Hslash.
  destruct (bucket_cases p) as [->|(stem & E & Hn & HE & Hdot & ->)]; [done|].
  rewrite Hn, mem_app in Hslash. apply orb_false_elim in Hslash as [_ Hslash].
  simpl in Hslash.
  unfold PurePath.component, PurePath.kept.
  rewrite (mem_lower "/" E) by done. rewrite Hslash.
  assert (Str.lower E <> "") as ->%String.eqb_neq by by apply lower_nonempty.
  assert (Str.lower E <> ".") as ->%String.eqb_neq; [|done].
  apply dot_free_not_dot. by rewrite (mem_lower "." E).
Qed.

Lemma target_folder_snoc (p out : AsyncPath) :
  Str.mem "/" (PurePath.name p) = false ->
  target_folder_of p out = out ++ [bucket_of p].
Proof.
  intros H. unfold target_folder_of.
  by rewrite truediv_component by by apply bucket_component.
Qed.

Lemma target_path_snoc (p out : AsyncPath) :
  PurePath.component (PurePath.name p) = true ->
  target_path_of p out = out ++ [bucket_of p; PurePath.name p].
Proof.
  intros H. pose proof (component_inv _ H) as (_ & _ & Hs).
  unfold target_path_of.
  rewrite truediv_component, target_folder_snoc by done.
  by rewrite <- app_assoc.
Qed.

End PathFacts.

(** ** The file system *)


Section FsFacts.

Implicit Types (fs : gmap AsyncPath node) (p q : AsyncPath) (n : node).

Lemma same_kind_refl n : same_kind n n.
Proof. by destruct n. Qed.

Lemma same_kind_trans n1 n2 n3 :
  same_kind n1 n2 -> same_kind n2 n3 -> same_kind n1 n3.
Proof. by destruct n1, n2, n3. Qed.

Lemma same_kind_dir n : same_kind Dir n -> n = Dir.
Proof. by destruct n. Qed.

Lemma resolve_nil fs : Fs.resolve fs [] = inr Dir.
Proof. done. Qed.

Lemma resolve_snoc fs p (c : string) :
  Fs.resolve fs (p ++ [c]) =
  match Fs.resolve fs p with
  | inl e => inl e
  | inr (File _) => inl NotADirectoryError
  | inr Dir =>
      match fs !! (p ++ [c]) with
      | Some n => inr n
      | None => inl FileNotFoundError
      end
  end.
Proof.
  unfold Fs.resolve. rewrite rev_unit. simpl.
  by rewrite rev_involutive.
Qed.

Lemma path_snoc p : p <> [] -> p = PurePath.parent p ++ [PurePath.name p].
Proof. intros H. by apply app_removelast_last. Qed.

Lemma resolve_parent fs p :
  p <> [] ->
  Fs.resolve fs p =
  match Fs.resolve fs (PurePath.parent p) with
  | inl e => inl e
  | inr (File _) => inl NotADirectoryError
  | inr Dir =>
      match fs !! p with
      | Some n => inr n
      | None => inl FileNotFoundError
      end
  end.
Proof.
  intros H. pose proof (resolve_snoc fs (PurePath.parent p) (PurePath.name p)) as R.
  by rewrite <- (path_snoc p H) in R.
Qed.

(** Only two errors come out of path resolution. *)
Lemma resolve_error fs p (e : oserror) :
  Fs.resolve fs p = inl e -> e = FileNotFoundError \/ e = NotADirectoryError.
Proof.
  revert e. induction p as [|c p IH] using rev_ind; intros e; [done|].
  rewrite resolve_snoc.
  destruct (Fs.resolve fs p) as [e'|[|d]]; [by intros [= <-]; eauto| |naive_solver].
  destruct (fs !! (p ++ [c])); naive_solver.
Qed.

(** Below a node that exists, every prefix is a directory. *)
Lemma resolve_prefix fs p q n :
  Fs.resolve fs (p ++ q) = inr n -> q <> [] -> Fs.resolve fs p = inr Dir.
Proof.
  revert n. induction q as [|c q IH] using rev_ind; intros n; [done|].
  rewrite app_assoc, resolve_snoc. intros H _.
  destruct (Fs.resolve fs (p ++ q)) as [|[|]] eqn:E; try done.
  destruct q as [|c' q]; [by rewrite app_nil_r in E|].
  by eapply IH.
Qed.

(** [NotADirectoryError] means that a regular file sits on the way. *)
Lemma resolve_notdir fs p :
  Fs.resolve fs p = inl NotADirectoryError ->
  exists q d, q `prefix_of` p /\ q <> p /\ Fs.resolve fs q = inr (File d).
Proof.
  induction p as [|c p IH] using rev_ind; [done|].
  rewrite resolve_snoc.
  destruct (Fs.resolve fs p) as [e|[|d]] eqn:E.
  - intros [= ->]. destruct (IH eq_refl) as (q & d & Hq & Hne & Hr).
    exists q, d. split; [by apply prefix_app_r|]. split; [|done].
    intros ->. rewrite resolve_snoc, E in Hr. done.
  - by destruct (fs !! (p ++ [c])).
  - intros _. exists p, d. split; [by apply prefix_app_r|]. split; [|done].
    intros H. apply (f_equal length) in H. rewrite length_app in H. simpl in H. lia.
Qed.

(** A regular file on the way to [p] keeps [p] from being a directory. *)
Lemma file_prefix_not_dir fs p q (d : string) :
  q `prefix_of` p -> Fs.resolve fs q = inr (File d) ->
  Fs.is_dir fs p = false.
Proof.
  intros [r ->] Hq. unfold Fs.is_dir.
  destruct (Fs.resolve fs (q ++ r)) as [|[|]] eqn:E; try done.
  destruct r as [|c r]; [rewrite app_nil_r in E; congruence|].
  apply resolve_prefix in E; [congruence|done].
Qed.

(** Writing a node where there is none, or one of the same kind, leaves
    every other reachable node as it is. *)
Lemma resolve_insert fs p n q n0 :
  (forall m, Fs.resolve fs p = inr m -> same_kind m n) ->
  Fs.resolve fs q = inr n0 ->
  Fs.resolve (<[p := n]> fs) q = inr (if decide (q = p) then n else n0).
Proof.
  intros Hp. revert n0. induction q as [|c q IH] using rev_ind; intros n0.
  - rewrite !resolve_nil. intros [= <-]. case_decide as E; [|done].
    subst p. by rewrite (same_kind_dir n (Hp _ (resolve_nil fs))).
  - rewrite !resolve_snoc.
    destruct (Fs.resolve fs q) as [|[|]] eqn:E; try done.
    rewrite (IH _ eq_refl).
    assert ((if decide (q = p) then n else Dir) = Dir) as ->.
    { case_decide as E'; [|done]. subst q. by rewrite (same_kind_dir n (Hp _ E)). }
    rewrite lookup_insert.
    destruct (fs !! (q ++ [c])) eqn:L; repeat case_decide; naive_solver.
Qed.

End FsFacts.

Section FsOps.

Implicit Types (fs : gmap AsyncPath node) (p q : AsyncPath) (n : node).

Lemma fs_grows_refl fs : fs_grows fs fs.
Proof. intros p n H. eauto using same_kind_refl. Qed.

Lemma fs_grows_trans fs1 fs2 fs3 :
  fs_grows fs1 fs2 -> fs_grows fs2 fs3 -> fs_grows fs1 fs3.
Proof.
  intros H12 H23 p n H.
  destruct (H12 _ _ H) as (n2 & H2 & K2).
  destruct (H23 _ _ H2) as (n3 & H3 & K3).
  eauto using same_kind_trans.
Qed.

Lemma fs_grows_insert fs p n :
  (forall m, Fs.resolve fs p = inr m -> same_kind m n) ->
  fs_grows fs (<[p := n]> fs).
Proof.
  intros Hp q n0 Hq. rewrite (resolve_insert fs p n q n0 Hp Hq).
  eexists. split; [done|]. case_decide; subst; eauto using same_kind_refl.
Qed.

Lemma fs_grows_dir fs fs' p :
  fs_grows fs fs' -> Fs.resolve fs p = inr Dir -> Fs.resolve fs' p = inr Dir.
Proof.
  intros H Hp. destruct (H _ _ Hp) as (n & -> & ->%same_kind_dir). done.
Qed.

Lemma fs_grows_file fs fs' p (d : string) :
  fs_grows fs fs' -> Fs.resolve fs p = inr (File d) ->
  exists d', Fs.resolve fs' p = inr (File d').
Proof.
  intros H Hp. destruct (H _ _ Hp) as ([|d'] & -> & K); [done|eauto].
Qed.

Lemma resolve_insert_self fs p n :
  p <> [] -> Fs.resolve fs (PurePath.parent p) = inr Dir ->
  (forall m, Fs.resolve fs p = inr m -> same_kind m n) ->
  Fs.resolve (<[p := n]> fs) p = inr n.
Proof.
  intros Hne Hpar Hp. rewrite (resolve_parent _ p Hne).
  rewrite (fs_grows_dir _ _ _ (fs_grows_insert fs p n Hp) Hpar).
  by rewrite lookup_insert_eq.
Qed.

(** The four ways [os.mkdir] ends. *)
Lemma os_mkdir_cases p fs :
  (Fs.os_mkdir p fs = (None, <[p := Dir]> fs) /\ p <> [] /\
   Fs.resolve fs (PurePath.parent p) = inr Dir /\
   Fs.resolve fs p = inl FileNotFoundError) \/
  (Fs.os_mkdir p fs = (Some FileExistsError, fs) /\
   exists n, Fs.resolve fs p = inr n) \/
  (Fs.os_mkdir p fs = (Some NotADirectoryError, fs) /\
   Fs.resolve fs p = inl NotADirectoryError) \/
  (Fs.os_mkdir p fs = (Some FileNotFoundError, fs) /\ p <> [] /\
   Fs.resolve fs p = inl FileNotFoundError /\
   Fs.resolve fs (PurePath.parent p) <> inr Dir).
Proof.
  unfold Fs.os_mkdir.
  destruct (Fs.resolve fs p) as [e|n] eqn:E; [|right; left; eauto].
  assert (p <> []) by (intros ->; by rewrite resolve_nil in E).
  destruct (resolve_error _ _ _ E) as [-> | ->]; [|by right; right; left].
  destruct (Fs.resolve fs (PurePath.parent p)) as [e'|[|d]] eqn:E';
    [right; right; right|left|right; right; right]; done.
Qed.

Lemma os_mkdir_grows p fs : fs_grows fs (Fs.os_mkdir p fs).2.
Proof.
  destruct (os_mkdir_cases p fs) as [(-> & _ & _ & E)|[[-> _]|[[-> _]|[-> _]]]];
    simpl; try apply fs_grows_refl.
  apply fs_grows_insert. intros m. by rewrite E.
Qed.

Lemma os_mkdir_made p fs fs' :
  Fs.os_mkdir p fs = (None, fs') -> Fs.resolve fs' p = inr Dir.
Proof.
  destruct (os_mkdir_cases p fs) as [(-> & Hne & Hpar & E)|[[-> _]|[[-> _]|[-> _]]]];
    try done.
  intros [= <-]. apply resolve_insert_self; try done. intros m. by rewrite E.
Qed.

(** [open(dst, 'wb')] writes, or fails and changes nothing. *)
Lemma write_cases dst (data : string) fs :
  (Fs.write dst data fs = (None, <[dst := File data]> fs) /\ dst <> [] /\
   Fs.resolve fs (PurePath.parent dst) = inr Dir /\
   forall m, Fs.resolve fs dst = inr m -> same_kind m (File data)) \/
  (exists e, Fs.write dst data fs = (Some e, fs)).
Proof.
  unfold Fs.write.
  destruct (Fs.resolve fs dst) as [e|[|d]] eqn:E; [|right; eauto|].
  - assert (dst <> []) by (intros ->; by rewrite resolve_nil in E).
    destruct (resolve_error _ _ _ E) as [-> | ->]; [|right; eauto].
    destruct (Fs.resolve fs (PurePath.parent dst)) as [e'|[|d]] eqn:E';
      [right; eauto|left|right; eauto].
    done.
  - assert (dst <> []) by (intros ->; by rewrite resolve_nil in E).
    left. repeat split; try done.
    + rewrite (resolve_parent _ dst H) in E.
      by destruct (Fs.resolve fs (PurePath.parent dst)) as [|[|]].
    + by intros m [= <-].
Qed.

Lemma write_grows dst (data : string) fs : fs_grows fs (Fs.write dst data fs).2.
Proof.
  destruct (write_cases dst data fs) as [(-> & _ & _ & H)|[e ->]]; simpl;
    [by apply fs_grows_insert|apply fs_grows_refl].
Qed.

Lemma write_done dst (data : string) fs fs' :
  Fs.write dst data fs = (None, fs') -> Fs.resolve fs' dst = inr (File data).
Proof.
  destruct (write_cases dst data fs) as [(-> & Hne & Hpar & H)|[e ->]]; [|done].
  intros [= <-]. by apply resolve_insert_self.
Qed.

Lemma copyfile_grows src dst fs : fs_grows fs (Fs.copyfile src dst fs).2.
Proof.
  unfold Fs.copyfile.
  destruct (bool_decide (src = dst) && Fs.exists_ fs src); [apply fs_grows_refl|].
  destruct (Fs.resolve fs src) as [|[|]]; try apply fs_grows_refl.
  apply write_grows.
Qed.

Lemma copy_grows src dst fs : fs_grows fs (Fs.copy src dst fs).2.
Proof. apply copyfile_grows. Qed.

(** A copy onto something that is not a directory lands there. *)
Lemma copy_done src dst fs fs' :
  Fs.is_dir fs dst = false -> Fs.copy src dst fs = (None, fs') ->
  exists data, Fs.resolve fs src = inr (File data) /\
               Fs.resolve fs' dst = inr (File data).
Proof.
  unfold Fs.copy, Fs.copyfile. intros ->.
  destruct (bool_decide (src = dst) && Fs.exists_ fs src) eqn:S; [done|].
  destruct (Fs.resolve fs src) as [|[|data]] eqn:E; try done.
  intros H. exists data. split; [done|]. by eapply write_done.
Qed.

End FsOps.


Lemma grows_refl (w : world) : grows w w.
Proof. split; [apply fs_grows_refl|done]. Qed.

Lemma grows_trans (w1 w2 w3 : world) : grows w1 w2 -> grows w2 w3 -> grows w1 w3.
Proof.
  intros [F12 L12] [F23 L23]. split; [by eapply fs_grows_trans|].
  by etrans.
Qed.

Lemma exec_grows (o : op) (w : world) : grows w (exec o w).2.
Proof.
  destruct o; simpl; try apply grows_refl.
  - pose proof (os_mkdir_grows p (files w)).
    destruct (Fs.os_mkdir p (files w)). by split.
  - pose proof (copy_grows src dst (files w)).
    destruct (Fs.copy src dst (files w)). by split.
  - split; [apply fs_grows_refl|]. simpl. set_solver.
Qed.


Section Wp.

Context {A : Type}.
Implicit Types (c : coro A) (Q : outcome A -> world -> Prop).

Lemma wp_mono c w Q Q' :
  (forall r w', Q r w' -> Q' r w') -> wp c w Q -> wp c w Q'.
Proof.
  intros HQ. revert w. induction c as [a|x|o k IH]; simpl; intros w; auto.
Qed.

Lemma wp_grows c w w' Q : stable Q -> grows w w' -> wp c w Q -> wp c w' Q.
Proof.
  intros HQ G. destruct c as [a|x|o k]; simpl; [by apply HQ|by apply HQ|].
  intros H w1 G1. apply H. by eapply grows_trans.
Qed.

Lemma wp_bind {B} c (f : A -> coro B) w (Q : outcome B -> world -> Prop) :
  wp c w (fun r w' =>
            match r with
            | Returned a => wp (f a) w' Q
            | Raised x => Q (Raised x) w'
            end) ->
  wp (bind c f) w Q.
Proof.
  revert w. induction c as [a|x|o k IH]; simpl; intros w; auto.
Qed.

Lemma wp_try c (h : exn -> coro A) w Q :
  wp c w (fun r w' =>
            match r with
            | Returned a => Q (Returned a) w'
            | Raised x => if is_Exception x then wp (h x) w' Q
                          else Q (Raised x) w'
            end) ->
  wp (try_except c h) w Q.
Proof.
  revert w. induction c as [a|x|o k IH]; simpl; intros w; auto.
  by destruct (is_Exception x).
Qed.

Lemma ops_all_mono (P P' : op -> Prop) c :
  (forall o, P o -> P' o) -> ops_all P c -> ops_all P' c.
Proof.
  intros HP. induction c as [a|x|o k IH]; simpl; [done|done|].
  intros [Ho Hk]. split; auto.
Qed.

Lemma ops_all_bind {B} (P : op -> Prop) c (f : A -> coro B) :
  ops_all P c -> (forall a, ops_all P (f a)) -> ops_all P (bind c f).
Proof.
  intros Hc Hf. induction c as [a|x|o k IH]; simpl in *; [auto|done|].
  destruct Hc as [Ho Hk]. split; auto.
Qed.

Lemma ops_all_try (P : op -> Prop) c (h : exn -> coro A) :
  ops_all P c -> (forall x, ops_all P (h x)) -> ops_all P (try_except c h).
Proof.
  intros Hc Hh. induction c as [a|x|o k IH]; simpl in *; [done| |].
  - destruct (is_Exception x); [apply Hh|done].
  - destruct Hc as [Ho Hk]. split; auto.
Qed.

(** A coroutine run alone. *)
Lemma run_coro_grows c w : grows w (run_coro c w).1.2.
Proof.
  revert w. induction c as [a|x|o k IH]; simpl; intros w; try apply grows_refl.
  pose proof (exec_grows o w) as G. destruct (exec o w) as [r w1]. simpl in G.
  pose proof (IH r w1) as G'. destruct (run_coro (k r) w1) as [[tr w2] res].
  simpl in *. by eapply grows_trans.
Qed.

Lemma run_coro_wp c w Q : wp c w Q -> Q (run_coro c w).2 (run_coro c w).1.2.
Proof.
  revert w. induction c as [a|x|o k IH]; simpl; intros w; auto.
  intros H. specialize (H w (grows_refl w)).
  destruct (exec o w) as [r w1]. simpl in H. apply IH in H.
  by destruct (run_coro (k r) w1) as [[tr w2] res].
Qed.

Lemma run_coro_ops (P : op -> Prop) c w :
  ops_all P c -> Forall P (run_coro c w).1.1.
Proof.
  revert w. induction c as [a|x|o k IH]; simpl; intros w; auto.
  intros [Ho Hk]. destruct (exec o w) as [r w1].
  specialize (IH r w1 (Hk r)).
  destruct (run_coro (k r) w1) as [[tr w2] res]. simpl in *. by constructor.
Qed.

Lemma run_coro_no_raise c w :
  no_raise c -> exists a, (run_coro c w).2 = Returned a.
Proof.
  revert w. induction c as [a|x|o k IH]; simpl; intros w; [eauto|done|].
  intros H. destruct (exec o w) as [r w1].
  destruct (IH r w1 (H r)) as [a Ha].
  destruct (run_coro (k r) w1) as [[tr w2] res]. simpl in *. eauto.
Qed.

End Wp.

(** ** Coroutines under [gather] *)

Section Pool.

Implicit Types (pool todo : list (coro unit)) (tr : list event).
Implicit Types (Q : outcome unit -> world -> Prop) (P : op -> Prop).


Lemma tag_task P (i : nat) (ops : list op) :
  Forall P ops -> Forall (task_event P) (tag (Some i) ops).
Proof.
  unfold tag. rewrite Forall_fmap. intros H. eapply Forall_impl; [exact H|].
  intros o Ho. split; [by eexists|done].
Qed.

Lemma drain_spec i todo w tr w' pool' st :
  drain i todo w = (tr, w', pool', st) ->
  grows w w' /\ length pool' = length todo /\
  (st = None -> Forall is_ret pool') /\
  (forall x, st = Some x -> Raise x ∈ pool').
Proof.
  revert i w tr w' pool' st.
  induction todo as [|c todo IH]; simpl; intros i w tr w' pool' st.
  - intros [= <- <- <- <-]. split; [apply grows_refl|]. by repeat split.
  - pose proof (run_coro_grows c w) as G.
    destruct (run_coro c w) as [[tr1 w1] [a|x]]; simpl in G.
    + destruct (drain (S i) todo w1) as [[[tr2 w2] done] st2] eqn:E.
      intros [= <- <- <- <-].
      destruct (IH _ _ _ _ _ _ E) as (G2 & L & R & X).
      split; [by eapply grows_trans|]. split; [by simpl; rewrite L|].
      split; [intros H; constructor; [done|auto]|].
      intros x Hx. apply list_elem_of_further. auto.
    + intros [= <- <- <- <-]. split; [done|]. split; [done|]. split; [done|].
      intros y [= <-]. apply list_elem_of_here.
Qed.

Lemma drain_wp Q i todo w tr w' pool' st j c :
  stable Q -> drain i todo w = (tr, w', pool', st) ->
  todo !! j = Some c -> wp c w Q ->
  exists c', pool' !! j = Some c' /\ wp c' w' Q.
Proof.
  intros HQ. revert i w tr w' pool' st j.
  induction todo as [|c0 todo IH]; simpl; intros i w tr w' pool' st j; [done|].
  pose proof (run_coro_grows c0 w) as G.
  pose proof (run_coro_wp c0 w Q) as W.
  destruct (run_coro c0 w) as [[tr1 w1] [a|x]]; simpl in G, W.
  - destruct (drain (S i) todo w1) as [[[tr2 w2] done] st2] eqn:E.
    intros [= <- <- <- <-] Hj Hc.
    destruct (drain_spec _ _ _ _ _ _ _ E) as (G2 & _).
    destruct j as [|j]; simpl in *.
    + injection Hj as <-. exists (Ret a). split; [done|].
      simpl. eapply HQ; [exact G2|auto].
    + eapply IH; [exact E|exact Hj|]. by eapply wp_grows.
  - intros [= <- <- <- <-] Hj Hc.
    destruct j as [|j]; simpl in *.
    + injection Hj as <-. exists (Raise x). split; [done|]. simpl. auto.
    + exists c. split; [done|]. by eapply wp_grows.
Qed.

Lemma drain_ops P i todo w :
  Forall (ops_all P) todo -> Forall (task_event P) (drain i todo w).1.1.1.
Proof.
  revert i w. induction todo as [|c todo IH]; simpl; intros i w H; [done|].
  apply Forall_cons in H as [Hc H].
  pose proof (run_coro_ops P c w Hc) as T.
  destruct (run_coro c w) as [[tr1 w1] [a|x]]; simpl in T.
  - specialize (IH (S i) w1 H).
    destruct (drain (S i) todo w1) as [[[tr2 w2] done] st2]; simpl in *.
    apply Forall_app. split; [by apply tag_task|done].
  - simpl. by apply tag_task.
Qed.

Lemma drain_no_raise i todo w :
  Forall no_raise todo -> (drain i todo w).2 = None.
Proof.
  revert i w. induction todo as [|c todo IH]; simpl; intros i w H; [done|].
  apply Forall_cons in H as [Hc H].
  destruct (run_coro_no_raise c w Hc) as [a Ha].
  destruct (run_coro c w) as [[tr1 w1] res]; simpl in Ha. subst res.
  specialize (IH (S i) w1 H).
  by destruct (drain (S i) todo w1) as [[[tr2 w2] done] st2].
Qed.

Lemma run_pool_spec sched w pool tr w' pool' st :
  run_pool sched w pool = (tr, w', pool', st) ->
  grows w w' /\ length pool' = length pool /\
  (st = None -> Forall is_ret pool') /\
  (forall x, st = Some x -> Raise x ∈ pool').
Proof.
  revert w pool tr w' pool' st.
  induction sched as [|i sched IH]; simpl; intros w pool tr w' pool' st.
  { apply drain_spec. }
  destruct (pool !! i) as [[a|x|o k]|] eqn:L; try apply IH.
  - intros [= <- <- <- <-]. split; [apply grows_refl|].
    split; [done|]. split; [done|].
    intros y [= <-]. by eapply list_elem_of_lookup_2.
  - pose proof (exec_grows o w) as G. destruct (exec o w) as [r w1]. simpl in G.
    destruct (run_pool sched w1 (<[i:=k r]> pool)) as [[[tr2 w2] p2] st2] eqn:E.
    intros [= <- <- <- <-].
    destruct (IH _ _ _ _ _ _ E) as (G2 & Len & R & X).
    rewrite length_insert in Len. split; [by eapply grows_trans|]. done.
Qed.

(** What [wp] promises to one coroutine holds at the end of the
    [gather], whatever the schedule and the other coroutines. *)
Lemma run_pool_wp Q sched w pool tr w' pool' st j c :
  stable Q -> run_pool sched w pool = (tr, w', pool', st) ->
  pool !! j = Some c -> wp c w Q ->
  exists c', pool' !! j = Some c' /\ wp c' w' Q.
Proof.
  intros HQ. revert w pool tr w' pool' st c.
  induction sched as [|i sched IH]; simpl; intros w pool tr w' pool' st c.
  { by apply drain_wp. }
  destruct (pool !! i) as [[a|x|o k]|] eqn:L; try apply IH.
  - intros [= <- <- <- <-]. eauto.
  - pose proof (exec_grows o w) as G.
    intros E Hj Hc. destruct (decide (j = i)) as [->|Hne].
    + rewrite L in Hj. injection Hj as <-. simpl in Hc.
      specialize (Hc w (grows_refl w)).
      destruct (exec o w) as [r w1]. simpl in Hc.
      destruct (run_pool sched w1 (<[i:=k r]> pool)) as [[[tr2 w2] p2] st2] eqn:E2.
      injection E as <- <- <- <-.
      eapply IH; [exact E2| |exact Hc].
      apply list_lookup_insert_eq. by eapply lookup_lt_Some.
    + destruct (exec o w) as [r w1]. simpl in G.
      destruct (run_pool sched w1 (<[i:=k r]> pool)) as [[[tr2 w2] p2] st2] eqn:E2.
      injection E as <- <- <- <-.
      eapply IH; [exact E2| |by eapply wp_grows].
      by rewrite list_lookup_insert_ne.
Qed.

Lemma run_pool_ops P sched w pool :
  Forall (ops_all P) pool ->
  Forall (task_event P) (run_pool sched w pool).1.1.1.
Proof.
  revert w pool. induction sched as [|i sched IH]; simpl; intros w pool H.
  { by apply drain_ops. }
  destruct (pool !! i) as [[a|x|o k]|] eqn:L; try by apply IH.
  - done.
  - pose proof (Forall_lookup_1 _ _ _ _ H L) as [Ho Hk].
    destruct (exec o w) as [r w1].
    specialize (IH w1 (<[i:=k r]> pool) (Forall_insert _ _ _ _ H (Hk r))).
    destruct (run_pool sched w1 (<[i:=k r]> pool)) as [[[tr2 w2] p2] st2].
    simpl in *. constructor; [|done]. split; [by eexists|done].
Qed.

Lemma run_pool_no_raise sched w pool :
  Forall no_raise pool -> (run_pool sched w pool).2 = None.
Proof.
  revert w pool. induction sched as [|i sched IH]; simpl; intros w pool H.
  { by apply drain_no_raise. }
  destruct (pool !! i) as [[a|x|o k]|] eqn:L; try by apply IH.
  - by pose proof (Forall_lookup_1 _ _ _ _ H L).
  - pose proof (Forall_lookup_1 _ _ _ _ H L) as Hk. simpl in Hk.
    destruct (exec o w) as [r w1].
    specialize (IH w1 (<[i:=k r]> pool) (Forall_insert _ _ _ _ H (Hk r))).
    by destruct (run_pool sched w1 (<[i:=k r]> pool)) as [[[tr2 w2] p2] st2].
Qed.

End Pool.

(** ** [mkdir(parents=True, exist_ok=True)] among other coroutines *)


Section Mkdir.

Implicit Types (p q : AsyncPath) (w : world).

Lemma is_dir_true (fs : gmap AsyncPath node) p :
  Fs.is_dir fs p = true <-> Fs.resolve fs p = inr Dir.
Proof.
  unfold Fs.is_dir. destruct (Fs.resolve fs p) as [|[|]]; naive_solver.
Qed.

Lemma mkdir_post_stable p : stable (mkdir_post p).
Proof.
  intros [[]|x] w w' [G _]; simpl.
  - by apply fs_grows_dir.
  - intros (Hx & q & d & Hq & Hr).
    destruct (fs_grows_file _ _ _ _ G Hr) as [d' Hd']. eauto 6.
Qed.

(** The [except OSError] branch: something already sits at [p], or a
    regular file is on the way. *)
Lemma mkdir_handler_wp p (e : oserror) w :
  (exists n, Fs.resolve (files w) p = inr n) \/
  (exists q d, q `prefix_of` p /\ Fs.resolve (files w) q = inr (File d)) ->
  wp (d <- await (IsDir p) ;; if negb d then Raise (OSError e) else Ret tt)
     w (mkdir_post p).
Proof.
  intros H w1 [G _]. simpl.
  destruct (Fs.is_dir (files w1) p) eqn:D; simpl.
  { by apply is_dir_true. }
  split; [done|].
  destruct H as [[[|d] Hn]|(q & d & Hq & Hr)].
  - apply (fs_grows_dir _ _ _ G), is_dir_true in Hn. congruence.
  - destruct (fs_grows_file _ _ _ _ G Hn) as [d' Hd']. by exists p, d'.
  - destruct (fs_grows_file _ _ _ _ G Hr) as [d' Hd']. by exists q, d'.
Qed.

Lemma notdir_file_prefix (fs : gmap AsyncPath node) p :
  Fs.resolve fs p = inl NotADirectoryError ->
  exists q d, q `prefix_of` p /\ Fs.resolve fs q = inr (File d).
Proof. intros (q & d & Hq & _ & Hr)%resolve_notdir. eauto. Qed.

Lemma mkdir_once_wp p w :
  Fs.resolve (files w) (PurePath.parent p) = inr Dir ->
  wp (mkdir_once p true) w (mkdir_post p).
Proof.
  intros Hpar w1 G. simpl.
  destruct (os_mkdir_cases p (files w1))
    as [(E & _ & _ & _)|[[E Hn]|[[E Hn]|(E & _ & _ & Hn)]]]; rewrite E; simpl.
  - eapply os_mkdir_made, E.
  - apply mkdir_handler_wp. by left.
  - apply mkdir_handler_wp. right. by apply notdir_file_prefix.
  - destruct G as [G _]. by apply (fs_grows_dir _ _ _ G) in Hpar.
Qed.

Lemma mkdir_parents_wp (rp : list string) w :
  wp (mkdir_parents rp true) w (mkdir_post (rev rp)).
Proof.
  revert w. induction rp as [|c rp IH]; intros w w1 G.
  - by simpl.
  - change (mkdir_parents (c :: rp) true) with
      (r <- await (OsMkdir (rev (c :: rp))) ;;
       match r with
       | None => Ret tt
       | Some FileNotFoundError =>
           mkdir_parents rp true ;; mkdir_once (rev (c :: rp)) true
       | Some e =>
           d <- await (IsDir (rev (c :: rp))) ;;
           if negb d then Raise (OSError e) else Ret tt
       end) in *.
    set (p := rev (c :: rp)). simpl.
    destruct (os_mkdir_cases p (files w1))
      as [(E & _ & _ & _)|[[E Hn]|[[E Hn]|(E & _ & _ & Hn)]]]; rewrite E; simpl.
    + eapply os_mkdir_made, E.
    + apply (mkdir_handler_wp p). by left.
    + apply (mkdir_handler_wp p). right. by apply notdir_file_prefix.
    + apply wp_bind. eapply wp_mono; [|apply IH].
      intros [[]|x] w2; simpl.
      * intros Hpar. apply mkdir_once_wp.
        subst p. simpl. by rewrite parent_snoc.
      * intros (Hx & q & d & Hq & Hr). split; [done|].
        exists q, d. split; [|done]. subst p. simpl. by apply prefix_app_r.
Qed.

Lemma mkdir_wp p w : wp (mkdir p true true) w (mkdir_post p).
Proof.
  unfold mkdir. rewrite <- (rev_involutive p) at 2. apply mkdir_parents_wp.
Qed.

End Mkdir.

(** ** [copy_file] *)


Section CopyFile.

Implicit Types (path output_folder p : AsyncPath).

Lemma copy_file_unfold path output_folder :
  copy_file path output_folder =
  try_except
    (mkdir (target_folder_of path output_folder) true true ;;
     aioshutil_copy path (target_path_of path output_folder) ;;
     logging INFO (Copied path (target_path_of path output_folder)))
    (fun e => logging ERROR (ErrorCopying path e)).
Proof. done. Qed.

Lemma raises_all_bind {A B} (P : exn -> Prop) (c : coro A) (f : A -> coro B) :
  raises_all P c -> (forall a, raises_all P (f a)) -> raises_all P (bind c f).
Proof. intros Hc Hf. induction c as [a|x|o k IH]; simpl in *; auto. Qed.

Lemma no_raise_try {A} (c : coro A) (h : exn -> coro A) :
  raises_all caught c -> (forall x, no_raise (h x)) -> no_raise (try_except c h).
Proof.
  intros Hc Hh. induction c as [a|x|o k IH]; simpl in *; auto.
  unfold caught in Hc. by rewrite Hc.
Qed.

Lemma mkdir_once_raises p (exist_ok : bool) :
  raises_all caught (mkdir_once p exist_ok).
Proof.
  intros [[]|]; simpl; try done; destruct exist_ok; simpl; try done;
    by intros [].
Qed.

Lemma mkdir_parents_raises (rp : list string) (exist_ok : bool) :
  raises_all caught (mkdir_parents rp exist_ok).
Proof.
  revert exist_ok. induction rp as [|c rp IH]; intros exist_ok.
  - intros [[]|]; simpl; try done; destruct exist_ok; simpl; try done;
      by intros [].
  - intros [[]|]; simpl; try done;
      try (destruct exist_ok; simpl; try done; by intros []).
    apply raises_all_bind; [apply IH|]. intros _. apply mkdir_once_raises.
Qed.

Lemma mkdir_raises p (parents exist_ok : bool) :
  raises_all caught (mkdir p parents exist_ok).
Proof.
  destruct parents; [apply mkdir_parents_raises|apply mkdir_once_raises].
Qed.

(** An exception never leaves [copy_file]. *)
Lemma copy_file_no_raise path output_folder :
  no_raise (copy_file path output_folder).
Proof.
  rewrite copy_file_unfold. apply no_raise_try; [|by intros x []].
  apply raises_all_bind; [apply mkdir_raises|]. intros _.
  apply raises_all_bind; [by intros [e|]|]. by intros _ [].
Qed.

Lemma mkdir_once_ops p (exist_ok : bool) :
  ops_all (mkdir_op p) (mkdir_once p exist_ok).
Proof.
  split; [simpl; reflexivity|].
  intros [[]|]; simpl; try done; destruct exist_ok; simpl; try done;
    (split; [simpl; reflexivity|by intros []]).
Qed.

Lemma mkdir_parents_ops (rp : list string) (exist_ok : bool) :
  ops_all (mkdir_op (rev rp)) (mkdir_parents rp exist_ok).
Proof.
  revert exist_ok. induction rp as [|c rp IH]; intros exist_ok.
  - split; [simpl; reflexivity|].
    intros [[]|]; simpl; try done; destruct exist_ok; simpl; try done;
      (split; [simpl; reflexivity|by intros []]).
  - split; [simpl; reflexivity|].
    intros [[]|]; simpl; try done;
      try (destruct exist_ok; simpl; try done;
           split; [simpl; reflexivity|by intros []]).
    apply ops_all_bind.
    + eapply ops_all_mono; [|apply IH].
      intros [] H; simpl in *; try done; by apply prefix_app_r.
    + intros _. apply (mkdir_once_ops (rev rp ++ [c])).
Qed.

Lemma mkdir_ops p : ops_all (mkdir_op p) (mkdir p true true).
Proof.
  unfold mkdir. rewrite <- (rev_involutive p) at 1. apply mkdir_parents_ops.
Qed.


Lemma copy_file_ops path output_folder :
  ops_all (copy_file_op path output_folder) (copy_file path output_folder).
Proof.
  rewrite copy_file_unfold. apply ops_all_try; [|by intros x; split; [|intros []]].
  apply ops_all_bind.
  { eapply ops_all_mono; [|apply mkdir_ops]. by intros []. }
  intros _. split; [done|]. intros [e|]; simpl; [done|].
  split; [done|]. by intros [].
Qed.


Lemma reported_stable path output_folder : stable (reported path output_folder).
Proof.
  intros r w w' [_ L] [-> H]. split; [done|].
  destruct H as [H|[x H]]; [left|right; exists x]; by apply L.
Qed.

Lemma copy_file_wp path output_folder w :
  wp (copy_file path output_folder) w (reported path output_folder).
Proof.
  rewrite copy_file_unfold. apply wp_try, wp_bind.
  eapply wp_mono; [|apply mkdir_wp]. intros [[]|x] w1; simpl.
  - intros _ w2 _.
    destruct (Fs.copy path (target_path_of path output_folder) (files w2))
      as [[e|] fs]; simpl.
    + intros w3 _. split; [done|]. right. exists (OSError e). simpl. set_solver.
    + intros w3 _. split; [done|]. left. simpl. set_solver.
  - intros [-> _] w2 _. split; [done|]. right. exists x. simpl. set_solver.
Qed.

End CopyFile.

(** ** The main coroutine *)

Section Main.

Implicit Types (source output : AsyncPath) (w : world) (sched : list nat).

Lemma run_main_lift {A B} sched (c : coro A) (f : A -> mprog B) w :
  run_main sched (bind (lift c) f) w =
  let '(tr, w1, res) := run_coro c w in
  match res with
  | Returned a =>
      let '(tr', w2, res') := run_main sched (f a) w1 in
      (tag None tr ++ tr', w2, res')
  | Raised x => (tag None tr, w1, Raised x)
  end.
Proof.
  revert w. induction c as [a|x|o k IH]; simpl; intros w.
  - by destruct (run_main sched (f a) w) as [[tr' w2] res'].
  - done.
  - destruct (exec o w) as [r w1]. rewrite IH.
    destruct (run_coro (k r) w1) as [[tr w2] [a|x]]; [|done].
    by destruct (run_main sched (f a) w2) as [[tr' w3] res'].
Qed.

Lemma run_main_collect {B} sched (items : list AsyncPath) output
    (tasks : list (coro unit)) (f : list (coro unit) -> mprog B) w :
  run_main sched (bind (collect items output tasks) f) w =
  let '(tr, w', res) :=
    run_main sched
      (f (tasks ++ ((fun path => copy_file path output) <$>
                      List.filter (Fs.is_file (files w)) items))) w in
  (tag None (map IsFile items) ++ tr, w', res).
Proof.
  revert tasks. induction items as [|item items IH]; intros tasks.
  - simpl. rewrite app_nil_r.
    by destruct (run_main sched (f tasks) w) as [[tr w'] res].
  - simpl. rewrite IH.
    destruct (Fs.is_file (files w) item); simpl; rewrite <- ?app_assoc; simpl;
      by destruct (run_main sched _ w) as [[tr w'] res].
Qed.

Lemma read_folder_run sched source output w :
  run_main sched (read_folder source output) w =
  if negb (Fs.exists_ (files w) source)
  then ([(None, Exists source); (None, Logging ERROR (SourceMissing source))],
        World (files w) (log w ++ [(ERROR, SourceMissing source)]),
        Returned tt)
  else
    match tasks_of (files w) source output with
    | [] =>
        (tag None (walk_ops (files w) source ++
                   [Logging WARNING (NoFilesFound source)]),
         World (files w) (log w ++ [(WARNING, NoFilesFound source)]),
         Returned tt)
    | (_ :: _) as tasks =>
        let '(tr, w', _, st) := run_pool sched w tasks in
        (tag None (walk_ops (files w) source) ++ tr, w',
         match st with Some x => Raised x | None => Returned tt end)
    end.
Proof.
  unfold read_folder. simpl.
  destruct (Fs.exists_ (files w) source); simpl; [|done].
  rewrite run_main_collect. simpl.
  fold (discovered (files w) source). fold (tasks_of (files w) source output).
  destruct (tasks_of (files w) source output) as [|t ts]; simpl.
  - unfold tag. rewrite List.map_app. reflexivity.
  - destruct (run_pool sched w (t :: ts)) as [[[tr w'] pool'] [x|]];
      simpl; by rewrite app_nil_r.
Qed.

End Main.

(** ** Invariants of the file system *)

Section Invariants.

Implicit Types (fs : gmap AsyncPath node) (p q : AsyncPath) (w : world).

Lemma fs_wf_insert fs p (n : node) :
  fs_wf fs -> p <> [] -> Fs.resolve fs (PurePath.parent p) = inr Dir ->
  (forall m, Fs.resolve fs p = inr m -> same_kind m n) ->
  fs_wf (<[p := n]> fs).
Proof.
  intros Hwf Hne Hpar Hp q n0. rewrite lookup_insert. case_decide as E.
  - intros [= <-]. subst q. by apply resolve_insert_self.
  - intros Hq%Hwf. rewrite (resolve_insert fs p n q n0 Hp Hq).
    by rewrite decide_False by done.
Qed.

(** In a well-formed file system a write at [p] makes nothing else appear. *)
Lemma resolve_insert_inv fs p (n n0 : node) q :
  fs_wf fs -> Fs.resolve (<[p := n]> fs) q = inr n0 -> q <> p ->
  Fs.resolve fs q = inr n0.
Proof.
  intros Hwf Hq Hne. destruct (decide (q = [])) as [->|Hnil]; [done|].
  apply Hwf. rewrite (resolve_parent _ q Hnil) in Hq.
  destruct (Fs.resolve (<[p:=n]> fs) (PurePath.parent q)) as [|[|]]; try done.
  rewrite lookup_insert_ne in Hq by done.
  by destruct (fs !! q) as [m|]; simplify_eq.
Qed.

Lemma os_mkdir_wf p fs : fs_wf fs -> fs_wf (Fs.os_mkdir p fs).2.
Proof.
  intros Hwf.
  destruct (os_mkdir_cases p fs) as [(-> & Hne & Hpar & E)|[[-> _]|[[-> _]|[-> _]]]];
    simpl; try done.
  apply fs_wf_insert; try done. intros m. by rewrite E.
Qed.

Lemma copy_wf src dst fs : fs_wf fs -> fs_wf (Fs.copy src dst fs).2.
Proof.
  intros Hwf. unfold Fs.copy, Fs.copyfile.
  destruct (bool_decide _ && Fs.exists_ fs src); [done|].
  destruct (Fs.resolve fs src) as [|[|data]]; try done.
  match goal with |- context [Fs.write ?d data fs] =>
    destruct (write_cases d data fs) as [(-> & Hne & Hpar & H)|[e ->]] end;
    simpl; [by apply fs_wf_insert|done].
Qed.

Lemma exec_wf (o : op) w : fs_wf (files w) -> fs_wf (files (exec o w).2).
Proof.
  intros Hwf. destruct o; simpl; try done.
  - pose proof (os_mkdir_wf p (files w) Hwf).
    by destruct (Fs.os_mkdir p (files w)).
  - pose proof (copy_wf src dst (files w) Hwf).
    by destruct (Fs.copy src dst (files w)).
Qed.

(** [os.mkdir] on a prefix of [p] leaves the way to [p] clear. *)
Lemma os_mkdir_clear_way p q fs :
  fs_wf fs -> clear_way fs p -> clear_way (Fs.os_mkdir q fs).2 p.
Proof.
  intros Hwf Hc.
  destruct (os_mkdir_cases q fs) as [(E & Hne & Hpar & Hq)|[[-> _]|[[-> _]|[-> _]]]];
    try done.
  rewrite E. simpl. intros q' d Hq' Hr.
  destruct (decide (q' = q)) as [->|Hneq].
  - rewrite (os_mkdir_made _ _ _ E) in Hr. done.
  - by eapply Hc, resolve_insert_inv.
Qed.

(** [os.mkdir] creates nothing but its own argument. *)
Lemma os_mkdir_absent p q fs :
  fs_wf fs -> p <> q -> Fs.exists_ fs p = false ->
  Fs.exists_ (Fs.os_mkdir q fs).2 p = false.
Proof.
  intros Hwf Hne Hp.
  destruct (os_mkdir_cases q fs) as [(E & _)|[[-> _]|[[-> _]|[-> _]]]];
    try done.
  rewrite E. simpl. unfold Fs.exists_ in *.
  destruct (Fs.resolve (<[q:=Dir]> fs) p) as [|n] eqn:R; [done|].
  apply resolve_insert_inv in R; [|done..]. by rewrite R in Hp.
Qed.

(** An invariant that every operation of a coroutine keeps holds at its
    end. *)
Lemma run_coro_invariant {A} (I : world -> Prop) (P : op -> Prop) (c : coro A) w :
  (forall o w0, P o -> I w0 -> I (exec o w0).2) ->
  ops_all P c -> I w -> I (run_coro c w).1.2.
Proof.
  intros HI. revert w. induction c as [a|x|o k IH]; simpl; intros w; auto.
  intros [Ho Hk] Hw. pose proof (HI o w Ho Hw) as Hw1.
  destruct (exec o w) as [r w1]. specialize (IH r w1 (Hk r) Hw1).
  by destruct (run_coro (k r) w1) as [[tr w2] res].
Qed.

Lemma drain_invariant (I : world -> Prop) (P : op -> Prop) i
    (todo : list (coro unit)) w :
  (forall o w0, P o -> I w0 -> I (exec o w0).2) ->
  Forall (ops_all P) todo -> I w -> I (drain i todo w).1.1.2.
Proof.
  intros HI. revert i w. induction todo as [|c todo IH]; simpl; intros i w H Hw;
    [done|].
  apply Forall_cons in H as [Hc H].
  pose proof (run_coro_invariant I P c w HI Hc Hw) as Hw1.
  destruct (run_coro c w) as [[tr1 w1] [a|x]]; simpl in Hw1; [|done].
  specialize (IH (S i) w1 H Hw1).
  by destruct (drain (S i) todo w1) as [[[tr2 w2] done] st2].
Qed.

Lemma run_pool_invariant (I : world -> Prop) (P : op -> Prop)
    (sched : list nat) (pool : list (coro unit)) w :
  (forall o w0, P o -> I w0 -> I (exec o w0).2) ->
  Forall (ops_all P) pool -> I w -> I (run_pool sched w pool).1.1.2.
Proof.
  intros HI. revert w pool.
  induction sched as [|i sched IH]; simpl; intros w pool H Hw.
  { by apply drain_invariant with P. }
  destruct (pool !! i) as [[a|x|o k]|] eqn:L; try by apply IH.
  - done.
  - pose proof (Forall_lookup_1 _ _ _ _ H L) as [Ho Hk].
    pose proof (HI o w Ho Hw) as Hw1.
    destruct (exec o w) as [r w1].
    specialize (IH w1 (<[i:=k r]> pool) (Forall_insert _ _ _ _ H (Hk r)) Hw1).
    by destruct (run_pool sched w1 (<[i:=k r]> pool)) as [[[tr2 w2] p2] st2].
Qed.

Lemma run_coro_bind {A B} (c : coro A) (f : A -> coro B) w :
  run_coro (bind c f) w =
  let '(tr, w1, res) := run_coro c w in
  match res with
  | Returned a =>
      let '(tr', w2, res') := run_coro (f a) w1 in (tr ++ tr', w2, res')
  | Raised x => (tr, w1, Raised x)
  end.
Proof.
  revert w. induction c as [a|x|o k IH]; simpl; intros w.
  - by destruct (run_coro (f a) w) as [[tr' w2] res'].
  - done.
  - destruct (exec o w) as [r w1]. rewrite IH.
    destruct (run_coro (k r) w1) as [[tr w2] [a|x]]; [|done].
    by destruct (run_coro (f a) w2) as [[tr' w3] res'].
Qed.

(** The operations of [mkdir] on [p] keep a well-formed file system
    well-formed and the way to [p] clear. *)
Lemma mkdir_op_clear_way p (o : op) w :
  mkdir_op p o -> fs_wf (files w) /\ clear_way (files w) p ->
  fs_wf (files (exec o w).2) /\ clear_way (files (exec o w).2) p.
Proof.
  intros Ho [Hwf Hc]. split; [by apply exec_wf|].
  destruct o; simpl in *; try done.
  pose proof (os_mkdir_clear_way p p0 (files w) Hwf Hc).
  by destruct (Fs.os_mkdir p0 (files w)).
Qed.

End Invariants.

(** ** Runs of [mkdir] *)

Section MkdirRuns.

Implicit Types (p q : AsyncPath) (w : world).

(** A directory that is there: [mkdir] tries, tests and returns. *)
Lemma mkdir_existing p w :
  Fs.is_dir (files w) p = true ->
  run_coro (mkdir p true true) w = ([OsMkdir p; IsDir p], w, Returned tt).
Proof.
  intros D. pose proof (proj1 (is_dir_true _ _) D) as R.
  unfold mkdir. pose proof (rev_involutive p) as Hp.
  destruct (rev p) as [|c rp]; simpl in *; subst p;
    unfold Fs.os_mkdir; rewrite ?R; simpl; rewrite ?D; by destruct w.
Qed.

Lemma times_existing (n : nat) p w :
  Fs.is_dir (files w) p = true ->
  run_coro (times n (mkdir p true true)) w =
    (concat (replicate n [OsMkdir p; IsDir p]), w, Returned tt).
Proof.
  intros D. induction n as [|n IH]; [done|].
  cbn [times]. by rewrite run_coro_bind, (mkdir_existing p w D), IH.
Qed.

(** With a clear way, [mkdir] alone returns and leaves every prefix of
    [p] a directory. *)
Lemma mkdir_creates p w :
  fs_wf (files w) -> clear_way (files w) p ->
  (run_coro (mkdir p true true) w).2 = Returned tt /\
  fs_wf (files (run_coro (mkdir p true true) w).1.2) /\
  forall q, q `prefix_of` p ->
    Fs.is_dir (files (run_coro (mkdir p true true) w).1.2) q = true.
Proof.
  intros Hwf Hc.
  pose proof (run_coro_invariant
                (fun w0 => fs_wf (files w0) /\ clear_way (files w0) p)
                (mkdir_op p) (mkdir p true true) w
                (mkdir_op_clear_way p) (mkdir_ops p) (conj Hwf Hc)) as [Hwf' Hc'].
  pose proof (run_coro_wp _ w _ (mkdir_wp p w)) as Hpost.
  destruct (run_coro (mkdir p true true) w) as [[tr w'] [[]|x]]; simpl in *.
  - split; [done|]. split; [done|]. intros q [r ->]. apply is_dir_true.
    destruct r as [|c r]; [by rewrite app_nil_r in Hpost|].
    by eapply resolve_prefix.
  - destruct Hpost as (_ & q & d & Hq & Hr). by destruct (Hc' q d).
Qed.

(** One call of [mkdir] among any other coroutines under [gather]. *)
Lemma mkdir_concurrent p (sched : list nat) w (pool : list (coro unit)) (j : nat)
    tr w' pool' st :
  pool !! j = Some (mkdir p true true) ->
  run_pool sched w pool = (tr, w', pool', st) ->
  exists c', pool' !! j = Some c' /\
    match c' with
    | Ret _ => Fs.is_dir (files w') p = true
    | Raise x =>
        Fs.is_dir (files w') p = false /\
        exists q d, q `prefix_of` p /\ Fs.resolve (files w') q = inr (File d)
    | Vis _ _ => st <> None
    end.
Proof.
  intros Hj E.
  destruct (run_pool_wp (mkdir_post p) _ _ _ _ _ _ _ j _
              (mkdir_post_stable p) E Hj (mkdir_wp p w)) as (c' & Hc' & W).
  exists c'. split; [done|]. destruct c' as [[]|x|o k]; simpl in W.
  - by apply is_dir_true.
  - destruct W as (_ & q & d & Hq & Hr).
    split; [by eapply file_prefix_not_dir|eauto].
  - intros ->. destruct (run_pool_spec _ _ _ _ _ _ _ E) as (_ & _ & R & _).
    by pose proof (Forall_lookup_1 _ _ _ _ (R eq_refl) Hc').
Qed.

(** Any number of calls of [mkdir] under [gather], on a clear way. *)
Lemma mkdir_gather (sched : list nat) w (targets : list AsyncPath)
    tr w' pool' st :
  fs_wf (files w) -> Forall (clear_way (files w)) targets ->
  run_pool sched w ((fun q => mkdir q true true) <$> targets)
    = (tr, w', pool', st) ->
  st = None /\ Forall is_ret pool' /\
  Forall (fun q => Fs.is_dir (files w') q = true) targets.
Proof.
  intros Hwf Hc E.
  set (P := fun o : op => match o with OsMkdir _ | IsDir _ => True | _ => False end).
  set (I := fun w0 => fs_wf (files w0) /\ Forall (clear_way (files w0)) targets).
  assert (I w') as [_ Hc'].
  { change w' with (tr, w', pool', st).1.1.2. rewrite <- E.
    apply run_pool_invariant with P; [| |done].
    - intros o w0 Ho [Hwf0 Hc0]. split; [by apply exec_wf|].
      destruct o; simpl in *; try done.
      pose proof (fun t => os_mkdir_clear_way t p (files w0) Hwf0) as K.
      destruct (Fs.os_mkdir p (files w0)). simpl in *.
      eapply Forall_impl; [exact Hc0|]. intros t. apply K.
    - apply Forall_forall. intros c (q & -> & _)%list_elem_of_fmap.
      eapply ops_all_mono; [|apply mkdir_ops]. by intros []. }
  destruct (run_pool_spec _ _ _ _ _ _ _ E) as (_ & Len & R & X).
  assert (forall j t, targets !! j = Some t ->
            exists c', pool' !! j = Some c' /\ wp c' w' (mkdir_post t)) as Hwp.
  { intros j t Ht.
    eapply (run_pool_wp (mkdir_post t) _ _ _ _ _ _ _ j);
      [apply mkdir_post_stable|exact E| |apply mkdir_wp].
    by rewrite list_lookup_fmap, Ht. }
  assert (st = None) as ->.
  { destruct st as [x|]; [|done]. exfalso.
    destruct (proj1 (list_elem_of_lookup _ _) (X x eq_refl)) as [j Hj].
    assert (is_Some (targets !! j)) as [t Ht].
    { apply lookup_lt_is_Some. apply lookup_lt_Some in Hj.
      by rewrite Len, length_fmap in Hj. }
    destruct (Hwp j t Ht) as (c' & Hc'' & W). rewrite Hj in Hc''.
    injection Hc'' as <-. simpl in W. destruct W as (_ & q & d & Hq & Hr).
    by destruct (Forall_lookup_1 _ _ _ _ Hc' Ht q d). }
  split; [done|]. split; [auto|].
  apply Forall_lookup_2. intros j t Ht.
  destruct (Hwp j t Ht) as (c' & Hc'' & W).
  pose proof (Forall_lookup_1 _ _ _ _ (R eq_refl) Hc'') as Hret.
  destruct c' as [[]| |]; try done. by apply is_dir_true.
Qed.

End MkdirRuns.

(** ** One [copy_file] alone *)

Section Sequential.

Implicit Types (path output p : AsyncPath) (w : world).
Implicit Types (fs : gmap AsyncPath node).

Lemma run_coro_try {A} (c : coro A) (h : exn -> coro A) w :
  run_coro (try_except c h) w =
  let '(tr, w1, res) := run_coro c w in
  match res with
  | Returned a => (tr, w1, Returned a)
  | Raised x =>
      if is_Exception x
      then let '(tr', w2, res') := run_coro (h x) w1 in (tr ++ tr', w2, res')
      else (tr, w1, Raised x)
  end.
Proof.
  revert w. induction c as [a|x|o k IH]; simpl; intros w.
  - done.
  - destruct (is_Exception x); [|done].
    by destruct (run_coro (h x) w) as [[tr' w2] res'].
  - destruct (exec o w) as [r w1]. rewrite IH.
    destruct (run_coro (k r) w1) as [[tr w2] [a|x]]; [done|].
    destruct (is_Exception x); [|done].
    by destruct (run_coro (h x) w2) as [[tr' w3] res'].
Qed.

Lemma run_coro_raises {A} (P : exn -> Prop) (c : coro A) w :
  raises_all P c ->
  match (run_coro c w).2 with Returned _ => True | Raised x => P x end.
Proof.
  revert w. induction c as [a|x|o k IH]; simpl; intros w; auto.
  intros H. destruct (exec o w) as [r w1]. specialize (IH r w1 (H r)).
  by destruct (run_coro (k r) w1) as [[tr w2] res].
Qed.

Lemma pipeline_raises path output : raises_all caught (pipeline path output).
Proof.
  apply raises_all_bind; [apply mkdir_raises|]. intros _.
  apply raises_all_bind; [by intros [e|]|]. by intros _ [].
Qed.

(** What the [except] clause makes of the outcome of the [try] block. *)
Lemma copy_file_run path output w :
  run_coro (copy_file path output) w =
  let '(tr, w1, res) := run_coro (pipeline path output) w in
  match res with
  | Returned _ => (tr, w1, Returned tt)
  | Raised x =>
      (tr ++ [Logging ERROR (ErrorCopying path x)],
       World (files w1) (log w1 ++ [(ERROR, ErrorCopying path x)]),
       Returned tt)
  end.
Proof.
  rewrite copy_file_unfold. fold (pipeline path output). rewrite run_coro_try.
  pose proof (run_coro_raises caught (pipeline path output) w
                (pipeline_raises path output)) as H.
  destruct (run_coro (pipeline path output) w) as [[tr w1] [[]|x]]; [done|].
  simpl in H. unfold caught in H. by rewrite H.
Qed.

Lemma write_ok (dst : AsyncPath) (data : string) fs :
  dst <> [] -> Fs.resolve fs (PurePath.parent dst) = inr Dir ->
  Fs.is_dir fs dst = false ->
  Fs.write dst data fs = (None, <[dst := File data]> fs).
Proof.
  intros Hne Hpar D. unfold Fs.write, Fs.is_dir in *.
  rewrite (resolve_parent _ dst Hne), Hpar in *.
  by destruct (fs !! dst) as [[|d]|].
Qed.

(** The operations of [mkdir] on [p] keep a regular file as it is, keep
    what lies beyond [p] from becoming a directory, and do not log. *)
Lemma mkdir_op_frame p (src dst : AsyncPath) (data : string)
    (l : list (level * message)) :
  ~ dst `prefix_of` p -> forall (o : op) w, mkdir_op p o ->
  fs_wf (files w) /\ Fs.resolve (files w) src = inr (File data) /\
    Fs.is_dir (files w) dst = false /\ log w = l ->
  fs_wf (files (exec o w).2) /\
    Fs.resolve (files (exec o w).2) src = inr (File data) /\
    Fs.is_dir (files (exec o w).2) dst = false /\ log (exec o w).2 = l.
Proof.
  intros Hdst o w Ho (Hwf & Hs & Hd & Hl). split; [by apply exec_wf|].
  destruct o as [| | |q| | |]; simpl in *; try done.
  destruct (os_mkdir_cases q (files w)) as [(E & _ & _ & Hq)|[[E _]|[[E _]|[E _]]]];
    rewrite E; simpl; try done.
  split; [|split; [|done]].
  - rewrite (resolve_insert _ q Dir src (File data)); [|by intros m; rewrite Hq|done].
    rewrite decide_False; [done|]. intros ->. by rewrite Hs in Hq.
  - unfold Fs.is_dir in *.
    destruct (Fs.resolve (<[q:=Dir]> (files w)) dst) as [|[|]] eqn:R; try done.
    apply resolve_insert_inv in R; [by rewrite R in Hd|done|]. by intros ->.
Qed.

(** [copy_file] alone, with nothing in its way, copies the file. *)
Lemma copy_file_copies path output w (data : string) :
  fs_wf (files w) ->
  PurePath.component (PurePath.name path) = true ->
  Fs.resolve (files w) path = inr (File data) ->
  clear_way (files w) (target_folder_of path output) ->
  Fs.is_dir (files w) (target_path_of path output) = false ->
  path <> target_path_of path output ->
  (run_coro (copy_file path output) w).2 = Returned tt /\
  Fs.resolve (files (run_coro (copy_file path output) w).1.2)
    (target_path_of path output) = inr (File data) /\
  Fs.resolve (files (run_coro (copy_file path output) w).1.2) path
    = inr (File data) /\
  log (run_coro (copy_file path output) w).1.2 =
    log w ++ [(INFO, Copied path (target_path_of path output))].
Proof.
  intros Hwf Hcomp Hsrc Hway Hdst Hne.
  pose proof (component_inv _ Hcomp) as (_ & _ & Hslash).
  set (tf := target_folder_of path output) in *.
  set (tp := target_path_of path output) in *.
  assert (tp = tf ++ [PurePath.name path]) as Htp.
  { unfold tp, target_path_of. fold tf. by apply truediv_component. }
  assert (~ tp `prefix_of` tf) as Hnp.
  { rewrite Htp. intros [r Hr]. apply (f_equal length) in Hr.
    rewrite !length_app in Hr. simpl in Hr. lia. }
  rewrite copy_file_run. unfold pipeline. fold tf tp. rewrite run_coro_bind.
  destruct (mkdir_creates tf w Hwf Hway) as (Hres & _ & Hdirs).
  pose proof (run_coro_invariant
                (fun w0 => fs_wf (files w0) /\
                           Fs.resolve (files w0) path = inr (File data) /\
                           Fs.is_dir (files w0) tp = false /\ log w0 = log w)
                (mkdir_op tf) (mkdir tf true true) w
                (mkdir_op_frame tf path tp data (log w) Hnp)
                (mkdir_ops tf) (conj Hwf (conj Hsrc (conj Hdst eq_refl))))
    as (Hwf1 & Hsrc1 & Hdst1 & Hlog1).
  destruct (run_coro (mkdir tf true true) w) as [[tr1 w1] res1].
  simpl in Hres, Hdirs, Hwf1, Hsrc1, Hdst1, Hlog1. subst res1.
  assert (Fs.copy path tp (files w1) = (None, <[tp := File data]> (files w1)))
    as Hcopy.
  { unfold Fs.copy, Fs.copyfile. rewrite Hdst1.
    rewrite (bool_decide_eq_false_2 _ Hne), Hsrc1. simpl.
    apply write_ok; [by rewrite Htp; destruct tf| |done].
    rewrite Htp, parent_snoc. apply is_dir_true, Hdirs. done. }
  simpl. rewrite Hcopy. simpl. rewrite Hlog1.
  split; [done|]. split; [|split; [|done]].
  - apply resolve_insert_self; [by rewrite Htp; destruct tf| |].
    + rewrite Htp, parent_snoc. apply is_dir_true, Hdirs. done.
    + intros m Hm. unfold Fs.is_dir in Hdst1. rewrite Hm in Hdst1.
      by destruct m.
  - rewrite (resolve_insert _ tp (File data) path (File data)); [|  |done].
    + by rewrite decide_False.
    + intros m Hm. unfold Fs.is_dir in Hdst1. rewrite Hm in Hdst1.
      by destruct m.
Qed.

End Sequential.

(** ** The empty file system *)

Lemma empty_wf : fs_wf ∅.
Proof. intros p n H. rewrite lookup_empty in H. discriminate H. Qed.

Lemma empty_resolve (q : AsyncPath) (n : node) :
  Fs.resolve ∅ q = inr n -> q = [] /\ n = Dir.
Proof.
  destruct q as [|c q _] using rev_ind; [by intros [= <-]|].
  rewrite resolve_snoc, lookup_empty.
  by destruct (Fs.resolve ∅ q) as [|[|]].
Qed.

Lemma empty_clear_way (p : AsyncPath) : clear_way ∅ p.
Proof. intros q d _ H. by apply empty_resolve in H as [_ ?]. Qed.

(** ** Where a copy lands *)

Section Landing.

Implicit Types (path output src dst p : AsyncPath) (w : world).
Implicit Types (fs : gmap AsyncPath node).

(** A copy that succeeds leaves the content of the source at the
    destination, or inside it when the destination is a directory. *)
Lemma copy_lands src dst fs fs' :
  Fs.copy src dst fs = (None, fs') ->
  exists data,
    Fs.resolve fs src = inr (File data) /\
    Fs.resolve fs' src = inr (File data) /\
    Fs.resolve fs' (if Fs.is_dir fs dst then dst /: PurePath.name src else dst)
      = inr (File data).
Proof.
  unfold Fs.copy. cbv zeta.
  set (dst' := if Fs.is_dir fs dst then dst /: PurePath.name src else dst).
  unfold Fs.copyfile.
  destruct (bool_decide (src = dst') && Fs.exists_ fs src); [done|].
  destruct (Fs.resolve fs src) as [|[|data]] eqn:Hs; try done.
  destruct (write_cases dst' data fs) as [(-> & Hne & Hpar & Hk)|[e ->]]; [|done].
  intros [= <-]. exists data. split; [done|]. split.
  - rewrite (resolve_insert _ dst' (File data) src (File data) Hk Hs).
    by case_decide.
  - by apply resolve_insert_self.
Qed.

Lemma is_file_grows fs fs' p :
  fs_grows fs fs' -> Fs.is_file fs p = true -> Fs.is_file fs' p = true.
Proof.
  intros G. unfold Fs.is_file.
  destruct (Fs.resolve fs p) as [|[|d]] eqn:E; try done.
  by destruct (fs_grows_file _ _ _ _ G E) as [d' ->].
Qed.

(** [mkdir] writes nothing to the log. *)
Lemma mkdir_no_log p w : log (run_coro (mkdir p true true) w).1.2 = log w.
Proof.
  apply (run_coro_invariant (fun w0 => log w0 = log w) (mkdir_op p));
    [|apply mkdir_ops|done].
  intros o w0 Ho Hl. destruct o as [| | |q| | |]; simpl in *; try done.
  by destruct (Fs.os_mkdir q (files w0)).
Qed.

Lemma run_coro_head {A} (o : op) (k : reply o -> coro A) w :
  head (run_coro (Vis o k) w).1.1 = Some o.
Proof.
  simpl. destruct (exec o w) as [r w1].
  by destruct (run_coro (k r) w1) as [[tr w2] res].
Qed.

(** [mkdir] starts with [os.mkdir] on its path. *)
Lemma mkdir_first_event p w :
  head (run_coro (mkdir p true true) w).1.1 = Some (OsMkdir p).
Proof.
  unfold mkdir. rewrite <- (rev_involutive p) at 2.
  destruct (rev p) as [|c rp]; exact (run_coro_head _ _ w).
Qed.

(** What [copy_file] alone makes of its file, in any world: it returns,
    having logged one line for the file; when the line says [Copied], the
    content of the file is at the target path, or inside it under the
    same name. *)
Lemma copy_file_outcome path output w :
  (run_coro (copy_file path output) w).2 = Returned tt /\
  ((exists x, log (run_coro (copy_file path output) w).1.2
              = log w ++ [(ERROR, ErrorCopying path x)]) \/
   (log (run_coro (copy_file path output) w).1.2
      = log w ++ [(INFO, Copied path (target_path_of path output))] /\
    exists data,
      Fs.resolve (files (run_coro (copy_file path output) w).1.2) path
        = inr (File data) /\
      (Fs.resolve (files (run_coro (copy_file path output) w).1.2)
         (target_path_of path output) = inr (File data) \/
       Fs.resolve (files (run_coro (copy_file path output) w).1.2)
         (target_path_of path output /: PurePath.name path)
         = inr (File data)))).
Proof.
  rewrite copy_file_run. unfold pipeline. rewrite run_coro_bind.
  pose proof (mkdir_no_log (target_folder_of path output) w) as Hl.
  destruct (run_coro (mkdir _ true true) w) as [[tr1 w1] [[]|x]]; simpl in Hl.
  2:{ simpl. split; [done|]. left. exists x. by rewrite Hl. }
  simpl.
  destruct (Fs.copy path (target_path_of path output) (files w1))
    as [[e|] fs'] eqn:E; simpl.
  - split; [done|]. left. exists (OSError e). by rewrite Hl.
  - split; [done|]. right. rewrite Hl. split; [done|].
    destruct (copy_lands _ _ _ _ E) as (data & _ & Hs & Hd).
    exists data. split; [done|].
    destruct (Fs.is_dir (files w1) (target_path_of path output)); auto.
Qed.

Lemma landed_at_stable path output : stable (landed_at path output).
Proof.
  intros r w w' [F L] [-> H]. split; [done|].
  destruct H as [[x H]|[H1 H2]]; [left; exists x; by apply L|right].
  split; [by apply L|].
  destruct H2 as [H2|H2]; [left|right]; by eapply is_file_grows.
Qed.

(** One [copy_file] among other coroutines: at the end its file failed,
    or is reported copied with a regular file where the copy went. *)
Lemma copy_file_lands_wp path output w :
  wp (copy_file path output) w (landed_at path output).
Proof.
  rewrite copy_file_unfold. apply wp_try, wp_bind.
  eapply wp_mono; [|apply mkdir_wp]. intros [[]|x] w1; simpl.
  - intros _ w2 _.
    destruct (Fs.copy path (target_path_of path output) (files w2))
      as [[e|] fs] eqn:E; simpl.
    + intros w3 _. split; [done|]. left. exists (OSError e). simpl. set_solver.
    + intros w3 [F3 _]. split; [done|]. right. simpl. split; [set_solver|].
      destruct (copy_lands _ _ _ _ E) as (data & _ & _ & Hd). simpl in F3.
      destruct (Fs.is_dir (files w2) (target_path_of path output));
        [right|left];
        (eapply is_file_grows; [exact F3|]); unfold Fs.is_file; by rewrite Hd.
  - intros [-> _] w2 _. split; [done|]. left. exists x. simpl. set_solver.
Qed.

(** Every line that [copy_file] logs is about its file. *)
Lemma copy_file_lines path output :
  ops_all (fun o => forall lv m, o = Logging lv m -> about path output (lv, m))
    (copy_file path output).
Proof.
  rewrite copy_file_unfold. apply ops_all_try.
  2:{ intros x. split; [|by intros []].
      intros lv m [= <- <-]. right. by exists x. }
  apply ops_all_bind.
  { eapply ops_all_mono; [|apply mkdir_ops].
    intros o Ho lv msg Heq. subst o. by simpl in Ho. }
  intros _. split; [done|]. intros [e|]; simpl; [done|].
  split; [|by intros []]. intros lv m [= <- <-]. by left.
Qed.

End Landing.

(** ** The log is only written *)

Section LogFrame.

Variable l0 : list (level * message).

Lemma exec_frame (o : op) w :
  exec o (with_log l0 w) = ((exec o w).1, with_log l0 (exec o w).2).
Proof.
  unfold with_log. destruct o; simpl; try done.
  - by destruct (Fs.os_mkdir p (files w)).
  - by destruct (Fs.copy src dst (files w)).
  - by rewrite app_assoc.
Qed.

Lemma run_coro_frame {A} (c : coro A) w :
  run_coro c (with_log l0 w) =
  let '(tr, w', res) := run_coro c w in (tr, with_log l0 w', res).
Proof.
  revert w. induction c as [a|x|o k IH]; simpl; intros w; [done|done|].
  rewrite exec_frame. destruct (exec o w) as [r w1]. simpl. rewrite IH.
  by destruct (run_coro (k r) w1) as [[tr w2] res].
Qed.

Lemma drain_frame i (todo : list (coro unit)) w :
  drain i todo (with_log l0 w) =
  let '(tr, w', pool', st) := drain i todo w in (tr, with_log l0 w', pool', st).
Proof.
  revert i w. induction todo as [|c todo IH]; simpl; intros i w; [done|].
  rewrite run_coro_frame. destruct (run_coro c w) as [[tr1 w1] [a|x]]; [|done].
  rewrite IH. by destruct (drain (S i) todo w1) as [[[tr2 w2] done] st2].
Qed.

Lemma run_pool_frame sched w (pool : list (coro unit)) :
  run_pool sched (with_log l0 w) pool =
  let '(tr, w', pool', st) := run_pool sched w pool in
  (tr, with_log l0 w', pool', st).
Proof.
  revert w pool. induction sched as [|i sched IH]; simpl; intros w pool.
  { apply drain_frame. }
  destruct (pool !! i) as [[a|x|o k]|]; try apply IH; [done|].
  rewrite exec_frame. destruct (exec o w) as [r w1]. simpl. rewrite IH.
  by destruct (run_pool sched w1 (<[i:=k r]> pool)) as [[[tr2 w2] p2] st2].
Qed.

Lemma run_main_frame {A} sched (m : mprog A) w :
  run_main sched m (with_log l0 w) =
  let '(tr, w', res) := run_main sched m w in (tr, with_log l0 w', res).
Proof.
  revert w. induction m as [a|x|e k IH]; simpl; intros w; [done|done|].
  destruct e as [o|tasks].
  - rewrite exec_frame. destruct (exec o w) as [r w1]. simpl. rewrite IH.
    by destruct (run_main sched (k r) w1) as [[tr w2] res].
  - rewrite run_pool_frame.
    destruct (run_pool sched w tasks) as [[[tr w1] pool'] st]. rewrite IH.
    by destruct (run_main sched (k _) w1) as [[tr' w2] res].
Qed.

End LogFrame.

(** A run is the run from an empty log, with the earlier lines before
    its own. *)
Lemma run_main_from_empty_log {A} sched (m : mprog A) w :
  run_main sched m w =
  let '(tr, w', res) := run_main sched m (World (files w) []) in
  (tr, World (files w') (log w ++ log w'), res).
Proof.
  pose proof (run_main_frame (log w) sched m (World (files w) [])) as F.
  assert (with_log (log w) (World (files w) []) = w) as Ew.
  { destruct w. unfold with_log. simpl. by rewrite app_nil_r. }
  rewrite Ew in F. rewrite F.
  by destruct (run_main sched m (World (files w) [])) as [[tr w'] res].
Qed.

(** * The specification, statement by statement *)

(** ** Classification *)

Lemma stem_dot_kept (stem E : string) :
  stem <> "" -> PurePath.kept (stem +:+ String "." E) = true.
Proof.
  intros H. destruct stem as [|c stem]; [done|].
  unfold PurePath.kept. apply andb_true_intro. split; apply negb_true_iff.
  - done.
  - apply String.eqb_neq. intros [= _ E']. by destruct stem.
Qed.

(** What [copy_file] does with a file whose bucket is [b]. *)
Lemma copy_file_bucket (path output_folder : AsyncPath) (b : string) :
  PurePath.component (PurePath.name path) = true -> bucket_of path = b ->
  ops_all (fun o => forall src dst, o = Copy src dst ->
             src = path /\ dst = output_folder ++ [b; PurePath.name path])
    (copy_file path output_folder) /\
  (forall w,
     let '(_, w', res) := run_coro (copy_file path output_folder) w in
     res = Returned tt /\
     ((exists x, log w' = log w ++ [(ERROR, ErrorCopying path x)]) \/
      (log w' = log w ++
         [(INFO, Copied path (output_folder ++ [b; PurePath.name path]))] /\
       exists data,
         Fs.resolve (files w') path = inr (File data) /\
         (Fs.resolve (files w') (output_folder ++ [b; PurePath.name path])
            = inr (File data) \/
          Fs.resolve (files w')
            (output_folder ++ [b; PurePath.name path; PurePath.name path])
            = inr (File data))))) /\
  (forall w data,
     fs_wf (files w) ->
     Fs.resolve (files w) path = inr (File data) ->
     clear_way (files w) (output_folder ++ [b]) ->
     Fs.is_dir (files w) (output_folder ++ [b; PurePath.name path]) = false ->
     path <> output_folder ++ [b; PurePath.name path] ->
     let '(_, w', res) := run_coro (copy_file path output_folder) w in
     res = Returned tt /\
     Fs.resolve (files w') (output_folder ++ [b; PurePath.name path])
       = inr (File data) /\
     log w' = log w ++
       [(INFO, Copied path (output_folder ++ [b; PurePath.name path]))]).
Proof.
  intros Hc Hb. pose proof (component_inv _ Hc) as (_ & _ & Hs).
  pose proof (target_path_snoc path output_folder Hc) as Ht.
  pose proof (target_folder_snoc path output_folder Hs) as Hf.
  rewrite Hb in Ht, Hf.
  split; [|split].
  - eapply ops_all_mono; [|apply copy_file_ops].
    intros o Ho src dst ->. simpl in Ho. by rewrite <- Ht.
  - intros w. pose proof (copy_file_outcome path output_folder w) as H.
    rewrite (truediv_component _ _ Hc), Ht, <- app_assoc in H. simpl in H.
    by destruct (run_coro (copy_file path output_folder) w) as [[tr w'] res].
  - intros w data Hwf Hsrc Hway Hd Hne. rewrite <- Hf in Hway.
    rewrite <- Ht in Hd, Hne.
    destruct (copy_file_copies path output_folder w data Hwf Hc Hsrc Hway Hd Hne)
      as (H1 & H2 & _ & H3).
    rewrite Ht in H2, H3.
    by destruct (run_coro (copy_file path output_folder) w) as [[tr w'] res].
Qed.

(** C1: a file whose name is [stem.E], with a non-empty stem and a
    non-empty extension [E] in any mixture of cases, is classified under
    [lowercase(E)], without the dot: its target folder is
    [output/lowercase(E)] and its target path [output/lowercase(E)/name];
    [E] is what follows the final dot, whatever dots the stem has, and it
    is taken in ASCII, where [Str.lower] is the lower case of Python. And
    this is where [copy_file] copies the file. It asks for no other copy.
    Run in any world, it returns with one log line for the file, and when
    the line says [Copied] the content of the file is at
    [output/lowercase(E)/name], or inside it under the same name when
    that path was a directory. Run on a regular file of a well-formed file
    system, with no regular file on the way to [output/lowercase(E)] and
    with a target path that is neither a directory nor the file itself,
    it does copy the file to [output/lowercase(E)/name]. *)
Theorem classify_extension (path output_folder : AsyncPath) (stem E : string) :
  PurePath.name path = stem +:+ String "." E ->
  stem <> "" -> E <> "" -> Str.mem "." E = false ->
  Str.isascii E = true ->
  Str.mem "/" (PurePath.name path) = false ->
  extension_of path = String "." (Str.lower E) /\
  bucket_of path = Str.lower E /\
  target_folder_of path output_folder = output_folder ++ [Str.lower E] /\
  target_path_of path output_folder =
    output_folder ++ [Str.lower E; PurePath.name path] /\
  ops_all (fun o => forall src dst, o = Copy src dst ->
             src = path /\
             dst = output_folder ++ [Str.lower E; PurePath.name path])
    (copy_file path output_folder) /\
  (forall w,
     let '(_, w', res) := run_coro (copy_file path output_folder) w in
     res = Returned tt /\
     ((exists x, log w' = log w ++ [(ERROR, ErrorCopying path x)]) \/
      (log w' = log w ++
         [(INFO, Copied path
                   (output_folder ++ [Str.lower E; PurePath.name path]))] /\
       exists data,
         Fs.resolve (files w') path = inr (File data) /\
         (Fs.resolve (files w')
            (output_folder ++ [Str.lower E; PurePath.name path])
            = inr (File data) \/
          Fs.resolve (files w')
            (output_folder ++
               [Str.lower E; PurePath.name path; PurePath.name path])
            = inr (File data))))) /\
  (forall w data,
     fs_wf (files w) ->
     Fs.resolve (files w) path = inr (File data) ->
     clear_way (files w) (output_folder ++ [Str.lower E]) ->
     Fs.is_dir (files w)
       (output_folder ++ [Str.lower E; PurePath.name path]) = false ->
     path <> output_folder ++ [Str.lower E; PurePath.name path] ->
     let '(_, w', res) := run_coro (copy_file path output_folder) w in
     res = Returned tt /\
     Fs.resolve (files w')
       (output_folder ++ [Str.lower E; PurePath.name path])
       = inr (File data) /\
     log w' = log w ++
       [(INFO, Copied path
                 (output_folder ++ [Str.lower E; PurePath.name path]))]).
Proof.
  intros Hn Hstem HE Hdot _ Hslash.
  pose proof (suffix_ext path stem E Hn Hstem HE Hdot) as Hs.
  pose proof (bucket_ext path E Hs Hdot) as Hb.
  assert (PurePath.component (PurePath.name path) = true) as Hc.
  { unfold PurePath.component. rewrite Hslash, Hn.
    by rewrite stem_dot_kept. }
  pose proof (target_path_snoc path output_folder Hc) as Ht.
  rewrite Hb in Ht.
  split; [by unfold extension_of; rewrite Hs|]. split; [done|].
  split; [by rewrite target_folder_snoc, Hb|]. split; [done|].
  exact (copy_file_bucket path output_folder (Str.lower E) Hc Hb).
Qed.

(** C2: a file whose name has no dot, or is a dotfile (a dot followed by
    a dot-free rest), has no extension: its bucket is the literal
    [no_extension] and its target folder [output/no_extension]. When the
    name is one path component, the target path is
    [output/no_extension/name], and this is where [copy_file] copies the
    file. It asks for no other copy. Run in any world, it returns with
    one log line for the file, and when the line says [Copied] the
    content of the file is at [output/no_extension/name], or inside it
    under the same name when that path was a directory. Run on a regular
    file of a well-formed file system, with no regular file on the way to
    [output/no_extension] and with a target path that is neither a
    directory nor the file itself, it does copy the file to
    [output/no_extension/name]. *)
Theorem classify_no_extension (path output_folder : AsyncPath) :
  Str.mem "." (PurePath.name path) = false \/
  (exists rest, PurePath.name path = String "." rest /\
                Str.mem "." rest = false) ->
  PurePath.suffix path = "" /\
  bucket_of path = "no_extension" /\
  target_folder_of path output_folder = output_folder ++ ["no_extension"] /\
  (PurePath.component (PurePath.name path) = true ->
   target_path_of path output_folder =
     output_folder ++ ["no_extension"; PurePath.name path] /\
   ops_all (fun o => forall src dst, o = Copy src dst ->
              src = path /\
              dst = output_folder ++ ["no_extension"; PurePath.name path])
     (copy_file path output_folder) /\
   (forall w,
      let '(_, w', res) := run_coro (copy_file path output_folder) w in
      res = Returned tt /\
      ((exists x, log w' = log w ++ [(ERROR, ErrorCopying path x)]) \/
       (log w' = log w ++
          [(INFO, Copied path
                    (output_folder ++ ["no_extension"; PurePath.name path]))] /\
        exists data,
          Fs.resolve (files w') path = inr (File data) /\
          (Fs.resolve (files w')
             (output_folder ++ ["no_extension"; PurePath.name path])
             = inr (File data) \/
           Fs.resolve (files w')
             (output_folder ++
                ["no_extension"; PurePath.name path; PurePath.name path])
             = inr (File data))))) /\
   (forall w data,
      fs_wf (files w) ->
      Fs.resolve (files w) path = inr (File data) ->
      clear_way (files w) (output_folder ++ ["no_extension"]) ->
      Fs.is_dir (files w)
        (output_folder ++ ["no_extension"; PurePath.name path]) = false ->
      path <> output_folder ++ ["no_extension"; PurePath.name path] ->
      let '(_, w', res) := run_coro (copy_file path output_folder) w in
      res = Returned tt /\
      Fs.resolve (files w')
        (output_folder ++ ["no_extension"; PurePath.name path])
        = inr (File data) /\
      log w' = log w ++
        [(INFO, Copied path
                  (output_folder ++ ["no_extension"; PurePath.name path]))])).
Proof.
  intros H.
  assert (PurePath.suffix path = "") as Hs.
  { apply suffix_empty. left. destruct H as [H|(rest & -> & H)].
    - by rewrite rfind_absent.
    - change (String "." rest) with ("" +:+ String "." rest).
      by rewrite (rfind_last "." "" rest H). }
  pose proof (bucket_no_ext path Hs) as Hb.
  split; [done|]. split; [done|].
  split; [by unfold target_folder_of; rewrite Hb|].
  intros Hc. pose proof (target_path_snoc path output_folder Hc) as Ht.
  rewrite Hb in Ht. split; [done|].
  exact (copy_file_bucket path output_folder "no_extension" Hc Hb).
Qed.

(** C9: a name that ends with a dot has an empty suffix, hence the bucket
    [no_extension]; and the bucket of any path is never empty and never
    starts with a dot. *)
Theorem classify_trailing_dot (path : AsyncPath) :
  (forall stem, PurePath.name path = stem +:+ "." ->
     PurePath.suffix path = "" /\ extension_of path = "" /\
     bucket_of path = "no_extension") /\
  bucket_of path <> "" /\
  Str.starts_with "." (bucket_of path) = false.
Proof.
  split; [|split].
  - intros stem Hn.
    assert (PurePath.suffix path = "") as Hs.
    { apply suffix_empty. right. rewrite Hn.
      rewrite (rfind_last "." stem "" eq_refl), len_app.
      change (Str.len ".") with 1. lia. }
    split; [done|]. split; [by unfold extension_of; rewrite Hs|].
    by apply bucket_no_ext.
  - destruct (bucket_cases path) as [->|(stem & E & _ & HE & _ & ->)]; [done|].
    by apply lower_nonempty.
  - unfold bucket_of. destruct (Str.truthy (extension_of path)); [|done].
    apply lstrip_starts.
Qed.

Lemma classify_trailing_dot_witness :
  PurePath.suffix ["src"; "archive."] = "" /\
  extension_of ["src"; "archive."] = "" /\
  bucket_of ["src"; "archive."] = "no_extension".
Proof.
  apply (proj1 (classify_trailing_dot ["src"; "archive."]) "archive").
  reflexivity.
Defined.

(** ** The batch *)

Section Batch.

Implicit Types (source output path : AsyncPath) (w : world) (sched : list nat).

Lemma file_in_map (fs : gmap AsyncPath node) path :
  Fs.is_file fs path = true -> exists d, fs !! path = Some (File d).
Proof.
  unfold Fs.is_file. destruct (Fs.resolve fs path) as [|[|d]] eqn:E; try done.
  intros _. exists d.
  assert (path <> []) as Hne by (intros ->; by rewrite resolve_nil in E).
  rewrite (resolve_parent _ path Hne) in E.
  destruct (Fs.resolve fs (PurePath.parent path)) as [|[|]]; try done.
  by destruct (fs !! path); simplify_eq.
Qed.

(** The walk finds exactly the regular files below a source directory. *)
Lemma discovered_spec (fs : gmap AsyncPath node) source path :
  path ∈ discovered fs source <->
  Fs.is_dir fs source = true /\ source `prefix_of` path /\
  Fs.is_file fs path = true.
Proof.
  unfold discovered, Fs.rglob. rewrite list_elem_of_In, filter_In.
  destruct (Fs.is_dir fs source) eqn:D;
    [|simpl; split; [by intros [[] _]|by intros [? _]]].
  rewrite filter_In, in_map_iff. unfold Fs.below. split.
  - intros [(_ & [[Hp _]%andb_prop _]%andb_prop) Hf].
    apply bool_decide_eq_true in Hp. done.
  - intros (_ & Hp & Hf). split; [|done].
    destruct (file_in_map _ _ Hf) as [d Hd]. split.
    + exists (path, File d). split; [done|].
      apply list_elem_of_In, elem_of_map_to_list, Hd.
    + apply andb_true_intro. split; [apply andb_true_intro; split|].
      * by apply bool_decide_eq_true.
      * apply negb_true_iff, bool_decide_eq_false. intros ->.
        unfold Fs.is_dir, Fs.is_file in *.
        by destruct (Fs.resolve fs path) as [|[|]].
      * unfold Fs.exists_, Fs.is_file in *.
        by destruct (Fs.resolve fs path) as [|[|]].
Qed.

(** Under [gather], the coroutines of [copy_file] all return, and the log
    tells of each file whether it was copied. *)
Lemma gather_copy_files sched w (paths : list AsyncPath) output tr w' pool' st :
  run_pool sched w ((fun path => copy_file path output) <$> paths)
    = (tr, w', pool', st) ->
  st = None /\ Forall is_ret pool' /\ length pool' = length paths /\
  forall path, path ∈ paths -> reported path output (Returned tt) w'.
Proof.
  intros E.
  assert (st = None) as ->.
  { change st with (tr, w', pool', st).2. rewrite <- E.
    apply run_pool_no_raise, Forall_forall.
    intros c (path & -> & _)%list_elem_of_fmap. apply copy_file_no_raise. }
  destruct (run_pool_spec _ _ _ _ _ _ _ E) as (_ & Len & R & _).
  specialize (R eq_refl). rewrite length_fmap in Len.
  split; [done|]. split; [done|]. split; [done|].
  intros path [j Hj]%list_elem_of_lookup.
  destruct (run_pool_wp (reported path output) _ _ _ _ _ _ _ j
              (copy_file path output) (reported_stable _ _) E)
    as (c' & Hc' & W).
  - by rewrite list_lookup_fmap, Hj.
  - apply copy_file_wp.
  - pose proof (Forall_lookup_1 _ _ _ _ R Hc') as Hret.
    destruct c' as [[]| |]; done.
Qed.

(** [read_folder] always returns. *)
Lemma read_folder_returns sched source output w :
  (run_main sched (read_folder source output) w).2 = Returned tt.
Proof.
  rewrite read_folder_run.
  destruct (negb (Fs.exists_ (files w) source)); [done|].
  unfold tasks_of.
  destruct (_ <$> discovered (files w) source) as [|t ts] eqn:T; [done|].
  rewrite <- T.
  destruct (run_pool sched w _) as [[[tr w'] pool'] st] eqn:E.
  by destruct (gather_copy_files _ _ _ _ _ _ _ _ E) as (-> & _).
Qed.

(** After [read_folder] the log tells of every file found. *)
Lemma read_folder_reports sched source output w path :
  path ∈ discovered (files w) source ->
  reported path output (Returned tt)
    (run_main sched (read_folder source output) w).1.2.
Proof.
  intros Hp. rewrite read_folder_run.
  pose proof (proj1 (discovered_spec _ _ _) Hp) as (D & _).
  assert (Fs.exists_ (files w) source = true) as ->.
  { unfold Fs.is_dir, Fs.exists_ in *.
    by destruct (Fs.resolve (files w) source). }
  simpl. unfold tasks_of.
  destruct (_ <$> discovered (files w) source) as [|t ts] eqn:T.
  { apply (f_equal length) in T. rewrite length_fmap in T.
    destruct (discovered (files w) source); [by apply elem_of_nil in Hp|done]. }
  rewrite <- T.
  destruct (run_pool sched w _) as [[[tr w'] pool'] st] eqn:E.
  destruct (gather_copy_files _ _ _ _ _ _ _ _ E) as (_ & _ & _ & R). auto.
Qed.

(** The events of [read_folder]: the walk, by the main coroutine, and then
    the events of the coroutines of [copy_file]. *)
Lemma read_folder_trace (P : op -> Prop) sched source output w :
  (forall o, o ∈ walk_ops (files w) source -> P o) ->
  (forall l m, P (Logging l m)) ->
  (forall path o, path ∈ discovered (files w) source ->
                  copy_file_op path output o -> P o) ->
  Forall (fun ev => P ev.2) (run_main sched (read_folder source output) w).1.1.
Proof.
  intros Hwalk Hlog Htask. rewrite read_folder_run.
  destruct (negb (Fs.exists_ (files w) source)).
  { simpl. repeat constructor; simpl; [|done].
    apply Hwalk. unfold walk_ops. set_solver. }
  assert (Forall (fun ev : event => P ev.2) (tag None (walk_ops (files w) source)))
    as Hw.
  { unfold tag. rewrite Forall_fmap. by apply Forall_forall. }
  destruct (tasks_of (files w) source output) as [|t ts] eqn:T.
  { change (Forall (fun ev : event => P ev.2)
              (tag None (walk_ops (files w) source ++
                         [Logging WARNING (NoFilesFound source)]))).
    unfold tag in *. rewrite List.map_app. apply Forall_app.
    split; [done|]. constructor; [apply Hlog|constructor]. }
  rewrite <- T.
  pose proof (run_pool_ops P sched w (tasks_of (files w) source output)) as Ho.
  destruct (run_pool sched w _) as [[[tr w'] pool'] st]. cbn [fst snd] in *.
  apply Forall_app. split; [done|].
  eapply Forall_impl; [apply Ho|by intros ev [_ H]].
  unfold tasks_of. apply Forall_forall.
  intros c (path & -> & Hp)%list_elem_of_fmap.
  eapply ops_all_mono; [|apply copy_file_ops]. intros o. by apply Htask.
Qed.

End Batch.

(** What [wp] promises to [copy_file] holds of every file found, at the
    end of [read_folder]. *)
Lemma read_folder_post (Q : AsyncPath -> outcome unit -> world -> Prop)
    (sched : list nat) (source output : AsyncPath) (w : world)
    (path : AsyncPath) :
  (forall p, stable (Q p)) ->
  (forall p w0, wp (copy_file p output) w0 (Q p)) ->
  path ∈ discovered (files w) source ->
  Q path (Returned tt) (run_main sched (read_folder source output) w).1.2.
Proof.
  intros HQ Hwp Hp. rewrite read_folder_run.
  pose proof (proj1 (discovered_spec _ _ _) Hp) as (D & _).
  assert (Fs.exists_ (files w) source = true) as ->.
  { unfold Fs.is_dir, Fs.exists_ in *.
    by destruct (Fs.resolve (files w) source). }
  simpl. unfold tasks_of.
  destruct (_ <$> discovered (files w) source) as [|t ts] eqn:T.
  { apply (f_equal length) in T. rewrite length_fmap in T.
    destruct (discovered (files w) source); [by apply elem_of_nil in Hp|done]. }
  rewrite <- T.
  destruct (run_pool sched w _) as [[[tr w'] pool'] st] eqn:E.
  destruct (gather_copy_files _ _ _ _ _ _ _ _ E) as (_ & R & _ & _).
  apply list_elem_of_lookup in Hp as [j Hj].
  destruct (run_pool_wp (Q path) _ _ _ _ _ _ _ j (copy_file path output)
              (HQ path) E) as (c' & Hc' & W).
  - by rewrite list_lookup_fmap, Hj.
  - apply Hwp.
  - pose proof (Forall_lookup_1 _ _ _ _ R Hc') as Hret.
    destruct c' as [[]| |]; done.
Qed.

(** At the end of [read_folder], under any schedule, every file found
    has failed or has landed, and the lines of the run tell which. *)
Lemma read_folder_lands (sched : list nat) (source output : AsyncPath)
    (w : world) :
  exists l,
    log (run_main sched (read_folder source output) w).1.2 = log w ++ l /\
    forall path, path ∈ discovered (files w) source ->
      landed path output
        (files (run_main sched (read_folder source output) w).1.2) l.
Proof.
  rewrite run_main_from_empty_log.
  pose proof (fun path => read_folder_post (fun p => landed_at p output) sched source
                output (World (files w) []) path
                (fun p => landed_at_stable p output)
                (fun p w0 => copy_file_lands_wp p output w0)) as H.
  destruct (run_main sched (read_folder source output) (World (files w) []))
    as [[tr w'] res].
  exists (log w'). split; [done|]. intros path Hp. by destruct (H path Hp).
Qed.

Lemma walk_ops_no_copy (fs : gmap AsyncPath node) (source : AsyncPath) (o : op) :
  o ∈ walk_ops fs source ->
  (exists p, o = Exists p \/ o = Rglob p \/ o = IsFile p).
Proof.
  unfold walk_ops. rewrite !elem_of_cons, list_elem_of_In, in_map_iff.
  intros [->|[->|(p & <- & _)]]; eauto.
Qed.

Lemma classify_extension_witness :
  extension_of ["src"; "Photo.tar.JpG"] = ".jpg" /\
  bucket_of ["src"; "Photo.tar.JpG"] = "jpg" /\
  target_folder_of ["src"; "Photo.tar.JpG"] ["out"] = ["out"; "jpg"] /\
  target_path_of ["src"; "Photo.tar.JpG"] ["out"] =
    ["out"; "jpg"; "Photo.tar.JpG"] /\
  (let '(_, w', res) :=
     run_coro (copy_file ["src"; "Photo.tar.JpG"] ["out"])
       (World (<[ ["src"; "Photo.tar.JpG"] := File "P" ]> {[ ["src"] := Dir ]}) []) in
   res = Returned tt /\
   Fs.resolve (files w') ["out"; "jpg"; "Photo.tar.JpG"] = inr (File "P") /\
   log w' = [] ++
     [(INFO, Copied ["src"; "Photo.tar.JpG"]
               ["out"; "jpg"; "Photo.tar.JpG"])]).
Proof.
  destruct (classify_extension ["src"; "Photo.tar.JpG"] ["out"] "Photo.tar" "JpG")
    as (H1 & H2 & H3 & H4 & _ & _ & H5);
    [reflexivity | discriminate | discriminate | reflexivity | reflexivity
    | reflexivity |].
  split; [exact H1|]. split; [exact H2|]. split; [exact H3|].
  split; [exact H4|].
  apply (H5 (World (<[ ["src"; "Photo.tar.JpG"] := File "P" ]> {[ ["src"] := Dir ]}) []) "P").
  - intros p n Hp. cbn [files] in Hp.
    apply lookup_insert_Some in Hp as [[<- <-]|[_ Hp]]; [by vm_compute|].
    apply (lookup_singleton_Some (M:=gmap AsyncPath)) in Hp as [<- <-].
    by vm_compute.
  - reflexivity.
  - intros q d [r Hq] Hr. cbn [files] in Hr.
    assert (Fs.is_file (<[ ["src"; "Photo.tar.JpG"] := File "P" ]> {[ ["src"] := Dir ]}) q = true)
      as Hf by (unfold Fs.is_file; by rewrite Hr).
    destruct (file_in_map _ _ Hf) as [d' Hd].
    apply lookup_insert_Some in Hd as [[<- _]|[_ Hd]].
    + vm_compute in Hq. discriminate Hq.
    + apply (lookup_singleton_Some (M:=gmap AsyncPath)) in Hd as [_ Hd].
      discriminate Hd.
  - reflexivity.
  - discriminate.
Defined.

Lemma classify_no_extension_witness :
  PurePath.suffix ["src"; ".gitignore"] = "" /\
  bucket_of ["src"; ".gitignore"] = "no_extension" /\
  target_folder_of ["src"; ".gitignore"] ["out"] = ["out"; "no_extension"] /\
  target_path_of ["src"; ".gitignore"] ["out"] =
    ["out"; "no_extension"; ".gitignore"] /\
  (let '(_, w', res) :=
     run_coro (copy_file ["src"; ".gitignore"] ["out"])
       (World (<[ ["src"; ".gitignore"] := File "G" ]> {[ ["src"] := Dir ]}) []) in
   res = Returned tt /\
   Fs.resolve (files w') ["out"; "no_extension"; ".gitignore"]
     = inr (File "G") /\
   log w' = [] ++
     [(INFO, Copied ["src"; ".gitignore"]
               ["out"; "no_extension"; ".gitignore"])]).
Proof.
  destruct (classify_no_extension ["src"; ".gitignore"] ["out"])
    as (H1 & H2 & H3 & H4).
  { right. exists "gitignore". split; reflexivity. }
  destruct (H4 eq_refl) as (H5 & _ & _ & H6).
  split; [exact H1|]. split; [exact H2|]. split; [exact H3|].
  split; [exact H5|].
  apply (H6 (World (<[ ["src"; ".gitignore"] := File "G" ]> {[ ["src"] := Dir ]}) []) "G").
  - intros p n Hp. cbn [files] in Hp.
    apply lookup_insert_Some in Hp as [[<- <-]|[_ Hp]]; [by vm_compute|].
    apply (lookup_singleton_Some (M:=gmap AsyncPath)) in Hp as [<- <-].
    by vm_compute.
  - reflexivity.
  - intros q d [r Hq] Hr. cbn [files] in Hr.
    assert (Fs.is_file (<[ ["src"; ".gitignore"] := File "G" ]> {[ ["src"] := Dir ]}) q = true)
      as Hf by (unfold Fs.is_file; by rewrite Hr).
    destruct (file_in_map _ _ Hf) as [d' Hd].
    apply lookup_insert_Some in Hd as [[<- _]|[_ Hd]].
    + vm_compute in Hq. discriminate Hq.
    + apply (lookup_singleton_Some (M:=gmap AsyncPath)) in Hd as [_ Hd].
      discriminate Hd.
  - reflexivity.
  - discriminate.
Defined.


Lemma scenario_a_lookup (p : AsyncPath) (n : node) :
  scenario_a !! p = Some n ->
  (p, n) ∈ [ (["src"], Dir); (["src"; "a.TXT"], File "A"); (["src"; "sub"], Dir);
             (["src"; "sub"; "b.txt"], File "B"); (["src"; "c"], File "C") ].
Proof. apply elem_of_list_to_map_2. Qed.

Lemma scenario_a_wf : fs_wf scenario_a.
Proof.
  intros p n H%scenario_a_lookup.
  repeat (apply elem_of_cons in H as [[= -> ->]|H]; [by vm_compute|]).
  by apply elem_of_nil in H.
Qed.

Lemma scenario_a_clear_way (p : AsyncPath) :
  (forall q, q ∈ [["src"; "a.TXT"]; ["src"; "sub"; "b.txt"]; ["src"; "c"]] ->
             ~ q `prefix_of` p) ->
  clear_way scenario_a p.
Proof.
  intros Hp q d Hq Hr.
  assert (Fs.is_file scenario_a q = true) as Hf by (unfold Fs.is_file; by rewrite Hr).
  destruct (file_in_map _ _ Hf) as [d' H%scenario_a_lookup].
  repeat (apply elem_of_cons in H as [H|H];
          [simplify_eq; (eapply Hp; [|exact Hq]; set_solver)|]).
  by apply elem_of_nil in H.
Qed.





(** ** The source folder *)

(** C7: when the source is a directory with no regular file anywhere
    below it, [read_folder] makes no coroutine, logs the warning and
    returns normally; the main coroutine alone has stepped and the files
    are as before. *)
Theorem empty_source_warns (sched : list nat) (source output : AsyncPath)
    (w : world) :
  Fs.is_dir (files w) source = true ->
  (forall path, source `prefix_of` path -> Fs.is_file (files w) path = false) ->
  tasks_of (files w) source output = [] /\
  run_main sched (read_folder source output) w =
    (tag None (walk_ops (files w) source ++
               [Logging WARNING (NoFilesFound source)]),
     World (files w) (log w ++ [(WARNING, NoFilesFound source)]),
     Returned tt).
Proof.
  intros D Hnone.
  assert (discovered (files w) source = []) as Hd.
  { apply elem_of_nil_inv. intros path (_ & Hp & Hf)%discovered_spec.
    by rewrite (Hnone path Hp) in Hf. }
  assert (tasks_of (files w) source output = []) as Ht.
  { unfold tasks_of. by rewrite Hd. }
  split; [done|]. rewrite read_folder_run, Ht.
  unfold Fs.is_dir, Fs.exists_ in *.
  by destruct (Fs.resolve (files w) source).
Qed.

Lemma empty_source_warns_witness :
  tasks_of {[ ["src"] := Dir ]} ["src"] ["out"] = [] /\
  run_main [] (read_folder ["src"] ["out"]) (World {[ ["src"] := Dir ]} []) =
    (tag None (walk_ops {[ ["src"] := Dir ]} ["src"] ++
               [Logging WARNING (NoFilesFound ["src"])]),
     World {[ ["src"] := Dir ]} [(WARNING, NoFilesFound ["src"])],
     Returned tt).
Proof.
  refine (empty_source_warns [] ["src"] ["out"]
            (World {[ ["src"] := Dir ]} []) _ _).
  - reflexivity.
  - intros path _. cbn [files].
    destruct (Fs.is_file {[ ["src"] := Dir ]} path) eqn:F; [|reflexivity].
    destruct (file_in_map _ _ F) as [d Hd].
    destruct (proj1 (lookup_singleton_Some (M:=gmap AsyncPath)
                       ["src"] path Dir (File d)) Hd) as [_ X].
    discriminate X.
Defined.

(** C10: the source is only tested for existence. When it is a regular
    file, [read_folder] does not log the missing-source error: it goes on
    to the walk, which yields nothing, and ends with the warning. *)
Theorem source_regular_file (sched : list nat) (source output : AsyncPath)
    (w : world) (data : string) :
  Fs.resolve (files w) source = inr (File data) ->
  Fs.exists_ (files w) source = true /\
  run_main sched (read_folder source output) w =
    ([(None, Exists source); (None, Rglob source);
      (None, Logging WARNING (NoFilesFound source))],
     World (files w) (log w ++ [(WARNING, NoFilesFound source)]),
     Returned tt).
Proof.
  intros Hs.
  assert (Fs.rglob (files w) source = []) as Hr.
  { unfold Fs.rglob, Fs.is_dir. by rewrite Hs. }
  rewrite read_folder_run. unfold tasks_of, discovered, walk_ops, Fs.exists_.
  by rewrite Hr, Hs.
Qed.

Lemma source_regular_file_witness :
  Fs.exists_ {[ ["notes.txt"] := File "n" ]} ["notes.txt"] = true /\
  run_main [] (read_folder ["notes.txt"] ["out"])
    (World {[ ["notes.txt"] := File "n" ]} []) =
    ([(None, Exists ["notes.txt"]); (None, Rglob ["notes.txt"]);
      (None, Logging WARNING (NoFilesFound ["notes.txt"]))],
     World {[ ["notes.txt"] := File "n" ]}
       [(WARNING, NoFilesFound ["notes.txt"])],
     Returned tt).
Proof.
  refine (source_regular_file [] ["notes.txt"] ["out"]
            (World {[ ["notes.txt"] := File "n" ]} []) "n" _).
  reflexivity.
Defined.

(** ** Creating the target folder *)

(** C3: [mkdir(parents=True, exist_ok=True)] treats a directory that is
    already there as success and changes nothing, however many times it is
    called; with no regular file on the way it returns and leaves every
    missing directory on the way created; called among any other
    coroutines under [gather], in any interleaving, it ends with the
    directory in place, or raises with a regular file on the way (so never
    because the directory exists); and any number of concurrent calls,
    with no regular file on their ways, all return with their directories
    in place. *)
Theorem mkdir_exist_ok (p : AsyncPath) (sched : list nat) (w : world) :
  (Fs.is_dir (files w) p = true ->
   forall n, run_coro (times n (mkdir p true true)) w =
               (concat (replicate n [OsMkdir p; IsDir p]), w, Returned tt)) /\
  (fs_wf (files w) -> clear_way (files w) p ->
   (run_coro (mkdir p true true) w).2 = Returned tt /\
   forall q, q `prefix_of` p ->
     Fs.is_dir (files (run_coro (mkdir p true true) w).1.2) q = true) /\
  (forall (pool : list (coro unit)) (j : nat),
     pool !! j = Some (mkdir p true true) ->
     let '(_, w', pool', st) := run_pool sched w pool in
     exists c', pool' !! j = Some c' /\
       match c' with
       | Ret _ => Fs.is_dir (files w') p = true
       | Raise x =>
           Fs.is_dir (files w') p = false /\
           exists q d, q `prefix_of` p /\
                       Fs.resolve (files w') q = inr (File d)
       | Vis _ _ => st <> None
       end) /\
  (forall targets : list AsyncPath,
     fs_wf (files w) -> Forall (clear_way (files w)) targets ->
     let '(_, w', pool', st) :=
       run_pool sched w ((fun q => mkdir q true true) <$> targets) in
     st = None /\ Forall is_ret pool' /\
     Forall (fun q => Fs.is_dir (files w') q = true) targets).
Proof.
  split; [|split; [|split]].
  - intros D n. by apply times_existing.
  - intros Hwf Hc. destruct (mkdir_creates p w Hwf Hc) as (H1 & _ & H2). done.
  - intros pool j Hj.
    destruct (run_pool sched w pool) as [[[tr w'] pool'] st] eqn:E.
    by eapply mkdir_concurrent.
  - intros targets Hwf Hc.
    destruct (run_pool sched w _) as [[[tr w'] pool'] st] eqn:E.
    by eapply mkdir_gather.
Qed.

Lemma mkdir_exist_ok_witness :
  let '(_, w', pool', st) :=
    run_pool [0; 1; 1; 0; 0; 1; 0; 1]%nat (World ∅ [])
      ((fun q => mkdir q true true) <$> [["out"; "txt"]; ["out"; "txt"]]) in
  st = None /\ Forall is_ret pool' /\
  Forall (fun q => Fs.is_dir (files w') q = true)
    [["out"; "txt"]; ["out"; "txt"]].
Proof.
  refine (proj2 (proj2 (proj2
            (mkdir_exist_ok [] [0; 1; 1; 0; 0; 1; 0; 1]%nat (World ∅ []))))
            [["out"; "txt"]; ["out"; "txt"]] _ _).
  - exact empty_wf.
  - repeat constructor; apply empty_clear_way.
Defined.

(** ** The walk and the copies *)

Section Phases.

Implicit Types (source output : AsyncPath) (w : world) (sched : list nat).

Lemma ops_all_True {A} (c : coro A) : ops_all (fun _ => True) c.
Proof. induction c as [a|x|o k IH]; simpl; auto. Qed.

(** When the main coroutine steps first and the others after it, no
    coroutine steps before an event of the walk. *)
Lemma phases_no_overlap (ops : list op) (tr : list event) :
  Forall (task_event (fun _ => True)) tr -> ~ overlaps (tag None ops ++ tr).
Proof.
  intros Htr (i & j & ev1 & ev2 & Hij & Hi & Hj & [t Ht] & Hnone & _).
  destruct (decide (i < length (tag None ops))%nat) as [Hlt|Hge].
  - rewrite lookup_app_l in Hi by done. unfold tag in Hi.
    apply list_elem_of_lookup_2, list_elem_of_In, in_map_iff in Hi
      as (o & <- & _). done.
  - rewrite lookup_app_r in Hj by lia.
    pose proof (Forall_lookup_1 _ _ _ _ Htr Hj) as [[t' Ht'] _]. congruence.
Qed.

(** The events of [read_folder]: first those of the main coroutine, then
    those of the coroutines under [gather]. *)
Lemma read_folder_phases sched source output w :
  exists (ops : list op) (tr : list event),
    (run_main sched (read_folder source output) w).1.1 = tag None ops ++ tr /\
    Forall (task_event (fun _ => True)) tr.
Proof.
  rewrite read_folder_run. destruct (negb (Fs.exists_ (files w) source)).
  { exists [Exists source; Logging ERROR (SourceMissing source)], [].
    by rewrite app_nil_r. }
  destruct (tasks_of (files w) source output) as [|t ts] eqn:T.
  { eexists _, []. by rewrite app_nil_r. }
  pose proof (run_pool_ops (fun _ => True) sched w (t :: ts)) as Ho.
  destruct (run_pool sched w (t :: ts)) as [[[tr w'] pool'] st].
  exists (walk_ops (files w) source), tr. split; [done|].
  apply Ho, Forall_forall. intros c _. apply ops_all_True.
Qed.

Lemma read_folder_no_overlap sched source output w :
  ~ overlaps (run_main sched (read_folder source output) w).1.1.
Proof.
  destruct (read_folder_phases sched source output w) as (ops & tr & -> & Htr).
  by apply phases_no_overlap.
Qed.

(** With files to copy, the run of [read_folder] is the whole walk
    followed by the run of the coroutines, all of which return. *)
Lemma read_folder_gathers sched source output w tr w' pool' st :
  Fs.exists_ (files w) source = true ->
  tasks_of (files w) source output <> [] ->
  run_pool sched w (tasks_of (files w) source output) = (tr, w', pool', st) ->
  run_main sched (read_folder source output) w =
    (tag None (walk_ops (files w) source) ++ tr, w', Returned tt) /\
  Forall (task_event (fun _ => True)) tr /\ Forall is_ret pool'.
Proof.
  intros He Ht E. rewrite read_folder_run, He. simpl.
  pose proof (run_pool_ops (fun _ => True) sched w
                (tasks_of (files w) source output)) as Ho.
  destruct (gather_copy_files _ _ _ _ _ _ _ _ E) as (-> & R & _).
  destruct (tasks_of (files w) source output) as [|t ts] eqn:T; [done|].
  rewrite E in *. split; [done|]. split; [|done].
  apply Ho, Forall_forall. intros c _. apply ops_all_True.
Qed.

End Phases.

(** C5, as the code has it: the walk is not overlapped by the copies. In
    every run of [read_folder], under every schedule, no coroutine of
    [copy_file] takes a step before an event of the walk: the coroutines
    are only collected during the walk, which therefore is never held up
    by them, and they all start after it, under [gather]. With files to
    copy, the run is the whole walk followed by the run of the coroutines,
    and it ends when every one of them has returned. *)
Theorem walk_before_copies (sched : list nat) (source output : AsyncPath)
    (w : world) :
  ~ overlaps (run_main sched (read_folder source output) w).1.1 /\
  (Fs.exists_ (files w) source = true ->
   tasks_of (files w) source output <> [] ->
   let '(tr, w', pool', _) :=
     run_pool sched w (tasks_of (files w) source output) in
   run_main sched (read_folder source output) w =
     (tag None (walk_ops (files w) source) ++ tr, w', Returned tt) /\
   Forall (task_event (fun _ => True)) tr /\ Forall is_ret pool').
Proof.
  split; [apply read_folder_no_overlap|].
  intros He Ht.
  destruct (run_pool sched w _) as [[[tr w'] pool'] st] eqn:E.
  by eapply read_folder_gathers.
Qed.

Lemma walk_before_copies_witness :
  let '(tr, w', pool', _) :=
    run_pool [1; 0; 2]%nat (World scenario_a [])
      (tasks_of scenario_a ["src"] ["out"]) in
  run_main [1; 0; 2]%nat (read_folder ["src"] ["out"]) (World scenario_a []) =
    (tag None (walk_ops scenario_a ["src"]) ++ tr, w', Returned tt) /\
  Forall (task_event (fun _ => True)) tr /\ Forall is_ret pool'.
Proof.
  refine (proj2 (walk_before_copies [1; 0; 2]%nat ["src"] ["out"]
                   (World scenario_a [])) _ _).
  - reflexivity.
  - intros H. apply (f_equal length) in H. unfold tasks_of in H.
    rewrite length_fmap in H. vm_compute in H. discriminate H.
Defined.

(** C5, as stated, fails on Scenario A: whatever the schedule, no copy
    starts before the walk has ended. *)
Lemma copies_overlap_walk_counterexample :
  ~ exists sched : list nat,
      overlaps
        (run_main sched (read_folder ["src"] ["out"]) (World scenario_a [])).1.1.
Proof. intros [sched H]. by apply read_folder_no_overlap in H. Qed.

(** ** A missing source *)

Section MissingSource.

Implicit Types (source output : AsyncPath) (w : world) (sched : list nat).

(** [mkdir] on the output neither logs nor makes the source appear, when
    the source is not on the way to the output. *)
Lemma mkdir_keeps_missing source output w :
  fs_wf (files w) -> Fs.exists_ (files w) source = false ->
  ~ source `prefix_of` output ->
  Fs.exists_ (files (run_coro (mkdir output true true) w).1.2) source = false /\
  log (run_coro (mkdir output true true) w).1.2 = log w.
Proof.
  intros Hwf He Hp.
  pose proof (run_coro_invariant
                (fun w0 => fs_wf (files w0) /\
                           Fs.exists_ (files w0) source = false /\
                           log w0 = log w)
                (mkdir_op output) (mkdir output true true) w) as H.
  apply H; [|apply mkdir_ops|done].
  intros o w0 Ho (Hwf0 & He0 & Hl0). split; [by apply exec_wf|].
  destruct o; simpl in *; try done.
  pose proof (os_mkdir_absent source p (files w0) Hwf0) as K.
  destruct (Fs.os_mkdir p (files w0)). simpl in *. split; [|done].
  apply K; [|done]. by intros ->.
Qed.

Lemma mkdir_no_copy (p : AsyncPath) w :
  Forall (fun o => forall src dst, o <> Copy src dst)
    (run_coro (mkdir p true true) w).1.1.
Proof.
  eapply Forall_impl; [apply (run_coro_ops (mkdir_op p)), mkdir_ops|].
  intros o Ho s d. by destruct o.
Qed.

End MissingSource.

(** C6, as the code has it. The arguments are plain: relative paths
    without [..]. When the source does not exist and is not on the way to
    the output (it is neither the output nor one of its ancestors), and
    no regular file is on the way to the output, the run first makes the
    output folder: its events start with [os.mkdir] on the output and are
    those of [mkdir], at the end of which the output is a directory, the
    source is still missing and nothing is logged. Only then does it test
    the source, log the error and return; it has asked for no copy, and
    the files are as [mkdir] left them. *)
Theorem missing_source (sched : list nat) (a : args) (w : world) :
  PurePath.plain (source a) = true ->
  PurePath.plain (output a) = true ->
  fs_wf (files w) ->
  Fs.exists_ (files w) (PurePath.of_string (source a)) = false ->
  ~ PurePath.of_string (source a) `prefix_of` PurePath.of_string (output a) ->
  clear_way (files w) (PurePath.of_string (output a)) ->
  exists (tr1 : list op) (w1 : world),
    run_coro (mkdir (PurePath.of_string (output a)) true true) w
      = (tr1, w1, Returned tt) /\
    head tr1 = Some (OsMkdir (PurePath.of_string (output a))) /\
    Forall (mkdir_op (PurePath.of_string (output a))) tr1 /\
    Fs.is_dir (files w1) (PurePath.of_string (output a)) = true /\
    Fs.exists_ (files w1) (PurePath.of_string (source a)) = false /\
    log w1 = log w /\
    run_main sched (main a) w =
      (tag None tr1 ++
         [(None, Exists (PurePath.of_string (source a)));
          (None, Logging ERROR
                   (SourceMissing (PurePath.of_string (source a))))],
       World (files w1)
         (log w ++ [(ERROR, SourceMissing (PurePath.of_string (source a)))]),
       Returned tt).
Proof.
  intros _ _ Hwf He Hp Hc. unfold main.
  set (source_folder := PurePath.of_string (source a)) in *.
  set (output_folder := PurePath.of_string (output a)) in *.
  rewrite run_main_lift.
  destruct (mkdir_creates output_folder w Hwf Hc) as (Hres & _ & Hdirs).
  destruct (mkdir_keeps_missing source_folder output_folder w Hwf He Hp)
    as (He1 & Hl1).
  pose proof (mkdir_first_event output_folder w) as Hhead.
  pose proof (run_coro_ops (mkdir_op output_folder)
                (mkdir output_folder true true) w (mkdir_ops output_folder))
    as Hops.
  destruct (run_coro (mkdir output_folder true true) w) as [[tr1 w1] res1].
  simpl in Hres, Hdirs, He1, Hl1, Hhead, Hops. subst res1.
  exists tr1, w1. split; [done|]. split; [done|]. split; [done|].
  split; [by apply Hdirs|]. split; [done|]. split; [done|].
  rewrite read_folder_run, He1. simpl. by rewrite Hl1.
Qed.

Lemma missing_source_witness :
  exists (tr1 : list op) (w1 : world),
    run_coro (mkdir (PurePath.of_string (output (Args "nowhere" "out/sorted")))
                true true) (World ∅ [])
      = (tr1, w1, Returned tt) /\
    head tr1
      = Some (OsMkdir (PurePath.of_string (output (Args "nowhere" "out/sorted")))) /\
    Forall (mkdir_op (PurePath.of_string (output (Args "nowhere" "out/sorted"))))
      tr1 /\
    Fs.is_dir (files w1)
      (PurePath.of_string (output (Args "nowhere" "out/sorted"))) = true /\
    Fs.exists_ (files w1)
      (PurePath.of_string (source (Args "nowhere" "out/sorted"))) = false /\
    log w1 = log (World ∅ []) /\
    run_main [] (main (Args "nowhere" "out/sorted")) (World ∅ []) =
      (tag None tr1 ++
         [(None, Exists (PurePath.of_string (source (Args "nowhere" "out/sorted"))));
          (None, Logging ERROR
                   (SourceMissing
                      (PurePath.of_string (source (Args "nowhere" "out/sorted")))))],
       World (files w1)
         (log (World ∅ []) ++
            [(ERROR, SourceMissing
                       (PurePath.of_string (source (Args "nowhere" "out/sorted"))))]),
       Returned tt).
Proof.
  apply (missing_source [] (Args "nowhere" "out/sorted") (World ∅ [])).
  - reflexivity.
  - reflexivity.
  - exact empty_wf.
  - reflexivity.
  - intros [r H]. vm_compute in H. discriminate H.
  - apply empty_clear_way.
Defined.

(** C6, as stated, fails when the source is an ancestor of the output:
    creating [a/b] creates [a], the source is found, and the run ends with
    the warning of an empty source, not with an error. *)
Lemma missing_source_counterexample :
  ~ (Fs.exists_ ∅ (PurePath.of_string "a") = false ->
     (ERROR, SourceMissing (PurePath.of_string "a"))
       ∈ log (run_main [] (main (Args "a" "a/b")) (World ∅ [])).1.2).
Proof.
  intros H. specialize (H eq_refl).
  assert (log (run_main [] (main (Args "a" "a/b")) (World ∅ [])).1.2
          = [(WARNING, NoFilesFound ["a"])]) as E by (vm_compute; reflexivity).
  rewrite E in H. apply list_elem_of_singleton in H. discriminate H.
Qed.

(** ** Runs *)

(** Scenario A, the three coroutines interleaved: the walk, then the
    copies; the second [mkdir] of [out/txt] finds it made by the first. *)
Example scenario_a_run :
  run_main [1; 0; 2; 1; 1]%nat (main (Args "src" "out")) (World scenario_a [])
  = ([(None, OsMkdir ["out"]); (None, Exists ["src"]); (None, Rglob ["src"]);
      (None, IsFile ["src"; "sub"; "b.txt"]); (None, IsFile ["src"; "c"]);
      (None, IsFile ["src"; "sub"]); (None, IsFile ["src"; "a.TXT"]);
      (Some 1%nat, OsMkdir ["out"; "no_extension"]);
      (Some 0%nat, OsMkdir ["out"; "txt"]);
      (Some 2%nat, OsMkdir ["out"; "txt"]);
      (Some 1%nat, Copy ["src"; "c"] ["out"; "no_extension"; "c"]);
      (Some 1%nat,
       Logging INFO (Copied ["src"; "c"] ["out"; "no_extension"; "c"]));
      (Some 0%nat, Copy ["src"; "sub"; "b.txt"] ["out"; "txt"; "b.txt"]);
      (Some 0%nat,
       Logging INFO (Copied ["src"; "sub"; "b.txt"] ["out"; "txt"; "b.txt"]));
      (Some 2%nat, IsDir ["out"; "txt"]);
      (Some 2%nat, Copy ["src"; "a.TXT"] ["out"; "txt"; "a.TXT"]);
      (Some 2%nat,
       Logging INFO (Copied ["src"; "a.TXT"] ["out"; "txt"; "a.TXT"]))],
     World
       (<[ ["out"; "txt"; "a.TXT"] := File "A" ]>
          (<[ ["out"; "txt"; "b.txt"] := File "B" ]>
             (<[ ["out"; "no_extension"; "c"] := File "C" ]>
                (<[ ["out"; "txt"] := Dir ]>
                   (<[ ["out"; "no_extension"] := Dir ]>
                      (<[ ["out"] := Dir ]> scenario_a))))))
       [(INFO, Copied ["src"; "c"] ["out"; "no_extension"; "c"]);
        (INFO, Copied ["src"; "sub"; "b.txt"] ["out"; "txt"; "b.txt"]);
        (INFO, Copied ["src"; "a.TXT"] ["out"; "txt"; "a.TXT"])],
     Returned tt).
Proof. vm_compute. reflexivity. Qed.

(** A regular file in the way of [out/txt]: the two text files fail and
    are logged, the third file is copied all the same. *)
Example scenario_blocked_run :
  let '(_, w', res) :=
    run_main [0; 1; 2; 0]%nat (main (Args "src" "out"))
      (World scenario_blocked []) in
  res = Returned tt /\
  log w' =
    [(ERROR, ErrorCopying ["src"; "sub"; "b.txt"] (OSError FileExistsError));
     (INFO, Copied ["src"; "c"] ["out"; "no_extension"; "c"]);
     (ERROR, ErrorCopying ["src"; "a.TXT"] (OSError FileExistsError))] /\
  Fs.resolve (files w') ["out"; "no_extension"; "c"] = inr (File "C").
Proof. vm_compute. repeat split. Qed.

(** Two calls of [mkdir] on the same missing path, interleaved step by
    step: each finds a directory made by the other, and both return. *)
Example mkdir_race_run :
  run_pool [0; 1; 1; 0; 0; 1; 0; 1]%nat (World ∅ [])
    [mkdir ["out"; "txt"] true true; mkdir ["out"; "txt"] true true]
  = ([(Some 0%nat, OsMkdir ["out"; "txt"]);
      (Some 1%nat, OsMkdir ["out"; "txt"]);
      (Some 1%nat, OsMkdir ["out"]);
      (Some 0%nat, OsMkdir ["out"]); (Some 0%nat, IsDir ["out"]);
      (Some 1%nat, OsMkdir ["out"; "txt"]);
      (Some 0%nat, OsMkdir ["out"; "txt"]);
      (Some 0%nat, IsDir ["out"; "txt"])],
     World (<[ ["out"; "txt"] := Dir ]> (<[ ["out"] := Dir ]> ∅)) [],
     [Ret tt; Ret tt], None).
Proof. vm_compute. reflexivity. Qed.

(** A source that is missing until the output is created below it: the
    run finds the source and warns of no file. *)
Example source_above_output_run :
  let '(tr, w', res) := run_main [] (main (Args "a" "a/b")) (World ∅ []) in
  tr = [(None, OsMkdir ["a"; "b"]); (None, OsMkdir ["a"]);
        (None, OsMkdir ["a"; "b"]); (None, Exists ["a"]); (None, Rglob ["a"]);
        (None, IsFile ["a"; "b"]);
        (None, Logging WARNING (NoFilesFound ["a"]))] /\
  log w' = [(WARNING, NoFilesFound ["a"])] /\ res = Returned tt.
Proof. vm_compute. repeat split. Qed.

(** A regular file on the way to the output: [mkdir] raises in [main],
    before the source is looked at, and nothing is logged. *)
Example output_blocked_run :
  let '(tr, w', res) :=
    run_main [] (main (Args "nowhere" "f/out"))
      (World {[ ["f"] := File "x" ]} []) in
  tr = [(None, OsMkdir ["f"; "out"]); (None, IsDir ["f"; "out"])] /\
  log w' = [] /\ res = Raised (OSError NotADirectoryError).
Proof. vm_compute. repeat split. Qed.

(** A target path that already is a directory: the file is reported
    copied to [out/txt/a.txt] and is inside it. *)
Example scenario_occupied_run :
  let '(_, w', res) :=
    run_main [] (read_folder ["src"] ["out"]) (World scenario_occupied []) in
  res = Returned tt /\
  log w' = [(INFO, Copied ["src"; "a.txt"] ["out"; "txt"; "a.txt"])] /\
  Fs.resolve (files w') ["out"; "txt"; "a.txt"] = inr Dir /\
  Fs.resolve (files w') ["out"; "txt"; "a.txt"; "a.txt"] = inr (File "A").
Proof. vm_compute. repeat split. Qed.

(** * Further properties of the code *)

(** ** Target paths *)

Section Targets.

Implicit Types (path p output : AsyncPath).

Lemma lower_char_idem (c : ascii) :
  Str.lower_char (Str.lower_char c) = Str.lower_char c.
Proof. by destruct c as [[] [] [] [] [] [] [] []]. Qed.

Lemma lower_idem (s : string) : Str.lower (Str.lower s) = Str.lower s.
Proof.
  induction s as [|c s IH]; simpl; [done|]. by rewrite lower_char_idem, IH.
Qed.

(** The bucket is read off the name alone. *)
Lemma bucket_of_name p1 p2 :
  PurePath.name p1 = PurePath.name p2 -> bucket_of p1 = bucket_of p2.
Proof.
  intros H. unfold bucket_of, extension_of, PurePath.suffix. by rewrite H.
Qed.

End Targets.

(** X1: two files are sent to the same target path exactly when they have
    the same name, whatever folders they come from: files of the same name
    collide in the output, files of different names never do. *)
Theorem same_target_iff_same_name (p1 p2 output : AsyncPath) :
  PurePath.component (PurePath.name p1) = true ->
  PurePath.component (PurePath.name p2) = true ->
  target_path_of p1 output = target_path_of p2 output <->
  PurePath.name p1 = PurePath.name p2.
Proof.
  intros H1 H2. rewrite !target_path_snoc by done. split.
  - intros H%app_inv_head. by injection H.
  - intros H. by rewrite (bucket_of_name p1 p2 H), H.
Qed.

Lemma same_target_iff_same_name_witness :
  target_path_of ["src"; "x"; "report.pdf"] ["out"]
    = target_path_of ["src"; "y"; "report.pdf"] ["out"] <->
  PurePath.name ["src"; "x"; "report.pdf"]
    = PurePath.name ["src"; "y"; "report.pdf"].
Proof.
  apply (same_target_iff_same_name ["src"; "x"; "report.pdf"]
           ["src"; "y"; "report.pdf"] ["out"]); reflexivity.
Defined.

(** X2: the bucket of any path is lower case and has no dot; when the
    name of the file has no separator the bucket is one folder name, so
    the target folder is one level below the output and the target path
    two levels below it: the folders of the source are not reproduced. *)
Theorem bucket_shape (path output : AsyncPath) :
  Str.lower (bucket_of path) = bucket_of path /\
  Str.mem "." (bucket_of path) = false /\
  (PurePath.component (PurePath.name path) = true ->
   PurePath.component (bucket_of path) = true /\
   length (target_folder_of path output) = S (length output) /\
   length (target_path_of path output) = S (S (length output))).
Proof.
  split; [|split].
  - destruct (bucket_cases path) as [->|(stem & E & _ & _ & _ & ->)]; [done|].
    apply lower_idem.
  - destruct (bucket_cases path) as [->|(stem & E & _ & _ & Hdot & ->)]; [done|].
    by rewrite (mem_lower "." E).
  - intros Hc. pose proof (component_inv _ Hc) as (_ & _ & Hs).
    split; [by apply bucket_component|].
    rewrite target_folder_snoc, target_path_snoc by done.
    rewrite !length_app. simpl. lia.
Qed.

Lemma bucket_shape_witness :
  PurePath.component (bucket_of ["a"; "b"; "c"; "Notes.v2.MD"]) = true /\
  length (target_folder_of ["a"; "b"; "c"; "Notes.v2.MD"] ["out"]) = 2%nat /\
  length (target_path_of ["a"; "b"; "c"; "Notes.v2.MD"] ["out"]) = 3%nat.
Proof.
  apply (proj2 (proj2 (bucket_shape ["a"; "b"; "c"; "Notes.v2.MD"] ["out"]))).
  reflexivity.
Defined.

(** ** The walk *)

Section Handled.

Implicit Types (source output path : AsyncPath) (w : world) (sched : list nat).

(** Under [gather], the coroutines of [copy_file] log nothing but lines
    about their files. *)
Lemma gather_lines sched w (paths : list AsyncPath) output :
  Forall (fun e => exists path, path ∈ paths /\ about path output e) (log w) ->
  Forall (fun e => exists path, path ∈ paths /\ about path output e)
    (log (run_pool sched w
            ((fun path => copy_file path output) <$> paths)).1.1.2).
Proof.
  intros Hw.
  apply (run_pool_invariant
           (fun w0 => Forall (fun e => exists path,
                                path ∈ paths /\ about path output e) (log w0))
           (fun o => forall lv m, o = Logging lv m ->
                       exists path, path ∈ paths /\ about path output (lv, m)));
    [| |done].
  - intros o w0 Ho H0. destruct o as [| | |q| |src dst|lv m]; simpl; try done.
    + by destruct (Fs.os_mkdir q (files w0)).
    + by destruct (Fs.copy src dst (files w0)).
    + apply Forall_app. split; [done|]. constructor; [|done]. by apply Ho.
  - apply Forall_forall. intros c (path & -> & Hp)%list_elem_of_fmap.
    eapply ops_all_mono; [|apply copy_file_lines].
    intros o Ho lv m Heq. exists path. split; [done|]. by apply Ho.
Qed.

(** The lines of [read_folder]: about the files found, or the one line
    that tells that there is none. *)
Lemma read_folder_lines sched source output (fs : gmap AsyncPath node) :
  Forall (fun e =>
            (exists path, path ∈ discovered fs source /\ about path output e) \/
            e = (ERROR, SourceMissing source) \/
            e = (WARNING, NoFilesFound source))
    (log (run_main sched (read_folder source output) (World fs [])).1.2).
Proof.
  rewrite read_folder_run. cbn [files log].
  destruct (negb (Fs.exists_ fs source)).
  { simpl. constructor; [|done]. right. by left. }
  unfold tasks_of.
  destruct (_ <$> discovered fs source) as [|t ts] eqn:T.
  { simpl. constructor; [|done]. right. by right. }
  rewrite <- T.
  pose proof (gather_lines sched (World fs []) (discovered fs source) output
                (Forall_nil_2 _)) as H.
  destruct (run_pool sched (World fs []) _) as [[[tr w'] pool'] st].
  cbn [fst snd] in *. eapply Forall_impl; [exact H|]. intros e He. by left.
Qed.

End Handled.


(** ** Edges of [copy_file] and [main] *)

Section Edges.

Implicit Types (path p q output : AsyncPath) (w : world).
Implicit Types (fs : gmap AsyncPath node).

(** Below a regular file nothing resolves. *)
Lemma resolve_below_file fs q p (d : string) :
  Fs.resolve fs q = inr (File d) -> q `prefix_of` p -> q <> p ->
  Fs.resolve fs p = inl NotADirectoryError.
Proof.
  intros Hq [r ->] Hne.
  induction r as [|c r IH] using rev_ind; [by rewrite app_nil_r in Hne|].
  rewrite app_assoc, resolve_snoc.
  destruct r as [|c' r] using rev_ind.
  - by rewrite app_nil_r, Hq.
  - rewrite IH; [done|]. intros H. apply (f_equal length) in H.
    rewrite !length_app in H. simpl in H. lia.
Qed.

(** With a regular file on the way, [mkdir] tries, tests and raises, and
    changes nothing. *)
Lemma mkdir_blocked p q (d : string) w :
  q `prefix_of` p -> Fs.resolve (files w) q = inr (File d) ->
  exists e, (e = FileExistsError \/ e = NotADirectoryError) /\
    run_coro (mkdir p true true) w
      = ([OsMkdir p; IsDir p], w, Raised (OSError e)).
Proof.
  intros Hq Hr.
  pose proof (file_prefix_not_dir _ _ _ _ Hq Hr) as D.
  assert (Fs.os_mkdir p (files w) = (Some FileExistsError, files w) \/
          Fs.os_mkdir p (files w) = (Some NotADirectoryError, files w)) as Hm.
  { unfold Fs.os_mkdir. destruct (decide (q = p)) as [->|Hne].
    - left. by rewrite Hr.
    - right. by rewrite (resolve_below_file _ _ _ _ Hr Hq Hne). }
  unfold mkdir. pose proof (rev_involutive p) as Hp.
  destruct Hm as [Hm|Hm]; [exists FileExistsError|exists NotADirectoryError];
    (split; [auto|]);
    destruct (rev p) as [|c rp]; simpl in *; subst p;
    rewrite ?Hm; simpl; rewrite ?D; simpl; try done; by destruct w.
Qed.

Lemma pipeline_unfold path output :
  pipeline path output =
  (mkdir (target_folder_of path output) true true ;;
   aioshutil_copy path (target_path_of path output) ;;
   logging INFO (Copied path (target_path_of path output))).
Proof. done. Qed.

End Edges.



(** X5: [main] creates the output outside any [try]. For plain
    arguments (relative, without [..]): with a regular file on the way to
    the output it ends with the [FileExistsError] or [NotADirectoryError]
    of [mkdir], before the source is looked at, with nothing logged and
    nothing changed; with a clear way it returns normally, whatever
    happens to the files. *)
Theorem main_raises_when_output_blocked (sched : list nat) (a : args)
    (w : world) :
  PurePath.plain (source a) = true ->
  PurePath.plain (output a) = true ->
  (forall q d, q `prefix_of` PurePath.of_string (output a) ->
     Fs.resolve (files w) q = inr (File d) ->
     exists e, (e = FileExistsError \/ e = NotADirectoryError) /\
       run_main sched (main a) w =
         ([(None, OsMkdir (PurePath.of_string (output a)));
           (None, IsDir (PurePath.of_string (output a)))],
          w, Raised (OSError e))) /\
  (fs_wf (files w) -> clear_way (files w) (PurePath.of_string (output a)) ->
   (run_main sched (main a) w).2 = Returned tt).
Proof.
  intros _ _. split.
  - intros q d Hq Hr. destruct (mkdir_blocked _ _ _ _ Hq Hr) as (e & He & Hm).
    exists e. split; [done|]. unfold main. by rewrite run_main_lift, Hm.
  - intros Hwf Hc. unfold main. rewrite run_main_lift.
    destruct (mkdir_creates _ w Hwf Hc) as (Hres & _).
    destruct (run_coro (mkdir _ true true) w) as [[tr1 w1] res1].
    simpl in Hres. subst res1.
    pose proof (read_folder_returns sched (PurePath.of_string (source a))
                  (PurePath.of_string (output a)) w1) as Hr.
    by destruct (run_main sched (read_folder _ _) w1) as [[tr2 w2] res2].
Qed.

Lemma main_raises_when_output_blocked_witness :
  (exists e, (e = FileExistsError \/ e = NotADirectoryError) /\
     run_main [] (main (Args "src" "out/txt/deep")) (World scenario_blocked []) =
       ([(None, OsMkdir (PurePath.of_string "out/txt/deep"));
         (None, IsDir (PurePath.of_string "out/txt/deep"))],
        World scenario_blocked [], Raised (OSError e))) /\
  (run_main [] (main (Args "src" "out")) (World scenario_a [])).2 = Returned tt.
Proof.
  split.
  - refine (proj1 (main_raises_when_output_blocked []
                     (Args "src" "out/txt/deep") (World scenario_blocked [])
                     eq_refl eq_refl)
              ["out"; "txt"] "in the way" _ _); [|reflexivity].
    by exists ["deep"].
  - refine (proj2 (main_raises_when_output_blocked []
                     (Args "src" "out") (World scenario_a [])
                     eq_refl eq_refl) _ _).
    + exact scenario_a_wf.
    + apply scenario_a_clear_way. intros q Hq [r Hr].
      repeat (apply elem_of_cons in Hq as [->|Hq]; [by vm_compute in Hr|]).
      by apply elem_of_nil in Hq.
Defined.







(** ** Relations that every operation keeps *)

Section Steps.

Variable R : world -> world -> Prop.
Hypothesis R_refl : forall w, R w w.
Hypothesis R_trans : forall w1 w2 w3, R w1 w2 -> R w2 w3 -> R w1 w3.
Hypothesis R_exec : forall (o : op) w, R w (exec o w).2.

Lemma run_coro_rel {A} (c : coro A) w : R w (run_coro c w).1.2.
Proof.
  revert w. induction c as [a|x|o k IH]; simpl; intros w; [done|done|].
  pose proof (R_exec o w) as G. destruct (exec o w) as [r w1].
  pose proof (IH r w1) as G'. destruct (run_coro (k r) w1) as [[tr w2] res].
  simpl in *. by eapply R_trans.
Qed.

Lemma drain_rel i (todo : list (coro unit)) w : R w (drain i todo w).1.1.2.
Proof.
  revert i w. induction todo as [|c todo IH]; simpl; intros i w; [done|].
  pose proof (run_coro_rel c w) as G.
  destruct (run_coro c w) as [[tr1 w1] [a|x]]; simpl in G; [|done].
  pose proof (IH (S i) w1) as G'.
  destruct (drain (S i) todo w1) as [[[tr2 w2] done] st2]. simpl in *.
  by eapply R_trans.
Qed.

Lemma run_pool_rel sched w (pool : list (coro unit)) :
  R w (run_pool sched w pool).1.1.2.
Proof.
  revert w pool. induction sched as [|i sched IH]; simpl; intros w pool.
  { apply drain_rel. }
  destruct (pool !! i) as [[a|x|o k]|]; try apply IH; [done|].
  pose proof (R_exec o w) as G. destruct (exec o w) as [r w1].
  pose proof (IH w1 (<[i:=k r]> pool)) as G'.
  destruct (run_pool sched w1 (<[i:=k r]> pool)) as [[[tr2 w2] p2] st2].
  simpl in *. by eapply R_trans.
Qed.

Lemma run_main_rel {A} sched (m : mprog A) w : R w (run_main sched m w).1.2.
Proof.
  revert w. induction m as [a|x|e k IH]; simpl; intros w; [done|done|].
  destruct e as [o|tasks].
  - pose proof (R_exec o w) as G. destruct (exec o w) as [r w1].
    pose proof (IH r w1) as G'.
    destruct (run_main sched (k r) w1) as [[tr w2] res]. simpl in *.
    by eapply R_trans.
  - pose proof (run_pool_rel sched w tasks) as G.
    destruct (run_pool sched w tasks) as [[[tr w1] pool'] st]. simpl in G.
    match goal with |- context [run_main sched (k ?r) w1] =>
      pose proof (IH r w1) as G';
      destruct (run_main sched (k r) w1) as [[tr' w2] res] end.
    simpl in *. by eapply R_trans.
Qed.

End Steps.

Lemma exec_log_prefix (o : op) w : log w `prefix_of` log (exec o w).2.
Proof.
  destruct o; simpl; try done.
  - by destruct (Fs.os_mkdir p (files w)).
  - by destruct (Fs.copy src dst (files w)).
  - by eexists.
Qed.

(** X9: whatever the schedule, a run of [main] removes nothing and turns
    no directory into a file or a file into a directory: every path that
    resolved before the run resolves after it to a node of the same kind;
    and the log is only extended at its end, whether the run returns or
    raises. *)
Theorem main_only_adds (sched : list nat) (a : args) (w : world) :
  (forall p n, Fs.resolve (files w) p = inr n ->
     exists n', Fs.resolve (files (run_main sched (main a) w).1.2) p = inr n' /\
                same_kind n n') /\
  log w `prefix_of` log (run_main sched (main a) w).1.2.
Proof.
  apply (run_main_rel
           (fun w0 w1 => fs_grows (files w0) (files w1) /\
                         log w0 `prefix_of` log w1)).
  - intros w0. split; [apply fs_grows_refl|done].
  - intros w1 w2 w3 [F12 L12] [F23 L23].
    split; [by eapply fs_grows_trans|by etrans].
  - intros o w0. split; [apply exec_grows|apply exec_log_prefix].
Qed.

(** ** What a run touches *)

Section Footprint.

Implicit Types (fs : gmap AsyncPath node) (out p q : AsyncPath) (w : world).

Lemma prefix_snoc_cases q p (c : string) :
  q `prefix_of` p ++ [c] -> q `prefix_of` p \/ q = p ++ [c].
Proof.
  intros [r Hr]. destruct r as [|x r _] using rev_ind.
  - right. by rewrite app_nil_r in Hr.
  - left. rewrite app_assoc in Hr. apply app_inj_tail in Hr as [-> _].
    by exists r.
Qed.

Lemma copy_cases (src dst : AsyncPath) fs :
  (Fs.copy src dst fs).2 = fs \/
  exists (data : string) (dst' : AsyncPath),
    (dst' = dst \/ dst' = dst /: PurePath.name src) /\
    (Fs.copy src dst fs).2 = <[dst' := File data]> fs.
Proof.
  unfold Fs.copy, Fs.copyfile.
  destruct (bool_decide _ && Fs.exists_ fs src); [by left|].
  destruct (Fs.resolve fs src) as [|[|data]]; [by left|by left|].
  match goal with |- context [Fs.write ?d data fs] =>
    destruct (write_cases d data fs) as [(-> & _)|[e ->]];
      [right; exists data, d|by left] end.
  split; [|done]. destruct (Fs.is_dir fs dst); auto.
Qed.

Lemma footprint_step fs0 out (o : op) w :
  footprint_op out o -> footprint fs0 out w -> footprint fs0 out (exec o w).2.
Proof.
  intros Ho (Hwf & Hn & Hf).
  split; [by apply exec_wf|].
  destruct o as [| | |q| |src dst|]; simpl in *; try done.
  - destruct (os_mkdir_cases q (files w))
      as [(E & Hne & Hpar & Hq)|[[E _]|[[E _]|[E _]]]];
      rewrite E; simpl; try done.
    assert (files w !! q = None) as Hnone.
    { destruct (files w !! q) as [n|] eqn:L; [|done].
      apply Hwf in L. by rewrite L in Hq. }
    split.
    + intros p d. rewrite lookup_insert. case_decide; [done|]. apply Hn.
    + intros p Hp. rewrite lookup_insert. case_decide as Hpq; [|by apply Hf].
      subst p. destruct Ho as [Ho|Ho]; [|done].
      destruct (Hf q Hp) as [H|(H & _ & H')]; [|by rewrite H' in Hnone].
      right. rewrite <- H. done.
  - destruct Ho as (Hs & Hd & Hout).
    destruct (copy_cases src dst (files w)) as [E|(data & dst' & Hdst & E)].
    { destruct (Fs.copy src dst (files w)). simpl in *. by subst. }
    destruct (Fs.copy src dst (files w)) as [r fs']. simpl in *. subst fs'.
    rewrite (truediv_component _ _ Hs) in Hdst.
    split.
    + intros p d. rewrite lookup_insert. case_decide as Hpd; [|apply Hn].
      intros _. subst p. destruct Hdst as [->| ->]; [done|].
      by rewrite name_snoc.
    + intros p Hp. rewrite lookup_insert_ne; [by apply Hf|].
      intros <-. apply Hp. destruct Hdst as [->| ->]; [done|].
      by apply prefix_app_r.
Qed.

Lemma copy_file_footprint_ops (path out : AsyncPath) :
  PurePath.component (PurePath.name path) = true ->
  ops_all (footprint_op out) (copy_file path out).
Proof.
  intros Hc. pose proof (component_inv _ Hc) as (_ & _ & Hs).
  eapply ops_all_mono; [|apply copy_file_ops].
  intros o Ho. destruct o as [| | |q| |src dst|]; simpl in *; try done.
  - rewrite (target_folder_snoc _ _ Hs) in Ho.
    apply prefix_snoc_cases in Ho as [Ho| ->]; [by left|right].
    by apply prefix_app_r.
  - destruct Ho as [-> ->]. split; [done|].
    rewrite (target_path_snoc _ _ Hc).
    split; [|by apply prefix_app_r].
    change [bucket_of path; PurePath.name path]
      with ([bucket_of path] ++ [PurePath.name path]).
    by rewrite app_assoc, name_snoc.
Qed.

End Footprint.

(** X10: for plain arguments (relative, without [..]), in a well-formed
    file system whose regular files have proper names, a run of [main]
    touches only the output folder: whatever the schedule, every entry
    that is not inside the output is as before, but for the missing
    directories on the way to the output, which are created. In
    particular the source files outside the output are never modified. *)
Theorem main_footprint (sched : list nat) (a : args) (w : world) (p : AsyncPath) :
  PurePath.plain (source a) = true ->
  PurePath.plain (output a) = true ->
  fs_wf (files w) ->
  (forall q d, files w !! q = Some (File d) ->
     PurePath.component (PurePath.name q) = true) ->
  ~ PurePath.of_string (output a) `prefix_of` p ->
  files (run_main sched (main a) w).1.2 !! p = files w !! p \/
  (files w !! p = None /\ p `prefix_of` PurePath.of_string (output a) /\
   files (run_main sched (main a) w).1.2 !! p = Some Dir).
Proof.
  intros _ _ Hwf Hn Hp.
  set (out := PurePath.of_string (output a)) in *.
  assert (footprint (files w) out w) as J0.
  { split; [done|]. split; [done|]. by left. }
  assert (footprint (files w) out (run_main sched (main a) w).1.2)
    as (_ & _ & J); [|by apply J].
  unfold main. fold out. rewrite run_main_lift.
  pose proof (run_coro_invariant (footprint (files w) out) (footprint_op out)
                (mkdir out true true) w (footprint_step (files w) out)) as J1.
  destruct (run_coro (mkdir out true true) w) as [[tr1 w1] [[]|x]];
    cbn [fst snd] in J1.
  2:{ apply J1; [|done]. eapply ops_all_mono; [|apply mkdir_ops].
      intros o Ho. destruct o; simpl in *; try done. by left. }
  assert (footprint (files w) out w1) as J1'.
  { apply J1; [|done]. eapply ops_all_mono; [|apply mkdir_ops].
    intros o Ho. destruct o; simpl in *; try done. by left. }
  clear J1. rewrite read_folder_run.
  destruct (negb (Fs.exists_ (files w1) _)); [done|].
  destruct (tasks_of (files w1) _ out) as [|t ts] eqn:T; [done|].
  rewrite <- T.
  pose proof (run_pool_invariant (footprint (files w) out) (footprint_op out)
                sched (tasks_of (files w1) (PurePath.of_string (source a)) out)
                w1 (footprint_step (files w) out)) as J2.
  destruct (run_pool sched w1 _) as [[[tr2 w2] pool'] st]. cbn [fst snd] in *.
  apply J2; [|done]. unfold tasks_of. apply Forall_forall.
  intros c (path & -> & Hpath)%list_elem_of_fmap.
  apply copy_file_footprint_ops.
  apply discovered_spec in Hpath as (_ & _ & Hf).
  destruct (file_in_map _ _ Hf) as [d Hd].
  destruct J1' as (_ & Hn1 & _). by eapply Hn1.
Qed.

Lemma main_footprint_witness :
  files (run_main [1; 0; 2; 1]%nat (main (Args "src" "out"))
           (World scenario_a [])).1.2 !! ["src"; "a.TXT"]
    = files (World scenario_a []) !! ["src"; "a.TXT"] \/
  (files (World scenario_a []) !! ["src"; "a.TXT"] = None /\
   ["src"; "a.TXT"] `prefix_of` PurePath.of_string (output (Args "src" "out")) /\
   files (run_main [1; 0; 2; 1]%nat (main (Args "src" "out"))
            (World scenario_a [])).1.2 !! ["src"; "a.TXT"] = Some Dir).
Proof.
  apply (main_footprint [1; 0; 2; 1]%nat (Args "src" "out")
           (World scenario_a []) ["src"; "a.TXT"]).
  - reflexivity.
  - reflexivity.
  - exact scenario_a_wf.
  - intros q d H%scenario_a_lookup.
    repeat (apply elem_of_cons in H as [H|H]; [by simplify_eq|]).
    by apply elem_of_nil in H.
  - intros [r Hr]. vm_compute in Hr. discriminate.
Defined.

(** ** The lines of the log *)

Section LogLines.

Implicit Types (w : world) (ns : list nat) (pool todo : list (coro unit)).

Lemma logs_left_bind {A B} (j j' : nat) (e : option nat) (n : nat)
    (c : coro A) (f : A -> coro B) :
  logs_left j e n c -> (forall a, logs_left j' e j (f a)) ->
  logs_left j' e n (bind c f).
Proof.
  intros Hc Hf. revert n Hc.
  induction c as [a|x|o k IH]; simpl; intros n Hc; [by subst|done|].
  destruct (is_logging o).
  - destruct Hc as (n' & -> & Hk). exists n'. split; [done|]. auto.
  - auto.
Qed.

Lemma logs_left_try {A} (j m : nat) (e : option nat) (n : nat)
    (c : coro A) (h : exn -> coro A) :
  logs_left j (Some m) n c -> (forall x, logs_left j e m (h x)) ->
  logs_left j e n (try_except c h).
Proof.
  intros Hc Hh. revert n Hc.
  induction c as [a|x|o k IH]; simpl; intros n Hc; [done| |].
  - destruct Hc as [Hx [= ->]]. unfold caught in Hx. by rewrite Hx.
  - destruct (is_logging o).
    + destruct Hc as (n' & -> & Hk). exists n'. split; [done|]. auto.
    + auto.
Qed.

(** A coroutine that does not log leaves the count as it is. *)
Lemma logs_left_quiet {A} (n : nat) (c : coro A) :
  ops_all (fun o => is_logging o = false) c -> raises_all caught c ->
  logs_left n (Some n) n c.
Proof.
  induction c as [a|x|o k IH]; simpl; [done|done|].
  intros [-> Hk] Hr. auto.
Qed.

Lemma copy_file_logs_once (path output : AsyncPath) :
  logs_left 0 None 1 (copy_file path output).
Proof.
  rewrite copy_file_unfold.
  apply logs_left_try with 1%nat; [|by intros x; exists 0%nat].
  apply logs_left_bind with 1%nat.
  { apply logs_left_quiet; [|apply mkdir_raises].
    eapply ops_all_mono; [|apply mkdir_ops]. by intros []. }
  intros _. apply logs_left_bind with 1%nat.
  { apply logs_left_quiet; [|by intros [e|]]. simpl. split; [done|].
    by intros [e|]. }
  intros _. by exists 0%nat.
Qed.

Lemma exec_log_length (o : op) w :
  length (log (exec o w).2) =
  (length (log w) + (if is_logging o then 1 else 0))%nat.
Proof.
  destruct o; simpl; try lia.
  - destruct (Fs.os_mkdir p (files w)). simpl. lia.
  - destruct (Fs.copy src dst (files w)). simpl. lia.
  - rewrite length_app. simpl. lia.
Qed.

Lemma run_coro_logs {A} (n : nat) (c : coro A) w :
  logs_left 0 None n c ->
  (exists a, (run_coro c w).2 = Returned a) /\
  length (log (run_coro c w).1.2) = (length (log w) + n)%nat.
Proof.
  revert n w. induction c as [a|x|o k IH]; simpl; intros n w Hc.
  - subst. split; [eauto|lia].
  - by destruct Hc.
  - pose proof (exec_log_length o w) as L.
    destruct (exec o w) as [r w1]. simpl in L.
    destruct (is_logging o).
    + destruct Hc as (n' & -> & Hk).
      destruct (IH r n' w1 (Hk r)) as [[a Ha] Hl].
      destruct (run_coro (k r) w1) as [[tr w2] res]. simpl in *.
      split; [eauto|lia].
    + destruct (IH r n w1 (Hc r)) as [[a Ha] Hl].
      destruct (run_coro (k r) w1) as [[tr w2] res]. simpl in *.
      split; [eauto|lia].
Qed.

Lemma drain_logs i todo ns w :
  Forall2 (logs_left 0 None) ns todo ->
  length (log (drain i todo w).1.1.2) = (length (log w) + sum_list ns)%nat.
Proof.
  intros H. revert i w.
  induction H as [|n c ns todo Hc H IH]; simpl; intros i w; [lia|].
  destruct (run_coro_logs n c w Hc) as [[a Ha] Hl].
  destruct (run_coro c w) as [[tr1 w1] res]. simpl in Ha, Hl. subst res.
  specialize (IH (S i) w1).
  destruct (drain (S i) todo w1) as [[[tr2 w2] done] st2]. simpl in *. lia.
Qed.

Lemma sum_list_insert ns (i n m : nat) :
  ns !! i = Some n ->
  (sum_list (<[i := m]> ns) + n = sum_list ns + m)%nat.
Proof.
  revert i. induction ns as [|x ns IH]; intros [|i]; simpl; try done.
  - intros [= ->]. lia.
  - intros H. specialize (IH i H). lia.
Qed.

Lemma run_pool_logs sched w pool ns :
  Forall2 (logs_left 0 None) ns pool ->
  length (log (run_pool sched w pool).1.1.2) = (length (log w) + sum_list ns)%nat.
Proof.
  revert w pool ns. induction sched as [|i sched IH]; simpl; intros w pool ns H.
  { by apply drain_logs. }
  destruct (pool !! i) as [[a|x|o k]|] eqn:L; try by apply IH.
  - destruct (Forall2_lookup_r _ _ _ _ _ H L) as (n & _ & Hc).
    simpl in Hc. by destruct Hc.
  - destruct (Forall2_lookup_r _ _ _ _ _ H L) as (n & Hn & Hc). simpl in Hc.
    pose proof (exec_log_length o w) as Hl.
    destruct (exec o w) as [r w1]. simpl in Hl.
    destruct (is_logging o).
    + destruct Hc as (n' & -> & Hk).
      specialize (IH w1 (<[i:=k r]> pool) (<[i:=n']> ns)
                    (Forall2_insert _ _ _ _ _ _ H (Hk r))).
      pose proof (sum_list_insert ns i (S n') n' Hn).
      destruct (run_pool sched w1 (<[i:=k r]> pool)) as [[[tr2 w2] p2] st2].
      simpl in *. lia.
    + specialize (IH w1 (<[i:=k r]> pool) (<[i:=n]> ns)
                    (Forall2_insert _ _ _ _ _ _ H (Hc r))).
      pose proof (sum_list_insert ns i n n Hn).
      destruct (run_pool sched w1 (<[i:=k r]> pool)) as [[[tr2 w2] p2] st2].
      simpl in *. lia.
Qed.

Lemma run_main_log_prefix {A} sched (m : mprog A) w :
  log w `prefix_of` log (run_main sched m w).1.2.
Proof.
  apply (run_main_rel (fun w0 w1 => log w0 `prefix_of` log w1));
    [done|by intros; etrans|apply exec_log_prefix].
Qed.

Lemma sum_list_ones (n : nat) : sum_list (replicate n 1%nat) = n.
Proof. induction n; simpl; lia. Qed.

End LogLines.

(** X11: whatever the schedule, [read_folder] adds to the end of the log
    exactly one line for every regular file that the walk finds, and
    exactly one line when it finds none (the error for a missing source or
    the warning). *)
Theorem read_folder_log_lines (sched : list nat) (source output : AsyncPath)
    (w : world) :
  exists l,
    log (run_main sched (read_folder source output) w).1.2 = log w ++ l /\
    length l = Nat.max 1 (length (discovered (files w) source)).
Proof.
  destruct (run_main_log_prefix sched (read_folder source output) w) as [l Hl].
  exists l. split; [done|].
  apply (f_equal length) in Hl. rewrite length_app in Hl.
  enough (length (log (run_main sched (read_folder source output) w).1.2)
          = (length (log w) + Nat.max 1 (length (discovered (files w) source)))%nat)
    by lia.
  clear l Hl. rewrite read_folder_run.
  destruct (Fs.exists_ (files w) source) eqn:E; simpl.
  2:{ assert (discovered (files w) source = []) as ->.
      { unfold discovered, Fs.rglob, Fs.is_dir, Fs.exists_ in *.
        by destruct (Fs.resolve (files w) source). }
      rewrite length_app. simpl. lia. }
  unfold tasks_of.
  pose proof (run_pool_logs sched w
                ((fun path => copy_file path output) <$> discovered (files w) source)
                (replicate (length (discovered (files w) source)) 1%nat)) as H.
  rewrite sum_list_ones in H.
  assert (Forall2 (logs_left 0 None)
            (replicate (length (discovered (files w) source)) 1%nat)
            ((fun path => copy_file path output) <$> discovered (files w) source))
    as HF.
  { apply Forall2_same_length_lookup_2.
    { by rewrite length_replicate, length_fmap. }
    intros j n c Hn Hc. apply lookup_replicate in Hn as [-> _].
    rewrite list_lookup_fmap in Hc.
    destruct (discovered (files w) source !! j); simplify_eq/=.
    apply copy_file_logs_once. }
  specialize (H HF). clear HF.
  destruct (discovered (files w) source) as [|path paths].
  { simpl. rewrite length_app. simpl. lia. }
  cbn [fmap list_fmap] in *.
  destruct (run_pool sched w _) as [[[tr w'] pool'] st]. cbn [fst snd] in *.
  rewrite H. simpl. lia.
Qed.

(** ** Coroutines that keep an invariant *)

Section Wpg.

Variable I : world -> Prop.

Lemma wpg_mono {A} (c : coro A) w (Q Q' : outcome A -> world -> Prop) :
  (forall r w', I w' -> Q r w' -> Q' r w') -> I w -> wpg I c w Q -> wpg I c w Q'.
Proof.
  intros HQ. revert w. induction c as [a|x|o k IH]; simpl; intros w Hw; auto.
  intros H w1 G I1. destruct (H w1 G I1) as [I2 H2]. split; [done|]. auto.
Qed.

Lemma wpg_grows {A} (c : coro A) w w' (Q : outcome A -> world -> Prop) :
  stable Q -> grows w w' -> wpg I c w Q -> wpg I c w' Q.
Proof.
  intros HQ G. destruct c as [a|x|o k]; simpl; [by apply HQ|by apply HQ|].
  intros H w1 G1. apply H. by eapply grows_trans.
Qed.

Lemma wpg_bind {A B} (c : coro A) (f : A -> coro B) w
    (Q : outcome B -> world -> Prop) :
  wpg I c w (fun r w' =>
               match r with
               | Returned a => wpg I (f a) w' Q
               | Raised x => Q (Raised x) w'
               end) ->
  wpg I (bind c f) w Q.
Proof.
  revert w. induction c as [a|x|o k IH]; simpl; intros w; auto.
  intros H w1 G I1. destruct (H w1 G I1) as [I2 H2]. split; [done|]. auto.
Qed.

Lemma wpg_try {A} (c : coro A) (h : exn -> coro A) w
    (Q : outcome A -> world -> Prop) :
  wpg I c w (fun r w' =>
               match r with
               | Returned a => Q (Returned a) w'
               | Raised x => if is_Exception x then wpg I (h x) w' Q
                             else Q (Raised x) w'
               end) ->
  wpg I (try_except c h) w Q.
Proof.
  revert w. induction c as [a|x|o k IH]; simpl; intros w; auto.
  - by destruct (is_Exception x).
  - intros H w1 G I1. destruct (H w1 G I1) as [I2 H2]. split; [done|]. auto.
Qed.

(** What [wp] gives to a coroutine whose operations keep [I]. *)
Lemma wp_wpg {A} (P : op -> Prop) (c : coro A) w
    (Q : outcome A -> world -> Prop) :
  (forall o w0, P o -> I w0 -> I (exec o w0).2) ->
  ops_all P c -> wp c w Q -> I w -> wpg I c w (fun r w' => Q r w' /\ I w').
Proof.
  intros HP. revert w. induction c as [a|x|o k IH]; simpl; intros w; auto.
  intros [Ho Hk] H Hw w1 G I1. split; [by apply HP|].
  apply IH; [apply Hk|by apply H|by apply HP].
Qed.

Lemma run_coro_wpg {A} (c : coro A) w (Q : outcome A -> world -> Prop) :
  I w -> wpg I c w Q ->
  I (run_coro c w).1.2 /\ Q (run_coro c w).2 (run_coro c w).1.2.
Proof.
  revert w. induction c as [a|x|o k IH]; simpl; intros w Hw; auto.
  intros H. destruct (H w (grows_refl w) Hw) as [I1 H1].
  destruct (exec o w) as [r w1]. simpl in *.
  specialize (IH r w1 I1 H1).
  by destruct (run_coro (k r) w1) as [[tr w2] res].
Qed.

Lemma drain_wpg (Q : nat -> outcome unit -> world -> Prop) i
    (todo : list (coro unit)) w tr w' pool' st :
  (forall j, stable (Q j)) -> I w ->
  (forall j c, todo !! j = Some c -> wpg I c w (Q j)) ->
  drain i todo w = (tr, w', pool', st) ->
  I w' /\ forall j c', pool' !! j = Some c' -> wpg I c' w' (Q j).
Proof.
  revert Q i w tr w' pool' st.
  induction todo as [|c todo IH]; simpl; intros Q i w tr w' pool' st HQ Hw Hwp.
  { intros [= <- <- <- <-]. split; [done|]. by intros j c'. }
  pose proof (run_coro_grows c w) as G.
  destruct (run_coro_wpg c w (Q 0%nat) Hw (Hwp 0%nat c eq_refl)) as [I1 Q1].
  destruct (run_coro c w) as [[tr1 w1] [a|x]]; simpl in G, I1, Q1.
  - destruct (drain (S i) todo w1) as [[[tr2 w2] done] st2] eqn:E.
    intros [= <- <- <- <-].
    destruct (drain_spec _ _ _ _ _ _ _ E) as (G2 & _).
    destruct (IH (fun j => Q (S j)) _ _ _ _ _ _ (fun j => HQ (S j)) I1
                (fun j c0 Hc => wpg_grows c0 w w1 _ (HQ (S j)) G (Hwp (S j) c0 Hc))
                E) as [I2 H2].
    split; [done|]. intros [|j] c'; simpl.
    + intros [= <-]. simpl. by eapply HQ.
    + apply H2.
  - intros [= <- <- <- <-]. split; [done|]. intros [|j] c'; simpl.
    + by intros [= <-].
    + intros Hc. eapply wpg_grows; [apply HQ|exact G|]. by apply (Hwp (S j)).
Qed.

(** What [wpg] promises to every coroutine holds at the end of the
    [gather], whatever the schedule, and the invariant with it. *)
Lemma run_pool_wpg (Q : nat -> outcome unit -> world -> Prop) sched w
    (pool : list (coro unit)) tr w' pool' st :
  (forall j, stable (Q j)) -> I w ->
  (forall j c, pool !! j = Some c -> wpg I c w (Q j)) ->
  run_pool sched w pool = (tr, w', pool', st) ->
  I w' /\ forall j c', pool' !! j = Some c' -> wpg I c' w' (Q j).
Proof.
  intros HQ. revert w pool tr w' pool' st.
  induction sched as [|i sched IH]; simpl; intros w pool tr w' pool' st Hw Hwp.
  { by apply drain_wpg. }
  destruct (pool !! i) as [[a|x|o k]|] eqn:L; try by apply IH.
  - intros [= <- <- <- <-]. done.
  - pose proof (exec_grows o w) as G.
    pose proof (Hwp i _ L) as Hi. simpl in Hi.
    destruct (Hi w (grows_refl w) Hw) as [I1 H1].
    destruct (exec o w) as [r w1]. simpl in *.
    destruct (run_pool sched w1 (<[i:=k r]> pool)) as [[[tr2 w2] p2] st2] eqn:E.
    intros [= <- <- <- <-].
    eapply IH; [exact I1| |exact E].
    intros j c Hj. destruct (decide (j = i)) as [->|Hne].
    + rewrite list_lookup_insert_eq in Hj by by eapply lookup_lt_Some.
      by injection Hj as <-.
    + rewrite list_lookup_insert_ne in Hj by done.
      eapply wpg_grows; [apply HQ|exact G|]. by apply Hwp.
Qed.

End Wpg.

(** ** The batch, file by file *)

Section BatchCopy.

Variable fs0 : gmap AsyncPath node.
Variable l0 : list (level * message).
Variable paths : list AsyncPath.
Variable output : AsyncPath.

Hypothesis fs0_wf : fs_wf fs0.
Hypothesis paths_files :
  forall path, path ∈ paths -> Fs.is_file fs0 path = true.
Hypothesis paths_names :
  forall path, path ∈ paths -> PurePath.component (PurePath.name path) = true.
Hypothesis paths_clear :
  forall path, path ∈ paths -> clear_way fs0 (target_folder_of path output).
Hypothesis paths_fresh :
  forall path, path ∈ paths ->
    Fs.exists_ fs0 (target_path_of path output) = false.

Local Abbreviation I := (batch_inv fs0 l0 paths output).

Lemma paths_data path :
  path ∈ paths -> exists d, Fs.resolve fs0 path = inr (File d).
Proof.
  intros H%paths_files. unfold Fs.is_file in H.
  destruct (Fs.resolve fs0 path) as [|[|d]]; try done. by exists d.
Qed.

Lemma source_not_target path1 path2 :
  path1 ∈ paths -> path2 ∈ paths -> path1 <> target_path_of path2 output.
Proof.
  intros [d H1]%paths_data H2%paths_fresh ->.
  unfold Fs.exists_ in H2. by rewrite H1 in H2.
Qed.

Lemma target_path_length path :
  path ∈ paths ->
  length (target_path_of path output) = S (S (length output)).
Proof.
  intros H%paths_names. rewrite (target_path_snoc _ _ H), length_app.
  simpl. lia.
Qed.

Lemma target_folder_length path :
  path ∈ paths -> length (target_folder_of path output) = S (length output).
Proof.
  intros H%paths_names. pose proof (component_inv _ H) as (_ & _ & Hs).
  rewrite (target_folder_snoc _ _ Hs), length_app. simpl. lia.
Qed.

Lemma target_not_on_the_way path1 path2 q :
  path1 ∈ paths -> path2 ∈ paths ->
  q `prefix_of` target_folder_of path2 output ->
  q <> target_path_of path1 output.
Proof.
  intros H1%target_path_length H2%target_folder_length Hq%prefix_length ->.
  lia.
Qed.

Lemma same_target_same_name path1 path2 :
  path1 ∈ paths -> path2 ∈ paths ->
  target_path_of path1 output = target_path_of path2 output ->
  PurePath.name path1 = PurePath.name path2.
Proof.
  intros H1%paths_names H2%paths_names.
  rewrite (target_path_snoc _ _ H1), (target_path_snoc _ _ H2).
  intros H%app_inv_head. by injection H.
Qed.

Lemma batch_inv_start w : files w = fs0 -> log w = l0 -> I w.
Proof.
  intros Hf Hl. split; [by rewrite Hf|]. split.
  - intros path Hp. rewrite Hf. split; [done|]. split; [by apply paths_clear|].
    intros n Hn. apply paths_fresh in Hp. unfold Fs.exists_ in Hp.
    by rewrite Hn in Hp.
  - exists []. by rewrite app_nil_r.
Qed.

(** The operations of [mkdir] on a target folder keep the invariant. *)
Lemma batch_inv_mkdir path (o : op) w :
  path ∈ paths -> mkdir_op (target_folder_of path output) o ->
  I w -> I (exec o w).2.
Proof.
  intros Hpath Ho (Hwf & Hp & Hl).
  destruct o as [| | |q| | |]; simpl in *; try done.
  destruct (os_mkdir_cases q (files w))
    as [(E & Hne & Hpar & Hq)|[[E _]|[[E _]|[E _]]]];
    rewrite E; simpl; try done.
  split; [|split; [|done]]; simpl.
  { apply fs_wf_insert; try done. intros m. by rewrite Hq. }
  intros path' Hpath'. destruct (Hp path' Hpath') as (Hsrc & Hway & Htgt).
  split; [|split].
  - destruct (paths_data path' Hpath') as [d Hd].
    rewrite <- Hsrc in Hd |- *.
    rewrite (resolve_insert _ q Dir path' (File d)); [|by intros m; rewrite Hq|done].
    rewrite decide_False; [done|]. intros ->. by rewrite Hd in Hq.
  - pose proof (os_mkdir_clear_way (target_folder_of path' output) q
                  (files w) Hwf Hway) as H.
    by rewrite E in H.
  - intros n Hn. apply Htgt. eapply resolve_insert_inv; [done|exact Hn|].
    intros H. by eapply (target_not_on_the_way path' path q).
Qed.

(** The write of a copy keeps the invariant. *)
Lemma batch_inv_copy path (d : string) w :
  path ∈ paths -> Fs.resolve fs0 path = inr (File d) ->
  Fs.resolve (files w) (target_folder_of path output) = inr Dir ->
  I w ->
  I (World (<[target_path_of path output := File d]> (files w)) (log w)).
Proof.
  intros Hpath Hd Hdir (Hwf & Hp & Hl).
  set (tp := target_path_of path output).
  assert (tp = target_folder_of path output ++ [PurePath.name path]) as Htp.
  { apply truediv_component. by apply paths_names. }
  assert (tp <> []) as Hne.
  { rewrite Htp. by destruct (target_folder_of path output). }
  assert (Fs.resolve (files w) (PurePath.parent tp) = inr Dir) as Hpar.
  { by rewrite Htp, parent_snoc. }
  assert (forall m, Fs.resolve (files w) tp = inr m -> same_kind m (File d))
    as Hkind.
  { intros m Hm. destruct (Hp path Hpath) as (_ & _ & Htgt).
    destruct (Htgt m Hm) as (path' & Hpath' & _ & Hm').
    destruct (paths_data path' Hpath') as [d' Hd']. rewrite Hd' in Hm'.
    by injection Hm' as <-. }
  split; [|split; [|done]]; simpl.
  { by apply fs_wf_insert. }
  intros path' Hpath'. destruct (Hp path' Hpath') as (Hsrc & Hway & Htgt).
  split; [|split].
  - destruct (paths_data path' Hpath') as [d' Hd'].
    rewrite <- Hsrc in Hd' |- *.
    rewrite (resolve_insert _ tp (File d) path' (File d') Hkind Hd').
    rewrite decide_False; [done|]. by apply source_not_target.
  - intros q d' Hq Hr. apply (Hway q d' Hq).
    eapply resolve_insert_inv; [done|exact Hr|].
    by eapply (target_not_on_the_way path path').
  - intros n Hn.
    destruct (decide (target_path_of path' output = tp)) as [Heq|Hneq].
    + rewrite Heq, (resolve_insert_self _ tp (File d) Hne Hpar Hkind) in Hn.
      injection Hn as <-. exists path. split; [done|]. split; [|done].
      symmetry. by apply same_target_same_name.
    + apply Htgt. by eapply resolve_insert_inv.
Qed.

Lemma batch_inv_log path w :
  path ∈ paths -> I w ->
  I (World (files w)
       (log w ++ [(INFO, Copied path (target_path_of path output))])).
Proof.
  intros Hpath (Hwf & Hp & l & Hl & Hall). split; [done|]. split; [done|].
  exists (l ++ [(INFO, Copied path (target_path_of path output))]). simpl.
  split; [by rewrite Hl, app_assoc|].
  apply Forall_app. split; [done|]. constructor; [|done]. by exists path.
Qed.

Lemma copied_stable path : stable (copied path output).
Proof.
  intros r w w' [F L] (-> & Hlog & d & Hd). split; [done|].
  split; [by apply L|]. by eapply fs_grows_file.
Qed.

Lemma copied_at_stable j : stable (copied_at paths output j).
Proof.
  unfold copied_at. destruct (paths !! j); [apply copied_stable|done].
Qed.

(** One [copy_file] of the batch, among the others. *)
Lemma copy_file_wpg path w :
  path ∈ paths -> I w ->
  wpg I (copy_file path output) w (copied path output).
Proof.
  intros Hpath Hw. destruct (paths_data path Hpath) as [d Hd].
  set (tf := target_folder_of path output).
  set (tp := target_path_of path output).
  assert (tp = tf ++ [PurePath.name path]) as Htp.
  { apply truediv_component. by apply paths_names. }
  rewrite copy_file_unfold. fold tf tp. apply wpg_try, wpg_bind.
  eapply wpg_mono; [|done|].
  2:{ apply (wp_wpg I (mkdir_op tf)); [|apply mkdir_ops|apply mkdir_wp|done].
      intros o w0. by apply batch_inv_mkdir. }
  intros [[]|x] w1 I1 [Hpost _]; simpl in Hpost.
  2:{ destruct Hpost as (_ & q & d' & Hq & Hr).
      destruct I1 as (_ & Hp & _). destruct (Hp path Hpath) as (_ & Hway & _).
      by destruct (Hway q d'). }
  simpl. intros w2 G2 I2.
  pose proof (fs_grows_dir _ _ _ (proj1 G2) Hpost) as Hdir.
  assert (Fs.copy path tp (files w2) = (None, <[tp := File d]> (files w2)))
    as Hcopy.
  { destruct I2 as (_ & Hp & _). destruct (Hp path Hpath) as (Hsrc & _ & Htgt).
    assert (Fs.is_dir (files w2) tp = false) as Hnd.
    { unfold Fs.is_dir. destruct (Fs.resolve (files w2) tp) as [|[|]] eqn:E; try done.
      destruct (Htgt _ E) as (path' & Hpath' & _ & Hn).
      destruct (paths_data path' Hpath') as [d' Hd']. by rewrite Hd' in Hn. }
    unfold Fs.copy, Fs.copyfile. rewrite Hnd.
    rewrite (bool_decide_eq_false_2 _ (source_not_target path path Hpath Hpath)).
    rewrite Hsrc, Hd. simpl.
    apply write_ok; [by rewrite Htp; destruct tf| |done].
    by rewrite Htp, parent_snoc. }
  rewrite Hcopy. simpl.
  pose proof (batch_inv_copy path d w2 Hpath Hd Hdir I2) as I3.
  split; [exact I3|].
  intros w3 G3 I4. split; [by apply batch_inv_log|].
  split; [done|]. split; [simpl; set_solver|]. simpl.
  eapply fs_grows_file; [exact (proj1 G3)|]. simpl.
  destruct I3 as (Hwf3 & _). apply Hwf3. simpl. by rewrite lookup_insert_eq.
Qed.

(** The batch under [gather]: every file is copied, whatever the
    schedule. *)
Lemma gather_copies sched w tr w' pool' st :
  files w = fs0 -> log w = l0 ->
  run_pool sched w ((fun path => copy_file path output) <$> paths)
    = (tr, w', pool', st) ->
  I w' /\ forall path, path ∈ paths -> copied path output (Returned tt) w'.
Proof.
  intros Hf Hl E.
  pose proof (batch_inv_start w Hf Hl) as Hw.
  destruct (run_pool_wpg I (copied_at paths output) sched w
              ((fun path => copy_file path output) <$> paths) tr w' pool' st
              copied_at_stable Hw) as [Hw' H]; [|exact E|].
  { intros j c Hj. rewrite list_lookup_fmap in Hj. unfold copied_at.
    destruct (paths !! j) as [path|] eqn:Hp; [|done].
    injection Hj as <-. apply copy_file_wpg; [|done].
    by eapply list_elem_of_lookup_2. }
  split; [done|].
  destruct (gather_copy_files _ _ _ _ _ _ _ _ E) as (_ & R & Len & _).
  intros path [j Hj]%list_elem_of_lookup.
  assert (is_Some (pool' !! j)) as [c' Hc'].
  { apply lookup_lt_is_Some. rewrite Len. by eapply lookup_lt_Some. }
  specialize (H j c' Hc'). unfold copied_at in H. rewrite Hj in H.
  pose proof (Forall_lookup_1 _ _ _ _ R Hc') as Hret.
  destruct c' as [[]| |]; done.
Qed.

End BatchCopy.

(** [read_folder] on a batch that is ready to be copied. *)
Lemma read_folder_batch (sched : list nat) (source output : AsyncPath)
    (w : world) (path : AsyncPath) :
  fs_wf (files w) ->
  (forall path', path' ∈ discovered (files w) source ->
     PurePath.component (PurePath.name path') = true /\
     clear_way (files w) (target_folder_of path' output) /\
     Fs.exists_ (files w) (target_path_of path' output) = false) ->
  path ∈ discovered (files w) source ->
  batch_inv (files w) (log w) (discovered (files w) source) output
    (run_main sched (read_folder source output) w).1.2 /\
  forall path', path' ∈ discovered (files w) source ->
    copied path' output (Returned tt)
      (run_main sched (read_folder source output) w).1.2.
Proof.
  intros Hwf Hall Hpath. rewrite read_folder_run.
  pose proof (proj1 (discovered_spec _ _ _) Hpath) as (D & _).
  assert (Fs.exists_ (files w) source = true) as ->.
  { unfold Fs.is_dir, Fs.exists_ in *.
    by destruct (Fs.resolve (files w) source). }
  simpl. unfold tasks_of.
  destruct (_ <$> discovered (files w) source) as [|t ts] eqn:T.
  { apply (f_equal length) in T. rewrite length_fmap in T.
    destruct (discovered (files w) source); [by apply elem_of_nil in Hpath|done]. }
  rewrite <- T.
  destruct (run_pool sched w _) as [[[tr w'] pool'] st] eqn:E.
  cbn [fst snd].
  exact (gather_copies (files w) (log w) (discovered (files w) source) output
           Hwf
           (fun p Hp => proj2 (proj2 (proj1 (discovered_spec _ _ _) Hp)))
           (fun p Hp => proj1 (Hall p Hp))
           (fun p Hp => proj1 (proj2 (Hall p Hp)))
           (fun p Hp => proj2 (proj2 (Hall p Hp)))
           sched w tr w' pool' st eq_refl eq_refl E).
Qed.


(** The three files of Scenario A have three names. *)
Lemma scenario_a_names (source : AsyncPath) (p1 p2 : AsyncPath) :
  p1 ∈ discovered scenario_a source -> p2 ∈ discovered scenario_a source ->
  PurePath.name p1 = PurePath.name p2 -> p1 = p2.
Proof.
  intros (_ & _ & F1)%discovered_spec (_ & _ & F2)%discovered_spec.
  destruct (file_in_map _ _ F1) as [d1 H1%scenario_a_lookup].
  destruct (file_in_map _ _ F2) as [d2 H2%scenario_a_lookup].
  repeat (apply elem_of_cons in H1 as [H1|H1];
          [simplify_eq;
           repeat (apply elem_of_cons in H2 as [H2|H2];
                   [by simplify_eq|]);
           by apply elem_of_nil in H2|]).
  by apply elem_of_nil in H1.
Qed.

(** The files of Scenario A are ready to be copied to [out]. *)
Lemma scenario_a_ready (source output : AsyncPath) (path : AsyncPath) :
  (forall q, q ∈ [["src"; "a.TXT"]; ["src"; "sub"; "b.txt"]; ["src"; "c"]] ->
     forall b, ~ q `prefix_of` output ++ [b]) ->
  (forall q, q ∈ [["src"; "a.TXT"]; ["src"; "sub"; "b.txt"]; ["src"; "c"]] ->
     Fs.exists_ scenario_a (target_path_of q output) = false) ->
  path ∈ discovered scenario_a source ->
  PurePath.component (PurePath.name path) = true /\
  clear_way scenario_a (target_folder_of path output) /\
  Fs.exists_ scenario_a (target_path_of path output) = false.
Proof.
  intros Hway Hfresh (_ & _ & Hf)%discovered_spec.
  destruct (file_in_map _ _ Hf) as [d H%scenario_a_lookup].
  assert (path ∈ [["src"; "a.TXT"]; ["src"; "sub"; "b.txt"]; ["src"; "c"]])
    as Hin.
  { repeat (apply elem_of_cons in H as [H|H]; [simplify_eq; set_solver|]).
    by apply elem_of_nil in H. }
  assert (PurePath.component (PurePath.name path) = true) as Hc.
  { repeat (apply elem_of_cons in Hin as [->|Hin]; [reflexivity|]).
    by apply elem_of_nil in Hin. }
  split; [done|]. split; [|by apply Hfresh].
  pose proof (component_inv _ Hc) as (_ & _ & Hs).
  rewrite (target_folder_snoc _ _ Hs).
  apply scenario_a_clear_way. intros q Hq. by apply Hway.
Qed.


(** ** From the command line to the copies *)

Section EndToEnd.

Implicit Types (fs : gmap AsyncPath node) (out p q : AsyncPath) (w : world).

Lemma same_files_step fs0 out l0 (o : op) w :
  mkdir_op out o -> same_files fs0 out l0 w -> same_files fs0 out l0 (exec o w).2.
Proof.
  intros Ho (Hwf & Hl & Hf & He).
  destruct o as [| | |q| | |]; simpl in *; try done.
  destruct (os_mkdir_cases q (files w))
    as [(E & Hne & Hpar & Hq)|[[E _]|[[E _]|[E _]]]];
    rewrite E; simpl; try done.
  assert (forall m, Fs.resolve (files w) q = inr m -> same_kind m Dir) as Hk.
  { intros m. by rewrite Hq. }
  split; [by apply fs_wf_insert|]. split; [done|]. simpl. split.
  - intros p d. rewrite <- Hf. split.
    + intros H. eapply resolve_insert_inv; [done|exact H|]. intros Heq.
      rewrite Heq in H.
      by rewrite (resolve_insert_self _ q Dir Hne Hpar Hk) in H.
    + intros H. rewrite (resolve_insert _ q Dir p (File d) Hk H).
      rewrite decide_False; [done|]. intros ->. by rewrite H in Hq.
  - intros p Hp. destruct (decide (p = q)) as [->|Hpq]; [by right|].
    apply He. unfold Fs.exists_ in *.
    destruct (Fs.resolve (<[q:=Dir]> (files w)) p) as [|n] eqn:R; [done|].
    by rewrite (resolve_insert_inv _ _ _ _ _ Hwf R Hpq).
Qed.

Lemma mkdir_same_files out w :
  fs_wf (files w) ->
  same_files (files w) out (log w) (run_coro (mkdir out true true) w).1.2.
Proof.
  intros Hwf.
  apply (run_coro_invariant (same_files (files w) out (log w)) (mkdir_op out));
    [apply same_files_step|apply mkdir_ops|].
  split; [done|]. split; [done|]. split; [done|]. by left.
Qed.

(** The walk finds the same files once the output folder is made. *)
Lemma discovered_same fs fs' (source path : AsyncPath) :
  fs_grows fs fs' ->
  (forall p d, Fs.resolve fs' p = inr (File d) <-> Fs.resolve fs p = inr (File d)) ->
  path ∈ discovered fs' source <-> path ∈ discovered fs source.
Proof.
  intros G Hf. rewrite !discovered_spec.
  assert (Fs.is_file fs' path = Fs.is_file fs path) as ->.
  { unfold Fs.is_file.
    destruct (Fs.resolve fs' path) as [e|[|d]] eqn:E';
      destruct (Fs.resolve fs path) as [e0|[|d0]] eqn:E; try done.
    - apply Hf in E. congruence.
    - apply Hf in E. congruence.
    - apply Hf in E'. congruence.
    - apply Hf in E'. congruence. }
  split; intros (D & [r ->] & F); (split; [|split; [by exists r|done]]).
  - unfold Fs.is_file in F.
    destruct (Fs.resolve fs (source ++ r)) as [|[|d]] eqn:E; try done.
    apply is_dir_true. eapply resolve_prefix; [exact E|]. intros ->.
    rewrite app_nil_r in E. apply Hf in E. apply is_dir_true in D. congruence.
  - apply is_dir_true. apply is_dir_true in D. by eapply fs_grows_dir.
Qed.

(** A batch that is ready before the output folder is made is ready
    after. *)
Lemma mkdir_keeps_ready (source out : AsyncPath) w w1 :
  grows w w1 -> same_files (files w) out (log w) w1 ->
  (forall path', path' ∈ discovered (files w) source ->
     PurePath.component (PurePath.name path') = true /\
     clear_way (files w) (target_folder_of path' out) /\
     Fs.exists_ (files w) (target_path_of path' out) = false) ->
  forall path', path' ∈ discovered (files w1) source ->
     PurePath.component (PurePath.name path') = true /\
     clear_way (files w1) (target_folder_of path' out) /\
     Fs.exists_ (files w1) (target_path_of path' out) = false.
Proof.
  intros [G _] (_ & _ & Hf & He) Hall path' Hp.
  apply (discovered_same _ _ _ _ G Hf) in Hp.
  destruct (Hall path' Hp) as (Hc & Hway & Hfresh).
  split; [done|]. split.
  - intros q d Hq Hr. apply Hf in Hr. by apply (Hway q d).
  - destruct (Fs.exists_ (files w1) (target_path_of path' out)) eqn:E; [|done].
    apply He in E as [E|E]; [congruence|].
    apply prefix_length in E. rewrite (target_path_snoc _ _ Hc), length_app in E.
    simpl in E. lia.
Qed.

End EndToEnd.


